(** * Decision-tree builder, navigator and cache: a shallow embedding

    The development follows the TypeScript sources
    - [src/utils/tree-optimizer.ts]: [TreeOptimizer], [TreeCache] and the
      edge function's [TreeGenerator];
    - the navigator module ([TreeNavigator], [TreeUtils]);
    - [src/types/tree.ts]: the record types.

    Modelling conventions.
    - A JavaScript [Map] is an insertion-ordered association list whose keys
      are kept distinct by [JsMap.set].
    - The plain object [tree.nodes] is the list of its own entries, and
      its prototype is [Object.prototype] as ECMAScript defines it, Annex B
      included.  A read [tree.nodes[id]] finds an own entry or else a
      member of the prototype ([JsObject.read]); a write under the key
      "__proto__" reaches the prototype's setter and adds no entry
      ([JsObject.assign]).  What [Object.keys], [Object.entries] and
      [Object.values] list are the own entries alone.  A tree is its own
      entries: the prototype that such a write replaces is not recorded.
    - Integers of the data (player, street, depth, amounts) are [Z]; where
      the code divides or formats, the IEEE binary64 operations of
      [SpecFloat] are used, so [NaN], the infinities and the rounding of
      [toFixed] are those of the JavaScript [Number] type.  The code's
      [depth + 1] is exact on safe integers; the builder counts depths up
      from 0, and a statement about trees of any origin assumes
      [safe_depths].
    - The entries of a [sequence] array are records of the declared
      [ActionSequence] type, with its four fields and no others; of a raw
      action the three fields the builder reads are kept.
    - Loops and recursion that the code bounds with a visited set take a
      fuel argument; the fuel lemmas show the chosen fuel is never
      exhausted. *)

From Stdlib Require Import ZArith String Ascii DecimalString SpecFloat.
From stdpp Require Import base tactics option list strings sorting gmap.

Local Open Scope string_scope.
Local Open Scope Z_scope.

(** ** JavaScript numbers *)

Module Number.

Definition t : Type := spec_float.

Definition prec : Z := 53.
Definition emax : Z := 1024.

(** The [Number] nearest to an integer (exact below 2^53). *)
Definition of_Z (z : Z) : t := binary_normalize prec emax z 0 false.

Definition add : t -> t -> t := SFadd prec emax.
Definition div : t -> t -> t := SFdiv prec emax.

Definition NaN : t := S754_nan.
Definition neg_infinity : t := S754_infinity true.
Definition zero : t := S754_zero false.

(** One step of [Math.max]: a [NaN] argument poisons the result, [+0]
    is larger than [-0]. *)
Definition max_step (highest number : t) : t :=
  match SFcompare number highest with
  | None => NaN
  | Some Gt => number
  | Some Eq =>
      match number, highest with
      | S754_zero false, S754_zero true => number
      | _, _ => highest
      end
  | Some Lt => highest
  end.

(** [Math.max(...xs)]; the maximum of no argument is [-Infinity]. *)
Definition math_max (xs : list t) : t := fold_left max_step xs neg_infinity.

(** [xs.reduce((a, b) => a + b, 0)] *)
Definition sum (xs : list t) : t := fold_left add xs zero.

(** Decimal digits of a non-negative integer. *)
Definition digits (n : Z) : string :=
  NilZero.string_of_uint (N.to_uint (Z.to_N n)).

(** [z.toString()] for an integer-valued number. *)
Definition toString_int (z : Z) : string :=
  NilZero.string_of_int (Z.to_int z).

(** The integer [n] for which [n / 10^f - m * 2^e] is closest to zero,
    the larger one when two are equally close. *)
Definition scaled (m : positive) (e : Z) (f : nat) : Z :=
  let p := 10 ^ Z.of_nat f in
  if 0 <=? e then Z.pos m * 2 ^ e * p
  else
    let den := 2 ^ (- e) in
    (2 * (Z.pos m * p) + den) / (2 * den).

Fixpoint zeros (n : nat) : string :=
  match n with
  | O => ""
  | S n' => String "0" (zeros n')
  end.

(** Insert the decimal point [f] digits from the right, padding with
    zeros on the left when there are too few digits. *)
Definition place_point (m : string) (f : nat) : string :=
  match f with
  | O => m
  | S _ =>
      let m' := if (String.length m <=? f)%nat
                then zeros (S f - String.length m) +:+ m else m in
      let k := String.length m' in
      substring 0 (k - f) m' +:+ "." +:+ substring (k - f) f m'
  end.

(** [x.toFixed(f)] for [|x| < 10^21]; beyond that JavaScript switches to
    exponent notation, which the amounts formatted here never reach. *)
Definition toFixed (x : t) (f : nat) : string :=
  match x with
  | S754_nan => "NaN"
  | S754_infinity s => if s then "-Infinity" else "Infinity"
  | S754_zero _ => place_point "0" f
  | S754_finite s m e =>
      (if s then "-" else "") +:+ place_point (digits (scaled m e f)) f
  end.

End Number.

(** ** Insertion-ordered maps (JavaScript [Map]) *)

Module JsMap.

Abbreviation t V := (list (string * V)) (only parsing).

Section Defs.
Context {V : Type}.

Definition empty : t V := [].

Fixpoint get (m : t V) (k : string) : option V :=
  match m with
  | [] => None
  | (k', v) :: m' => if bool_decide (k' = k) then Some v else get m' k
  end.

Definition has (m : t V) (k : string) : bool :=
  match get m k with Some _ => true | None => false end.

(** [m.set(k, v)]: an existing key keeps its position, a new key goes
    to the end. *)
Fixpoint set (m : t V) (k : string) (v : V) : t V :=
  match m with
  | [] => [(k, v)]
  | (k', v') :: m' =>
      if bool_decide (k' = k) then (k', v) :: m'
      else (k', v') :: set m' k v
  end.

Fixpoint delete (m : t V) (k : string) : t V :=
  match m with
  | [] => []
  | (k', v') :: m' =>
      if bool_decide (k' = k) then m' else (k', v') :: delete m' k
  end.

Definition keys (m : t V) : list string := m.*1.
Definition values (m : t V) : list V := m.*2.
Definition size (m : t V) : nat := length m.
End Defs.

End JsMap.

(** ** Own-property order of a plain object

    [Object.entries] lists the array-index keys (canonical decimal
    numerals below 2^32 - 1) in ascending numeric order, then the other
    string keys in the order they were created. *)

Module JsObject.

Definition array_index (k : string) : option N :=
  match NilEmpty.uint_of_string k with
  | Some u =>
      let n := N.of_uint u in
      if bool_decide (Number.digits (Z.of_N n) = k) && (n <? 4294967295)%N
      then Some n else None
  | None => None
  end.

(** The property names of [Object.prototype]. *)
Definition prototype_members : list string :=
  ["constructor"; "__defineGetter__"; "__defineSetter__"; "hasOwnProperty";
   "__lookupGetter__"; "__lookupSetter__"; "isPrototypeOf";
   "propertyIsEnumerable"; "toString"; "valueOf"; "__proto__";
   "toLocaleString"].

Section Defs.
Context {V : Type}.

Definition is_index (entry : string * V) : Prop :=
  is_Some (array_index entry.1).

Definition index_le (e1 e2 : string * V) : Prop :=
  (default 0 (array_index e1.1) <= default 0 (array_index e2.1))%N.

#[local] Instance index_le_dec e1 e2 : Decision (index_le e1 e2).
Proof. unfold index_le. apply _. Defined.

(** [Object.entries(Object.fromEntries(m))] for a [Map] [m]. *)
Definition fromEntries (m : JsMap.t V) : JsMap.t V :=
  (merge_sort index_le (filter is_index m)
     ++ filter (fun entry => ¬ is_index entry) m)%list.

(** [obj[key]]: the value of an own entry, or a member inherited from
    [Object.prototype] (a function, or the prototype itself under
    "__proto__"), or [undefined]. *)
Inductive Found : Type :=
  | Own (v : V)
  | Inherited
  | Absent.

Definition read (obj : JsMap.t V) (key : string) : Found :=
  match JsMap.get obj key with
  | Some v => Own v
  | None =>
      if bool_decide (key ∈ prototype_members) then Inherited else Absent
  end.

(** [obj[key] = value] for an object [value], on an object created by
    [{}]: under "__proto__" the inherited setter replaces the prototype
    and no entry is made. *)
Definition assign (obj : JsMap.t V) (key : string) (value : V) : JsMap.t V :=
  if bool_decide (key = "__proto__") then obj else JsMap.set obj key value.
End Defs.

Arguments Found : clear implicits.

End JsObject.

(** ** PathFormatter: [getActionName] / [formatActionLabel], [formatAmount] *)

(** [formatAmount] is written out twice, word for word, in [TreeGenerator]
    and in [TreeNavigator]; one definition stands for both.  Amounts are
    integers (below 2^53, where [Number.of_Z] is exact). *)
Definition formatAmount (amount : Z) : string :=
  if 1000000 <=? amount then
    Number.toFixed (Number.div (Number.of_Z amount) (Number.of_Z 1000000)) 1
      +:+ "M"
  else if 1000 <=? amount then
    Number.toFixed (Number.div (Number.of_Z amount) (Number.of_Z 1000)) 0
      +:+ "K"
  else Number.toString_int amount.

(** [TreeGenerator.getActionName] *)
Definition getActionName (type : string) (amount : Z) : string :=
  if bool_decide (type = "F") then "Fold"
  else if bool_decide (type = "C") then "Call"
  else if bool_decide (type = "X") then "Check"
  else if bool_decide (type = "R") then
    if 0 <? amount then "Raise " +:+ formatAmount amount else "Raise"
  else type.

(** [TreeNavigator.formatActionLabel]: the navigator's copy of the same
    switch. *)
Definition formatActionLabel (type : string) (amount : Z) : string :=
  if bool_decide (type = "F") then "Fold"
  else if bool_decide (type = "C") then "Call"
  else if bool_decide (type = "X") then "Check"
  else if bool_decide (type = "R") then
    if 0 <? amount then "Raise " +:+ formatAmount amount else "Raise"
  else type.

(** ** Data model ([src/types/tree.ts] and the raw node files) *)

Module ActionSequence.
Record t : Type := mk
  { player : Z; type : string; amount : Z; street : Z }.
End ActionSequence.

(** The value found under [action.node]: absent, a string, or some other
    JSON value (a number).  The declared type is [node?: string]; the
    generator receives untyped JSON and tests both truthiness and
    [typeof]. *)
Inductive Target : Type :=
  | NoTarget
  | StrTarget (s : string)
  | NumTarget (z : Z).

#[global] Instance Target_eq_dec : EqDecision Target.
Proof. solve_decision. Defined.

(** JavaScript truthiness of such a value. *)
Definition truthy (t : Target) : bool :=
  match t with
  | NoTarget => false
  | StrTarget s => negb (bool_decide (s = ""))
  | NumTarget z => negb (z =? 0)
  end.

(** [x === id] for a string [id]. *)
Definition target_is (t : Target) (id : string) : bool :=
  match t with
  | StrTarget s => bool_decide (s = id)
  | _ => false
  end.

Module Raw.
(** One entry of a raw node's [actions] array. *)
Record Action : Type := mkAction
  { type : string; amount : option Z; node : Target }.

(** A raw node file: every field may be missing; of [hands] only the
    number of its keys is observed. *)
Record Node : Type := mkNode
  { sequence : option (list ActionSequence.t);
    actions : option (list Action);
    player : option Z;
    street : option Z;
    hands : option nat }.
End Raw.

Module NodeAction.
Record t : Type := mk
  { type : string; amount : Z; node : Target }.
End NodeAction.

Module TreeNode.
Record t : Type := mk
  { id : string;
    parentId : option string;
    player : Z;
    street : Z;
    sequence : list ActionSequence.t;
    actions : list NodeAction.t;
    children : list string;
    depth : Z;
    path : string;
    isTerminal : bool;
    hasHandData : bool }.
End TreeNode.

Module TreeMetadata.
Record t : Type := mk
  { totalNodes : nat;
    terminalNodes : nat;
    generatedAt : string;
    version : string }.
End TreeMetadata.

Module OptimizedTree.
Record t : Type := mk
  { nodes : JsMap.t TreeNode.t;
    root : string;
    maxDepth : Number.t;
    playerCount : nat;
    metadata : TreeMetadata.t }.
End OptimizedTree.

(** A call either returns or throws an [Error] with a message. *)
Inductive Outcome (A : Type) : Type :=
  | Returned (a : A)
  | Thrown (message : string).

(** A call that the engine may end with a [TypeError], as it does when a
    property of [undefined] is read. *)
Inductive Completion (A : Type) : Type :=
  | Normal (a : A)
  | TypeError.
Arguments Returned {A} a.
Arguments Thrown {A} message.
Arguments Normal {A} a.
Arguments TypeError {A}.

(** ** JavaScript string methods used on file paths *)

Module JsString.

(** [s.includes(sub)] *)
Fixpoint includes (sub s : string) : bool :=
  String.prefix sub s
  || match s with
     | EmptyString => false
     | String _ s' => includes sub s'
     end.

(** [s.endsWith(suffix)] *)
Fixpoint endsWith (suffix s : string) : bool :=
  bool_decide (s = suffix)
  || match s with
     | EmptyString => false
     | String _ s' => endsWith suffix s'
     end.

(** [s.split('/').pop()]: what follows the last slash, the whole string
    when there is none. *)
Fixpoint lastSegment (s : string) : string :=
  match s with
  | EmptyString => EmptyString
  | String c s' =>
      if includes "/" s' then lastSegment s'
      else if bool_decide (c = "/"%char) then s'
      else String c s'
  end.

Fixpoint drop_chars (n : nat) (s : string) : string :=
  match n, s with
  | S n', String _ s' => drop_chars n' s'
  | _, _ => s
  end.

(** [s.replace(sub, '')]: the first occurrence of [sub] is removed. *)
Fixpoint removeFirst (sub s : string) : string :=
  if String.prefix sub s then drop_chars (String.length sub) s
  else match s with
       | EmptyString => EmptyString
       | String c s' => String c (removeFirst sub s')
       end.

End JsString.

(** ** TreeGenerator *)

Module TreeGenerator.

(** [getPlayerName] *)
Definition positions : list string := ["SB"; "BB"; "BTN"; "CO"; "MP"; "UTG"].

Definition getPlayerName (player : Z) : string :=
  match (if 0 <=? player then positions !! Z.to_nat player else None) with
  | Some name => name
  | None => "P" +:+ Number.toString_int player
  end.

(** [buildNodePath] *)
Definition buildNodePath (sequence : list ActionSequence.t) : string :=
  match sequence with
  | [] => "Root"
  | _ =>
      String.concat " â†’ "
        (map (fun action =>
                getPlayerName (ActionSequence.player action) +:+ ": " +:+
                getActionName (ActionSequence.type action)
                              (ActionSequence.amount action))
             sequence)
  end.

(** [findRootNode], first loop: the first record, in the map's iteration
    order, whose sequence is empty or whose identifier is "0". *)
Definition is_root_candidate (entry : string * Raw.Node) : bool :=
  match Raw.sequence entry.2 with
  | Some [] => true
  | _ => false
  end || bool_decide (entry.1 = "0").

(** The identifiers collected in [childNodes] that a string can equal. *)
Definition childNodes (nodes : JsMap.t Raw.Node) : list string :=
  flat_map (fun entry =>
    flat_map (fun action =>
                match Raw.node action with
                | StrTarget s => if truthy (StrTarget s) then [s] else []
                | _ => []
                end)
             (default [] (Raw.actions entry.2)))
    nodes.

Definition findRootNode (nodes : JsMap.t Raw.Node) : Outcome string :=
  match List.find is_root_candidate nodes with
  | Some entry => Returned entry.1
  | None =>
      let referenced := childNodes nodes in
      match List.find (fun nodeId => negb (bool_decide (nodeId ∈ referenced)))
                      (JsMap.keys nodes) with
      | Some nodeId => Returned nodeId
      | None => Thrown "Could not find root node"
      end
  end.

(** The [children] array of a raw node: the truthy string targets of its
    actions, in action order. *)
Definition children_of (actions : list Raw.Action) : list string :=
  flat_map (fun action =>
              match Raw.node action with
              | StrTarget s => if truthy (StrTarget s) then [s] else []
              | _ => []
              end)
           actions.

Definition copy_action (action : Raw.Action) : NodeAction.t :=
  {| NodeAction.type := Raw.type action;
     NodeAction.amount :=
       match Raw.amount action with
       | Some a => a
       | None => 0
       end;
     NodeAction.node :=
       if truthy (Raw.node action) then Raw.node action else NoTarget |}.

(** The [treeNode] object literal of [buildTreeStructure]. *)
Definition make_node (nodeId : string) (parentId : option string)
    (depth : Z) (rawNode : Raw.Node) : TreeNode.t :=
  let actions := default [] (Raw.actions rawNode) in
  let children := children_of actions in
  {| TreeNode.id := nodeId;
     TreeNode.parentId := parentId;
     TreeNode.player := default 0 (Raw.player rawNode);
     TreeNode.street := default 0 (Raw.street rawNode);
     TreeNode.sequence := default [] (Raw.sequence rawNode);
     TreeNode.actions := map copy_action actions;
     TreeNode.children := children;
     TreeNode.depth := depth;
     TreeNode.path := buildNodePath (default [] (Raw.sequence rawNode));
     TreeNode.isTerminal := bool_decide (length children = 0%nat);
     TreeNode.hasHandData :=
       match Raw.hands rawNode with
       | Some n => bool_decide (0 < n)%nat
       | None => false
       end |}.

(** [buildTreeStructure], threading [processedNodes].  [None] means the
    fuel ran out, which [buildTreeStructure_fuel] excludes for the fuel
    used by [build]. *)
Fixpoint buildTreeStructure (fuel : nat) (nodes : JsMap.t Raw.Node)
    (nodeId : string) (parentId : option string) (depth : Z)
    (processedNodes : JsMap.t TreeNode.t) : option (JsMap.t TreeNode.t) :=
  match fuel with
  | O => None
  | S fuel' =>
      match JsMap.get nodes nodeId with
      | None => Some processedNodes
      | Some rawNode =>
          if JsMap.has processedNodes nodeId then Some processedNodes
          else
            let treeNode := make_node nodeId parentId depth rawNode in
            fold_left
              (fun acc childId =>
                 acc ≫= buildTreeStructure fuel' nodes childId
                          (Some nodeId) (depth + 1))
              (TreeNode.children treeNode)
              (Some (JsMap.set processedNodes nodeId treeNode))
      end
  end.

(** The traversal from a root over an empty [processedNodes]. *)
Definition build (nodes : JsMap.t Raw.Node) (rootId : string)
    : option (JsMap.t TreeNode.t) :=
  buildTreeStructure (S (length nodes)) nodes rootId None 0 [].

(** [this.settings?.handdata?.stacks?.length || 3]; [stacks] is the
    length of the settings' stack list when the settings have one. *)
Definition playerCount_of (stacks : option nat) : nat :=
  match stacks with
  | Some (S n) => S n
  | _ => 3%nat
  end.

(** [generateTree].  [stacks] and [now] stand for the two values read
    from outside the node collection: the settings file and the clock. *)
Definition generateTree (nodes : JsMap.t Raw.Node) (stacks : option nat)
    (now : string) : option (Outcome OptimizedTree.t) :=
  match findRootNode nodes with
  | Thrown message => Some (Thrown message)
  | Returned rootId =>
      processedNodes ← build nodes rootId;
      let values := JsMap.values processedNodes in
      Some (Returned
        {| OptimizedTree.nodes := JsObject.fromEntries processedNodes;
           OptimizedTree.root := rootId;
           OptimizedTree.maxDepth :=
             Number.math_max (map (fun n => Number.of_Z (TreeNode.depth n)) values);
           OptimizedTree.playerCount := playerCount_of stacks;
           OptimizedTree.metadata :=
             {| TreeMetadata.totalNodes := JsMap.size processedNodes;
                TreeMetadata.terminalNodes :=
                  length (List.filter TreeNode.isTerminal values);
                TreeMetadata.generatedAt := now;
                TreeMetadata.version := "1.0.0" |} |})
  end.

(** [loadData], the node files: a path counts when it contains "nodes/"
    and ends in ".json"; the identifier is its last segment with the
    first ".json" removed.  [zipData] lists the archive's entries in
    enumeration order, each content read as a raw node. *)
Definition is_node_path (path : string) : bool :=
  JsString.includes "nodes/" path && JsString.endsWith ".json" path.

Definition node_id_of (path : string) : string :=
  JsString.removeFirst ".json" (JsString.lastSegment path).

Definition loadData (zipData : list (string * Raw.Node)) : JsMap.t Raw.Node :=
  fold_left (fun nodes file =>
               if is_node_path file.1
               then JsMap.set nodes (node_id_of file.1) file.2
               else nodes)
            zipData [].

End TreeGenerator.

(** A [Record<number, string[]>]: the groups in creation order, each under
    the number whose decimal string is the property key. *)
Module Groups.

Fixpoint get (groups : list (Z * list string)) (key : Z) : option (list string) :=
  match groups with
  | [] => None
  | (k, ids) :: rest => if bool_decide (k = key) then Some ids else get rest key
  end.

(** [if (!groups[key]) groups[key] = []; groups[key].push(nodeId)] *)
Fixpoint push (groups : list (Z * list string)) (key : Z) (nodeId : string)
    : list (Z * list string) :=
  match groups with
  | [] => [(key, [nodeId])]
  | (k, ids) :: rest =>
      if bool_decide (k = key) then (k, (ids ++ [nodeId])%list) :: rest
      else (k, ids) :: push rest key nodeId
  end.

End Groups.

Module TreeIndex.
Record t : Type := mk
  { byDepth : list (Z * list string);
    byPlayer : list (Z * list string);
    terminals : list string;
    withHandData : list string }.
End TreeIndex.

(** ** TreeOptimizer: [validateTree] and the branching metrics *)

Module TreeOptimizer.

Record ValidationReport : Type := mkReport
  { isValid : bool; errors : list string }.

(** A truthy [parentId]: neither [null] nor the empty string. *)
Definition truthy_id (parentId : option string) : option string :=
  match parentId with
  | Some s => if bool_decide (s = "") then None else Some s
  | None => None
  end.

Definition show_target (t : Target) : string :=
  match t with
  | NoTarget => "undefined"
  | StrTarget s => s
  | NumTarget z => Number.toString_int z
  end.

(** [nodeIds.has(x)] for a value [x] found under [action.node]. *)
Definition has_target (nodes : JsMap.t TreeNode.t) (t : Target) : bool :=
  match t with
  | StrTarget s => JsMap.has nodes s
  | _ => false
  end.

Definition parent_errors (nodes : JsMap.t TreeNode.t) (nodeId : string)
    (node : TreeNode.t) : list string :=
  match truthy_id (TreeNode.parentId node) with
  | Some parentId =>
      if JsMap.has nodes parentId then []
      else ["Node " +:+ nodeId +:+ " references non-existent parent "
              +:+ parentId]
  | None => []
  end.

Definition child_errors (nodes : JsMap.t TreeNode.t) (nodeId : string)
    (node : TreeNode.t) : list string :=
  flat_map (fun childId =>
              if JsMap.has nodes childId then []
              else ["Node " +:+ nodeId +:+ " references non-existent child "
                      +:+ childId])
           (TreeNode.children node).

Definition action_errors (nodes : JsMap.t TreeNode.t) (nodeId : string)
    (node : TreeNode.t) : list string :=
  concat (imap (fun index action =>
                  if truthy (NodeAction.node action)
                     && negb (has_target nodes (NodeAction.node action))
                  then ["Node " +:+ nodeId +:+ " action "
                          +:+ Number.toString_int (Z.of_nat index)
                          +:+ " references non-existent node "
                          +:+ show_target (NodeAction.node action)]
                  else [])
               (TreeNode.actions node)).

Definition depth_errors (nodes : JsMap.t TreeNode.t) (nodeId : string)
    (node : TreeNode.t) : list string :=
  match truthy_id (TreeNode.parentId node) with
  | Some parentId =>
      match JsObject.read nodes parentId with
      | JsObject.Own parent =>
          if bool_decide (TreeNode.depth parent + 1 = TreeNode.depth node)
          then []
          else ["Node " +:+ nodeId +:+ " has inconsistent depth ("
                  +:+ Number.toString_int (TreeNode.depth node)
                  +:+ ") relative to parent ("
                  +:+ Number.toString_int (TreeNode.depth parent) +:+ ")"]
      | JsObject.Inherited =>
          (* [parent.depth] is [undefined], and [undefined + 1] is [NaN] *)
          ["Node " +:+ nodeId +:+ " has inconsistent depth ("
             +:+ Number.toString_int (TreeNode.depth node)
             +:+ ") relative to parent (undefined)"]
      | JsObject.Absent => []
      end
  | None => []
  end.

Definition validateTree (tree : OptimizedTree.t) : ValidationReport :=
  let nodes := OptimizedTree.nodes tree in
  let root_errors :=
    if JsMap.has nodes (OptimizedTree.root tree) then []
    else ["Root node " +:+ OptimizedTree.root tree +:+ " not found in nodes"] in
  let errors :=
    (root_errors ++
     flat_map (fun entry =>
                 parent_errors nodes entry.1 entry.2
                 ++ child_errors nodes entry.1 entry.2
                 ++ action_errors nodes entry.1 entry.2
                 ++ depth_errors nodes entry.1 entry.2)
              nodes)%list in
  {| isValid := bool_decide (length errors = 0%nat); errors := errors |}.

(** The children counts of the non-terminal nodes. *)
Definition branchingFactors (nodes : list TreeNode.t) : list Number.t :=
  map (fun n => Number.of_Z (Z.of_nat (length (TreeNode.children n))))
      (List.filter (fun n => negb (TreeNode.isTerminal n)) nodes).

(** The two branching fields of [calculateMetrics]; [balanceScore],
    [memoryFootprint] and [nodeDistribution] are left out. *)
Record Metrics : Type := mkMetrics
  { avgBranchingFactor : Number.t; maxBranchingFactor : Number.t }.

Definition calculateMetrics (tree : OptimizedTree.t) : Metrics :=
  let factors := branchingFactors (JsMap.values (OptimizedTree.nodes tree)) in
  {| avgBranchingFactor :=
       if bool_decide (0 < length factors)%nat
       then Number.div (Number.sum factors)
                       (Number.of_Z (Z.of_nat (length factors)))
       else Number.of_Z 0;
     maxBranchingFactor :=
       if bool_decide (0 < length factors)%nat
       then Number.math_max factors
       else Number.of_Z 0 |}.

(** [createIndexes]: one pass over the entries of [tree.nodes]. *)
Definition index_step (index : TreeIndex.t) (entry : string * TreeNode.t)
    : TreeIndex.t :=
  let nodeId := entry.1 in
  let node := entry.2 in
  {| TreeIndex.byDepth :=
       Groups.push (TreeIndex.byDepth index) (TreeNode.depth node) nodeId;
     TreeIndex.byPlayer :=
       Groups.push (TreeIndex.byPlayer index) (TreeNode.player node) nodeId;
     TreeIndex.terminals :=
       if TreeNode.isTerminal node
       then (TreeIndex.terminals index ++ [nodeId])%list
       else TreeIndex.terminals index;
     TreeIndex.withHandData :=
       if TreeNode.hasHandData node
       then (TreeIndex.withHandData index ++ [nodeId])%list
       else TreeIndex.withHandData index |}.

Definition createIndexes (tree : OptimizedTree.t) : TreeIndex.t :=
  fold_left index_step (OptimizedTree.nodes tree)
    {| TreeIndex.byDepth := []; TreeIndex.byPlayer := [];
       TreeIndex.terminals := []; TreeIndex.withHandData := [] |}.

(** [compressSequence]: the four fields are copied. *)
Definition compressSequence (sequence : list ActionSequence.t)
    : list ActionSequence.t :=
  map (fun action =>
         {| ActionSequence.player := ActionSequence.player action;
            ActionSequence.type := ActionSequence.type action;
            ActionSequence.amount := ActionSequence.amount action;
            ActionSequence.street := ActionSequence.street action |})
      sequence.

(** [compressActions]: [node] is copied when it is truthy. *)
Definition compressActions (actions : list NodeAction.t) : list NodeAction.t :=
  map (fun action =>
         {| NodeAction.type := NodeAction.type action;
            NodeAction.amount := NodeAction.amount action;
            NodeAction.node :=
              if truthy (NodeAction.node action) then NodeAction.node action
              else NoTarget |})
      actions.

Definition compress_node (node : TreeNode.t) : TreeNode.t :=
  {| TreeNode.id := TreeNode.id node;
     TreeNode.parentId := TreeNode.parentId node;
     TreeNode.player := TreeNode.player node;
     TreeNode.street := TreeNode.street node;
     TreeNode.sequence := compressSequence (TreeNode.sequence node);
     TreeNode.actions := compressActions (TreeNode.actions node);
     TreeNode.children := TreeNode.children node;
     TreeNode.depth := TreeNode.depth node;
     TreeNode.path := TreeNode.path node;
     TreeNode.isTerminal := TreeNode.isTerminal node;
     TreeNode.hasHandData := TreeNode.hasHandData node |}.

(** [compressTree]: the compressed nodes are assigned, entry by entry, to
    a fresh object, which replaces [nodes]. *)
Definition compressTree (tree : OptimizedTree.t) : OptimizedTree.t :=
  {| OptimizedTree.nodes :=
       JsObject.fromEntries
         (fold_left (fun compressedNodes entry =>
                       JsObject.assign compressedNodes entry.1
                                       (compress_node entry.2))
                    (OptimizedTree.nodes tree) []);
     OptimizedTree.root := OptimizedTree.root tree;
     OptimizedTree.maxDepth := OptimizedTree.maxDepth tree;
     OptimizedTree.playerCount := OptimizedTree.playerCount tree;
     OptimizedTree.metadata := OptimizedTree.metadata tree |}.

End TreeOptimizer.

(** ** TreeCache *)

Module TreeCache.

Section Defs.
Context {V : Type}.

Definition maxSize : nat := 100.

(** [set]: at full size the first key in insertion order is deleted,
    then the key is stored. *)
Definition set (cache : JsMap.t V) (key : string) (value : V) : JsMap.t V :=
  let cache' :=
    if bool_decide (maxSize <= JsMap.size cache)%nat then
      match JsMap.keys cache with
      | firstKey :: _ => JsMap.delete cache firstKey
      | [] => cache
      end
    else cache in
  JsMap.set cache' key value.

(** [get] and [has] read the map and leave it as it is. *)
Definition get (cache : JsMap.t V) (key : string) : option V :=
  JsMap.get cache key.

Definition has (cache : JsMap.t V) (key : string) : bool :=
  JsMap.has cache key.

Definition clear (cache : JsMap.t V) : JsMap.t V := [].

(** A call on the cache, and the cache after a sequence of calls. *)
Inductive Call : Type :=
  | CallSet (key : string) (value : V)
  | CallGet (key : string).

Definition step (cache : JsMap.t V) (call : Call) : JsMap.t V :=
  match call with
  | CallSet key value => set cache key value
  | CallGet key => let _ := get cache key in cache
  end.

Definition run (calls : list Call) (cache : JsMap.t V) : JsMap.t V :=
  fold_left step calls cache.

(** The keys of the [set] calls, in call order. *)
Definition set_keys (calls : list Call) : list string :=
  flat_map (fun call => match call with
                        | CallSet key _ => [key]
                        | CallGet _ => []
                        end) calls.
Record Stats : Type := mkStats
  { stats_size : nat; stats_maxSize : nat; stats_keys : list string }.

Definition getStats (cache : JsMap.t V) : Stats :=
  {| stats_size := JsMap.size cache;
     stats_maxSize := maxSize;
     stats_keys := JsMap.keys cache |}.

End Defs.

End TreeCache.

(** ** TreeNavigator *)

Module BreadcrumbItem.
Record t : Type := mk
  { nodeId : string; label : string; player : Z; action : string }.
End BreadcrumbItem.

Module NavigationAction.
Record t : Type := mk
  { label : string; targetNode : Target; type : string; amount : Z;
    isAllIn : bool }.
End NavigationAction.

Module NavigationPath.
Record t : Type := mk
  { currentNode : string;
    breadcrumbs : list BreadcrumbItem.t;
    availableActions : list NavigationAction.t }.
End NavigationPath.

Module TreeNavigator.

Record t : Type := mk
  { tree : OptimizedTree.t; nodeCache : JsMap.t TreeNode.t }.

(** The constructor: [buildCache] stores every entry of [tree.nodes]. *)
Definition buildCache (tree : OptimizedTree.t) : JsMap.t TreeNode.t :=
  fold_left (fun cache entry => JsMap.set cache entry.1 entry.2)
            (OptimizedTree.nodes tree) [].

Definition new (tree : OptimizedTree.t) : t :=
  {| tree := tree; nodeCache := buildCache tree |}.

Definition isAllInAction (amount : Z) (player : Z) : bool := false.

(** The [while] loop of [buildBreadcrumbs]; the result is the node the
    walk stopped at and the trail so far.  [None]: out of fuel. *)
Fixpoint breadcrumbs_loop (fuel : nat) (cache : JsMap.t TreeNode.t)
    (currentNode : option TreeNode.t) (breadcrumbs : list BreadcrumbItem.t)
    : option (option TreeNode.t * list BreadcrumbItem.t) :=
  match currentNode with
  | None => Some (currentNode, breadcrumbs)
  | Some current =>
      match TreeOptimizer.truthy_id (TreeNode.parentId current) with
      | None => Some (currentNode, breadcrumbs)
      | Some parentId =>
          match JsMap.get cache parentId with
          | None => Some (currentNode, breadcrumbs)
          | Some parentNode =>
              match fuel with
              | O => None
              | S fuel' =>
                  let breadcrumbs' :=
                    match List.find
                            (fun action =>
                               target_is (NodeAction.node action)
                                         (TreeNode.id current))
                            (TreeNode.actions parentNode) with
                    | Some actionToChild =>
                        {| BreadcrumbItem.nodeId := parentId;
                           BreadcrumbItem.label :=
                             formatActionLabel
                               (NodeAction.type actionToChild)
                               (NodeAction.amount actionToChild);
                           BreadcrumbItem.player := TreeNode.player parentNode;
                           BreadcrumbItem.action :=
                             NodeAction.type actionToChild |}
                        :: breadcrumbs
                    | None => breadcrumbs
                    end in
                  breadcrumbs_loop fuel' cache (Some parentNode) breadcrumbs'
              end
          end
      end
  end.

Definition buildBreadcrumbs (fuel : nat) (nav : t) (nodeId : string)
    : option (list BreadcrumbItem.t) :=
  '(currentNode, breadcrumbs) ←
     breadcrumbs_loop fuel (nodeCache nav) (JsMap.get (nodeCache nav) nodeId) [];
  Some
    match currentNode with
    | Some current =>
        match TreeOptimizer.truthy_id (TreeNode.parentId current) with
        | None =>
            {| BreadcrumbItem.nodeId := TreeNode.id current;
               BreadcrumbItem.label := "Start";
               BreadcrumbItem.player := TreeNode.player current;
               BreadcrumbItem.action := "ROOT" |} :: breadcrumbs
        | Some _ => breadcrumbs
        end
    | None => breadcrumbs
    end.

Definition getAvailableActions (nav : t) (nodeId : string)
    : list NavigationAction.t :=
  match JsMap.get (nodeCache nav) nodeId with
  | None => []
  | Some node =>
      map (fun action =>
             {| NavigationAction.label :=
                  formatActionLabel (NodeAction.type action)
                                    (NodeAction.amount action);
                NavigationAction.targetNode := NodeAction.node action;
                NavigationAction.type := NodeAction.type action;
                NavigationAction.amount := NodeAction.amount action;
                NavigationAction.isAllIn :=
                  isAllInAction (NodeAction.amount action)
                                (TreeNode.player node) |})
          (List.filter (fun action => truthy (NodeAction.node action))
                       (TreeNode.actions node))
  end.

(** [getNavigationPath]: the inner [None] is JavaScript's [null], the
    outer one an exhausted fuel. *)
Definition getNavigationPath (fuel : nat) (nav : t) (nodeId : string)
    : option (option NavigationPath.t) :=
  match JsMap.get (nodeCache nav) nodeId with
  | None => Some None
  | Some _ =>
      breadcrumbs ← buildBreadcrumbs fuel nav nodeId;
      Some (Some {| NavigationPath.currentNode := nodeId;
                    NavigationPath.breadcrumbs := breadcrumbs;
                    NavigationPath.availableActions :=
                      getAvailableActions nav nodeId |})
  end.

Record TreeStats : Type := mkStats
  { totalNodes : nat;
    terminalNodes : nat;
    maxDepth : Number.t;
    avgBranchingFactor : Number.t;
    maxBranchingFactor : Number.t;
    nodesWithHandData : nat }.

Definition getTreeStats (nav : t) : TreeStats :=
  let nodes := JsMap.values (nodeCache nav) in
  let branchingFactors := TreeOptimizer.branchingFactors nodes in
  {| totalNodes := length nodes;
     terminalNodes := length (List.filter TreeNode.isTerminal nodes);
     maxDepth :=
       Number.math_max (map (fun n => Number.of_Z (TreeNode.depth n)) nodes);
     avgBranchingFactor :=
       Number.div (Number.sum branchingFactors)
                  (Number.of_Z (Z.of_nat (length branchingFactors)));
     maxBranchingFactor := Number.math_max branchingFactors;
     nodesWithHandData := length (List.filter TreeNode.hasHandData nodes) |}.

(** [nodeCache.get(x)] for a value [x] that came from [action.node]: only
    a string can be a key. *)
Definition cache_get (cache : JsMap.t TreeNode.t) (current : Target)
    : option TreeNode.t :=
  match current with
  | StrTarget s => JsMap.get cache s
  | _ => None
  end.

(** The loop of [navigateByPath]; [current] is [currentNodeId]. *)
Fixpoint navigate (cache : JsMap.t TreeNode.t) (current : Target)
    (actionTypes : list string) : option Target :=
  match actionTypes with
  | [] => Some current
  | actionType :: rest =>
      match cache_get cache current with
      | None => None
      | Some node =>
          match List.find (fun a => bool_decide (NodeAction.type a = actionType)
                                    && truthy (NodeAction.node a))
                          (TreeNode.actions node) with
          | None => None
          | Some action => navigate cache (NodeAction.node action) rest
          end
      end
  end.

Definition navigateByPath (nav : t) (startNodeId : string)
    (actionTypes : list string) : option Target :=
  navigate (nodeCache nav) (StrTarget startNodeId) actionTypes.

(** [traverse] of [getTerminalNodes], threading [visited] and [terminals].
    [None]: out of fuel. *)
Fixpoint traverse (fuel : nat) (cache : JsMap.t TreeNode.t) (nodeId : string)
    (state : gset string * list string) : option (gset string * list string) :=
  match fuel with
  | O => None
  | S fuel' =>
      let '(visited, terminals) := state in
      if bool_decide (nodeId ∈ visited) then Some state
      else
        let visited' := {[nodeId]} ∪ visited in
        match JsMap.get cache nodeId with
        | None => Some (visited', terminals)
        | Some node =>
            if TreeNode.isTerminal node
            then Some (visited', (terminals ++ [nodeId])%list)
            else
              fold_left (fun acc childId => acc ≫= traverse fuel' cache childId)
                        (TreeNode.children node)
                        (Some (visited', terminals))
        end
  end.

Definition getTerminalNodes (nav : t) (startNodeId : string)
    : option (list string) :=
  snd <$> traverse (S (length (nodeCache nav))) (nodeCache nav) startNodeId
                   (∅, []).

End TreeNavigator.

(** ** TreeUtils: [findShortestPath] *)

Module TreeUtils.

Definition QueueItem : Type := string * list string.

(** The children pushed for a node just marked visited. *)
Definition pushed (visited : gset string) (path : list string)
    (children : list string) : list QueueItem :=
  map (fun childId => (childId, (path ++ [childId])%list))
      (List.filter (fun childId => negb (bool_decide (childId ∈ visited)))
                   children).

(** The [while (queue.length > 0)] loop.  Inner [None] is [null]; outer
    [None] an exhausted fuel.  When [tree.nodes[nodeId]] is an inherited
    member, [node] is truthy, [node.children] is [undefined], and the call
    of [forEach] on it ends the search with a [TypeError]. *)
Fixpoint bfs_loop (fuel : nat) (nodes : JsMap.t TreeNode.t)
    (toNodeId : string) (queue : list QueueItem) (visited : gset string)
    : option (Completion (option (list string))) :=
  match queue with
  | [] => Some (Normal None)
  | (nodeId, path) :: queue' =>
      match fuel with
      | O => None
      | S fuel' =>
          if bool_decide (nodeId = toNodeId) then Some (Normal (Some path))
          else if bool_decide (nodeId ∈ visited)
          then bfs_loop fuel' nodes toNodeId queue' visited
          else
            let visited' := {[nodeId]} ∪ visited in
            match JsObject.read nodes nodeId with
            | JsObject.Absent => bfs_loop fuel' nodes toNodeId queue' visited'
            | JsObject.Inherited => Some TypeError
            | JsObject.Own node =>
                bfs_loop fuel' nodes toNodeId
                  (queue' ++ pushed visited' path (TreeNode.children node))
                  visited'
            end
      end
  end.

(** Every queue item is shifted once and a node's children are pushed
    once, so the loop runs at most once per child link, plus once for
    the start item. *)
Definition bfs_fuel (nodes : JsMap.t TreeNode.t) : nat :=
  S (sum_list (map (fun n => length (TreeNode.children n))
                   (JsMap.values nodes))).

Definition findShortestPath (tree : OptimizedTree.t)
    (fromNodeId toNodeId : string)
    : option (Completion (option (list string))) :=
  bfs_loop (bfs_fuel (OptimizedTree.nodes tree)) (OptimizedTree.nodes tree)
           toNodeId [(fromNodeId, [fromNodeId])] ∅.

(** [getNodesAtDepth] *)
Definition getNodesAtDepth (tree : OptimizedTree.t) (depth : Z)
    : list TreeNode.t :=
  List.filter (fun node => bool_decide (TreeNode.depth node = depth))
              (JsMap.values (OptimizedTree.nodes tree)).

End TreeUtils.

Import TreeGenerator.

(** ** Paths along child links *)

(** [b] is listed among the children of the node stored under [a]. *)
Definition child_link (nodes : JsMap.t TreeNode.t) (a b : string) : Prop :=
  ∃ node, JsMap.get nodes a = Some node ∧ b ∈ TreeNode.children node.

(** [path] starts at [fromId], ends at [toId], and each of its elements is
    a child of the one before. *)
Definition child_path (nodes : JsMap.t TreeNode.t) (fromId toId : string)
    (path : list string) : Prop :=
  head path = Some fromId ∧ last path = Some toId ∧
  ∀ i a b, path !! i = Some a → path !! S i = Some b → child_link nodes a b.

(** ** Self-consistent collections *)

(** A truthy action target resolves when it is a string naming a record of
    the collection. *)
Definition target_resolves (nodes : JsMap.t Raw.Node) (target : Target) : bool :=
  negb (truthy target)
  || match target with
     | StrTarget s => JsMap.has nodes s
     | _ => false
     end.

Definition self_consistent (nodes : JsMap.t Raw.Node) : bool :=
  forallb (fun entry =>
             forallb (fun action => target_resolves nodes (Raw.node action))
                     (default [] (Raw.actions entry.2)))
          nodes.

(** Following [parentId] for a number of steps. *)
Fixpoint climb (nodes : JsMap.t TreeNode.t) (steps : nat) (id : string)
    : option string :=
  match steps with
  | O => Some id
  | S steps' =>
      node ← JsMap.get nodes id;
      parentId ← TreeNode.parentId node;
      climb nodes steps' parentId
  end.

(** ** Predicates used in the proofs *)

(** The last [n] elements of a list. *)
Definition last_n {A : Type} (n : nat) (l : list A) : list A :=
  drop (length l - n) l.

(** The node stored under a key is the object literal made from that
    key's raw record. *)
Definition node_ok (nodes : JsMap.t Raw.Node) (entry : string * TreeNode.t)
    : Prop :=
  ∃ rawNode par d, JsMap.get nodes entry.1 = Some rawNode ∧
    entry.2 = make_node entry.1 par d rawNode.

(** The node's parent is among [new], lists the node as a child and is
    one level above it. *)
Definition linked (new : JsMap.t TreeNode.t) (entry : string * TreeNode.t)
    : Prop :=
  ∃ q pn, TreeNode.parentId entry.2 = Some q ∧ (q, pn) ∈ new ∧
          entry.1 ∈ TreeNode.children pn ∧
          TreeNode.depth entry.2 = TreeNode.depth pn + 1.

(** [grows roots par d p p']: visiting the identifiers [roots] as
    children of [par] at depth [d] turns [p] into [p']. *)
Definition grows (nodes : JsMap.t Raw.Node) (roots : list string)
    (par : option string) (d : Z) (p p' : JsMap.t TreeNode.t) : Prop :=
  ∃ new,
    p' = (p ++ new)%list ∧
    NoDup (JsMap.keys new) ∧
    (∀ k, k ∈ JsMap.keys new → k ∉ JsMap.keys p) ∧
    Forall (fun entry =>
              node_ok nodes entry ∧ d <= TreeNode.depth entry.2 ∧
              ((entry.1 ∈ roots ∧ TreeNode.parentId entry.2 = par ∧
                TreeNode.depth entry.2 = d)
               ∨ linked new entry)) new ∧
    (∀ c, c ∈ roots → is_Some (JsMap.get nodes c) → c ∈ JsMap.keys p') ∧
    (∀ entry c, entry ∈ new → c ∈ TreeNode.children entry.2 →
                is_Some (JsMap.get nodes c) → c ∈ JsMap.keys p').

(** The records not yet in [processedNodes]. *)
Definition unprocessed (nodes : JsMap.t Raw.Node) (p : JsMap.t TreeNode.t)
    : nat :=
  length (filter (fun k => k ∉ JsMap.keys p) (JsMap.keys nodes)).

(** What holds of the node table of a returned tree. *)
Record Built (nodes : JsMap.t Raw.Node) (t : OptimizedTree.t) : Prop := mkBuilt
  { built_root :
      ∃ rawNode rest,
        JsMap.get nodes (OptimizedTree.root t) = Some rawNode ∧
        OptimizedTree.nodes t
          ≡ₚ (OptimizedTree.root t,
               make_node (OptimizedTree.root t) None 0 rawNode) :: rest ∧
        Forall (linked (OptimizedTree.nodes t)) rest;
    built_NoDup : NoDup (JsMap.keys (OptimizedTree.nodes t));
    built_ok : Forall (node_ok nodes) (OptimizedTree.nodes t);
    built_depth :
      Forall (fun entry => 0 <= TreeNode.depth entry.2) (OptimizedTree.nodes t);
    built_closed :
      ∀ entry c, entry ∈ OptimizedTree.nodes t →
                 c ∈ TreeNode.children entry.2 →
                 is_Some (JsMap.get nodes c) →
                 c ∈ JsMap.keys (OptimizedTree.nodes t) }.

(** Paths as the search grows them: one child appended at a time. *)
Inductive walk (nodes : JsMap.t TreeNode.t) (fromNodeId : string)
    : string → list string → Prop :=
  | walk_start : walk nodes fromNodeId fromNodeId [fromNodeId]
  | walk_step v p c :
      walk nodes fromNodeId v p → child_link nodes v c →
      walk nodes fromNodeId c (p ++ [c])%list.

(** The loop invariant; [d v] is the length of the path with which the
    visited node [v] was shifted from the queue. *)
Record bfs_inv (nodes : JsMap.t TreeNode.t) (fromNodeId toNodeId : string)
    (d : string → nat) (queue : list TreeUtils.QueueItem)
    (visited : gset string) : Prop := mkInv
  { inv_walk : ∀ v p, (v, p) ∈ queue → walk nodes fromNodeId v p;
    inv_sorted : StronglySorted le (map (fun item => length item.2) queue);
    inv_close : ∀ item1 item2, item1 ∈ queue → item2 ∈ queue →
                               (length item2.2 <= length item1.2 + 1)%nat;
    inv_level : ∀ v item, v ∈ visited → item ∈ queue →
                          (d v <= length item.2)%nat;
    inv_children :
      ∀ v node c, v ∈ visited → JsMap.get nodes v = Some node →
                  c ∈ TreeNode.children node →
                  (c ∈ visited ∧ (d c <= d v + 1)%nat)
                  ∨ (∃ p, (c, p) ∈ queue ∧ (length p <= d v + 1)%nat);
    inv_from :
      (fromNodeId ∈ visited ∧ (d fromNodeId <= 1)%nat)
      ∨ (∃ p, (fromNodeId, p) ∈ queue ∧ (length p <= 1)%nat);
    inv_to : toNodeId ∉ visited }.

(** The entries not yet visited bound the pushes still to come. *)
Definition weight (visited : gset string) (entries : JsMap.t TreeNode.t) : nat :=
  sum_list (map (fun entry => length (TreeNode.children entry.2))
                (List.filter (fun entry => negb (bool_decide (entry.1 ∈ visited)))
                             entries)).

(** [b] is a non-empty string target of an action of the record [a], and
    names a record of the collection. *)
Definition raw_link (nodes : JsMap.t Raw.Node) (a b : string) : Prop :=
  ∃ rawNode action,
    JsMap.get nodes a = Some rawNode ∧
    action ∈ default [] (Raw.actions rawNode) ∧
    Raw.node action = StrTarget b ∧ b ≠ "" ∧
    is_Some (JsMap.get nodes b).

(** [k] is a non-empty string target of some action of the collection. *)
Definition referenced (nodes : JsMap.t Raw.Node) (k : string) : Prop :=
  ∃ entry action,
    entry ∈ nodes ∧ action ∈ default [] (Raw.actions entry.2) ∧
    Raw.node action = StrTarget k ∧ k ≠ "".

(** The string targets of a list of tree-node actions, in action order. *)
Definition string_targets (actions : list NodeAction.t) : list string :=
  flat_map (fun action =>
              match NodeAction.node action with
              | StrTarget s => [s]
              | _ => []
              end)
           actions.

(** The keys of the entries whose node passes a test, in entry order. *)
Definition ids_where (test : TreeNode.t → bool) (nodes : JsMap.t TreeNode.t)
    : list string :=
  map fst (List.filter (fun entry => test entry.2) nodes).

(** What a lookup finds under a group's key: nothing for an empty group. *)
Definition group_found (ids : list string) : option (list string) :=
  match ids with
  | [] => None
  | _ => Some ids
  end.

(** The conditions [validateTree] checks: the root is a node; a truthy
    [parentId] names a node one level up; every child names a node; every
    truthy action target is a string naming a node. *)
Definition well_linked (tree : OptimizedTree.t) : Prop :=
  let nodes := OptimizedTree.nodes tree in
  JsMap.has nodes (OptimizedTree.root tree) = true ∧
  Forall (fun entry =>
            (∀ q, TreeOptimizer.truthy_id (TreeNode.parentId entry.2) = Some q →
                  ∃ parent, JsMap.get nodes q = Some parent ∧
                            TreeNode.depth parent + 1 = TreeNode.depth entry.2) ∧
            Forall (fun c => JsMap.has nodes c = true) (TreeNode.children entry.2) ∧
            Forall (fun a => truthy (NodeAction.node a) = true →
                             TreeOptimizer.has_target nodes (NodeAction.node a) = true)
                   (TreeNode.actions entry.2))
         nodes.

(** [traverse] goes from [a] to [b]: [a] is a cached node not flagged
    terminal and [b] is one of its children. *)
Definition expands (cache : JsMap.t TreeNode.t) (a b : string) : Prop :=
  ∃ node, JsMap.get cache a = Some node ∧ TreeNode.isTerminal node = false ∧
          b ∈ TreeNode.children node.

(** [k] is a cached node flagged terminal. *)
Definition terminal_at (cache : JsMap.t TreeNode.t) (k : string) : Prop :=
  ∃ node, JsMap.get cache k = Some node ∧ TreeNode.isTerminal node = true.

(** What traversing the identifiers [roots] does to [visited] and
    [terminals]. *)
Definition traversed (cache : JsMap.t TreeNode.t) (roots : list string)
    (before after : gset string * list string) : Prop :=
  ∃ new,
    after.2 = (before.2 ++ new)%list ∧
    before.1 ⊆ after.1 ∧
    (∀ c, c ∈ roots → c ∈ after.1) ∧
    NoDup new ∧
    (∀ k, k ∈ new → k ∈ after.1 ∧ (k ∉ before.1) ∧ terminal_at cache k) ∧
    (∀ v, v ∈ after.1 → v ∉ before.1 →
          (∃ c, c ∈ roots ∧ rtc (expands cache) c v) ∧
          (terminal_at cache v → v ∈ new) ∧
          (∀ b, expands cache v b → b ∈ after.1)).

(** The cached identifiers not yet visited. *)
Definition unvisited (cache : JsMap.t TreeNode.t) (visited : gset string) : nat :=
  length (filter (fun k => k ∉ visited) (JsMap.keys cache)).

(** Some identifier other than [toId] that a path along child links from
    [fromId] ends at is no key of [nodes] and names a member of
    [Object.prototype]. *)
Definition reaches_inherited (nodes : JsMap.t TreeNode.t)
    (fromId toId : string) : Prop :=
  ∃ v path, child_path nodes fromId v path ∧ v ≠ toId ∧
            JsObject.read nodes v = JsObject.Inherited.

(** Every entry of every [children] list is a key. *)
Definition children_closed (nodes : JsMap.t TreeNode.t) : bool :=
  forallb (fun entry => forallb (JsMap.has nodes) (TreeNode.children entry.2))
          nodes.

(** The entries that assignments [obj[key] = value] to a fresh object
    turn into own entries: all but the one under "__proto__". *)
Definition assigned {V : Type} (entries : JsMap.t V) : JsMap.t V :=
  List.filter (fun entry => negb (bool_decide (entry.1 = "__proto__")))
              entries.

(** Every depth is a safe integer, so that adding one to it is exact in
    binary64. *)
Definition safe_depths (nodes : JsMap.t TreeNode.t) : Prop :=
  Forall (fun entry => - 2 ^ 53 < TreeNode.depth entry.2 < 2 ^ 53) nodes.

(** The archive entry [file] is a node file whose identifier is [k]. *)
Definition file_for (k : string) (file : string * Raw.Node) : bool :=
  is_node_path file.1 && bool_decide (node_id_of file.1 = k).

(** ** Example collections and trees *)

Module Examples.

Definition raw (sequence : option (list ActionSequence.t))
    (targets : list (string * Target)) : Raw.Node :=
  {| Raw.sequence := sequence;
     Raw.actions :=
       Some (map (fun a => {| Raw.type := a.1; Raw.amount := None;
                              Raw.node := a.2 |}) targets);
     Raw.player := None; Raw.street := None; Raw.hands := None |}.

Definition call : ActionSequence.t :=
  {| ActionSequence.player := 0; ActionSequence.type := "C";
     ActionSequence.amount := 0; ActionSequence.street := 0 |}.

(** A well-formed three-node collection: "0" leads to "1" and "2". *)
Definition small : JsMap.t Raw.Node :=
  [("0", raw (Some []) [("C", StrTarget "1"); ("F", StrTarget "2")]);
   ("1", raw (Some [call]) [("F", NoTarget)]);
   ("2", raw (Some [call]) [])].

(** The root's only action names a record that is not in the collection. *)
Definition dangling : JsMap.t Raw.Node :=
  [("0", raw (Some []) [("C", StrTarget "1")])].

(** The record named "0" has a non-empty sequence and comes first. *)
Definition zero_first : JsMap.t Raw.Node :=
  [("0", raw (Some [call]) [("C", StrTarget "a")]);
   ("a", raw (Some []) [])].

(** A diamond: "3" is the target of an action of "1" and of "2". *)
Definition diamond : JsMap.t Raw.Node :=
  [("0", raw (Some []) [("C", StrTarget "1"); ("R", StrTarget "2")]);
   ("1", raw (Some [call]) [("C", StrTarget "3")]);
   ("2", raw (Some [call]) [("C", StrTarget "3")]);
   ("3", raw (Some [call; call]) [("F", NoTarget)])].

Definition leaf (id : string) : TreeNode.t :=
  {| TreeNode.id := id; TreeNode.parentId := None; TreeNode.player := 0;
     TreeNode.street := 0; TreeNode.sequence := []; TreeNode.actions := [];
     TreeNode.children := []; TreeNode.depth := 0; TreeNode.path := "Root";
     TreeNode.isTerminal := true; TreeNode.hasHandData := false |}.

Definition tree_of (nodes : JsMap.t TreeNode.t) (root : string)
    : OptimizedTree.t :=
  {| OptimizedTree.nodes := nodes;
     OptimizedTree.root := root;
     OptimizedTree.maxDepth := Number.of_Z 0;
     OptimizedTree.playerCount := 3;
     OptimizedTree.metadata :=
       {| TreeMetadata.totalNodes := length nodes;
          TreeMetadata.terminalNodes := 0;
          TreeMetadata.generatedAt := "";
          TreeMetadata.version := "1.0.0" |} |}.

(** The tree of a single root. *)
Definition single : OptimizedTree.t := tree_of [("0", leaf "0")] "0".

(** A chain: "0" calls to reach "A", "A" raises 500 to reach "B". *)
Definition chain : JsMap.t Raw.Node :=
  [("0", {| Raw.sequence := Some [];
            Raw.actions := Some [{| Raw.type := "C"; Raw.amount := Some 0;
                                    Raw.node := StrTarget "A" |}];
            Raw.player := Some 0; Raw.street := None; Raw.hands := None |});
   ("A", {| Raw.sequence := Some [call];
            Raw.actions := Some [{| Raw.type := "R"; Raw.amount := Some 500;
                                    Raw.node := StrTarget "B" |}];
            Raw.player := Some 1; Raw.street := None; Raw.hands := None |});
   ("B", {| Raw.sequence := Some [call; call];
            Raw.actions := None;
            Raw.player := Some 0; Raw.street := None; Raw.hands := Some 2%nat |})].

(** Two records that name each other; neither has an empty sequence or
    the name "0". *)
Definition cyclic : JsMap.t Raw.Node :=
  [("a", raw (Some [call]) [("C", StrTarget "b")]);
   ("b", raw (Some [call]) [("C", StrTarget "a")])].

(** The tree [generateTree] returns for a collection. *)
Definition tree_from (nodes : JsMap.t Raw.Node) : OptimizedTree.t :=
  match TreeGenerator.generateTree nodes None "" with
  | Some (Returned t) => t
  | _ => single
  end.

(** A hand-written tree, keys out of enumeration order, whose node "0"
    has an action with the falsy target 0. *)
Definition zero_target_tree : OptimizedTree.t :=
  tree_of [("b", leaf "b");
           ("0", {| TreeNode.id := "0"; TreeNode.parentId := None;
                    TreeNode.player := 0; TreeNode.street := 0;
                    TreeNode.sequence := [];
                    TreeNode.actions :=
                      [{| NodeAction.type := "C"; NodeAction.amount := 0;
                          NodeAction.node := NumTarget 0 |}];
                    TreeNode.children := ["b"]; TreeNode.depth := 0;
                    TreeNode.path := "Root"; TreeNode.isTerminal := false;
                    TreeNode.hasHandData := false |})]
          "0".

(** The root's first action names "toString", which is no record; its
    second names the record "b". *)
Definition shadowed : JsMap.t Raw.Node :=
  [("0", raw (Some []) [("C", StrTarget "toString"); ("F", StrTarget "b")]);
   ("b", raw (Some [call]) [])].

(** A valid hand-written tree whose second node is named "__proto__". *)
Definition proto_tree : OptimizedTree.t :=
  tree_of [("0", {| TreeNode.id := "0"; TreeNode.parentId := None;
                    TreeNode.player := 0; TreeNode.street := 0;
                    TreeNode.sequence := [];
                    TreeNode.actions :=
                      [{| NodeAction.type := "C"; NodeAction.amount := 0;
                          NodeAction.node := StrTarget "__proto__" |}];
                    TreeNode.children := ["__proto__"]; TreeNode.depth := 0;
                    TreeNode.path := "Root"; TreeNode.isTerminal := false;
                    TreeNode.hasHandData := false |});
           ("__proto__",
            {| TreeNode.id := "__proto__"; TreeNode.parentId := Some "0";
               TreeNode.player := 0; TreeNode.street := 0;
               TreeNode.sequence := [call]; TreeNode.actions := [];
               TreeNode.children := []; TreeNode.depth := 1;
               TreeNode.path := "SB: Call"; TreeNode.isTerminal := true;
               TreeNode.hasHandData := false |})]
          "0".

(** 101 pairwise distinct keys. *)
Definition keys101 : list string :=
  map (fun n => String (ascii_of_nat n) "") (seq 0 101).

End Examples.

(** * Properties *)

(** ** PathFormatter *)

(** C9: [formatAmount] gives "2K" for 1500, "2.5M" for 2500000 and "50"
    for 50; the label of a raise is "Raise" at amount 0 and "Raise 200" at
    amount 200, the label of a fold is "Fold", in the navigator's
    [formatActionLabel] and in the generator's [getActionName] alike. *)
Theorem format_examples :
  formatAmount 1500 = "2K" ∧
  formatAmount 2500000 = "2.5M" ∧
  formatAmount 50 = "50" ∧
  formatActionLabel "R" 0 = "Raise" ∧
  formatActionLabel "R" 200 = "Raise 200" ∧
  formatActionLabel "F" 0 = "Fold" ∧
  getActionName "R" 0 = "Raise" ∧
  getActionName "R" 200 = "Raise 200" ∧
  getActionName "F" 0 = "Fold".
Proof.
  repeat split; vm_compute; reflexivity.
Qed.

(** 1500 / 1000 is exactly 1.5, halfway between 1 and 2: [toFixed] takes
    the larger neighbour. *)
Lemma toFixed_half_up :
  Number.toFixed (Number.div (Number.of_Z 1500) (Number.of_Z 1000)) 0 = "2" ∧
  Number.toFixed (Number.div (Number.of_Z 2500) (Number.of_Z 1000)) 0 = "3".
Proof. split; vm_compute; reflexivity. Qed.

(** ** JsMap lemmas *)

Section JsMapFacts.
Context {V : Type}.
Implicit Types (m : JsMap.t V) (k : string) (v : V).

Lemma get_Some_elem m k v : JsMap.get m k = Some v → (k, v) ∈ m.
Proof.
  induction m as [|[k' v'] m IH]; simpl; [done|].
  case_bool_decide; subst.
  - intros [= ->]. left.
  - intros. right. auto.
Qed.

Lemma get_None_keys m k : JsMap.get m k = None ↔ k ∉ JsMap.keys m.
Proof.
  unfold JsMap.keys.
  induction m as [|[k' v'] m IH]; simpl.
  - split; [intros _; apply not_elem_of_nil | done].
  - rewrite not_elem_of_cons. case_bool_decide; subst.
    + split; [done | intros [? _]; done].
    + rewrite IH. split; [by auto | by intros [_ ?]].
Qed.

Lemma get_is_Some_keys m k : is_Some (JsMap.get m k) ↔ k ∈ JsMap.keys m.
Proof.
  destruct (JsMap.get m k) eqn:E.
  - split; [|eauto]. intros _.
    apply get_Some_elem in E. unfold JsMap.keys.
    apply list_elem_of_fmap. exists (k, v). done.
  - apply get_None_keys in E. split; [intros [? ?]; done | done].
Qed.

Lemma has_true m k : JsMap.has m k = true ↔ k ∈ JsMap.keys m.
Proof.
  rewrite <- get_is_Some_keys. unfold JsMap.has.
  destruct (JsMap.get m k); split; eauto; try done.
Qed.

Lemma has_false m k : JsMap.has m k = false ↔ k ∉ JsMap.keys m.
Proof.
  rewrite <- has_true. destruct (JsMap.has m k); intuition congruence.
Qed.

Lemma elem_get m k v :
  NoDup (JsMap.keys m) → (k, v) ∈ m → JsMap.get m k = Some v.
Proof.
  unfold JsMap.keys.
  induction m as [|[k' v'] m IH]; simpl; intros Hnd Hin.
  - by apply elem_of_nil in Hin.
  - apply NoDup_cons in Hnd as [Hk Hnd].
    apply elem_of_cons in Hin as [[= -> ->]|Hin].
    + by rewrite bool_decide_eq_true_2.
    + case_bool_decide; subst; [|auto].
      exfalso. apply Hk. apply list_elem_of_fmap. by exists (k, v).
Qed.

Lemma set_fresh m k v : k ∉ JsMap.keys m → JsMap.set m k v = (m ++ [(k, v)])%list.
Proof.
  unfold JsMap.keys.
  induction m as [|[k' v'] m IH]; simpl; [done|].
  rewrite not_elem_of_cons. intros [Hne Hk].
  rewrite bool_decide_eq_false_2 by done. by rewrite IH.
Qed.

Lemma set_elem m k v k0 v0 :
  (k0, v0) ∈ JsMap.set m k v → (k0, v0) ∈ m ∨ (k0, v0) = (k, v).
Proof.
  induction m as [|[k' v'] m IH]; simpl.
  - intros ?%list_elem_of_singleton. by right.
  - case_bool_decide; subst.
    + intros [->|?]%elem_of_cons; [by right | left; by right].
    + intros [->|?]%elem_of_cons; [left; by left|].
      destruct IH as [?|?]; auto. left; by right.
Qed.

Lemma keys_app m1 m2 : JsMap.keys (m1 ++ m2)%list = (JsMap.keys m1 ++ JsMap.keys m2)%list.
Proof. unfold JsMap.keys. apply fmap_app. Qed.

Lemma read_Own m k v : JsMap.get m k = Some v → JsObject.read m k = JsObject.Own v.
Proof. unfold JsObject.read. by intros ->. Qed.

Lemma read_Own_get m k v : JsObject.read m k = JsObject.Own v ↔ JsMap.get m k = Some v.
Proof.
  unfold JsObject.read. destruct (JsMap.get m k); [|by case_bool_decide].
  split; by intros [= ->].
Qed.

Lemma read_Inherited m k :
  JsObject.read m k = JsObject.Inherited ↔
  JsMap.get m k = None ∧ k ∈ JsObject.prototype_members.
Proof.
  unfold JsObject.read. destruct (JsMap.get m k); [by split; [|intros [? _]]|].
  case_bool_decide; split; try done; by intros [_ ?].
Qed.

Lemma read_Absent m k :
  JsObject.read m k = JsObject.Absent ↔
  JsMap.get m k = None ∧ k ∉ JsObject.prototype_members.
Proof.
  unfold JsObject.read. destruct (JsMap.get m k); [by split; [|intros [? _]]|].
  case_bool_decide; split; try done; by intros [_ ?].
Qed.
End JsMapFacts.

(** ** Navigator statistics *)

Lemma buildCache_elem (tree : OptimizedTree.t) k n :
  (k, n) ∈ TreeNavigator.buildCache tree → (k, n) ∈ OptimizedTree.nodes tree.
Proof.
  unfold TreeNavigator.buildCache.
  assert (∀ l (m : JsMap.t TreeNode.t),
    (k, n) ∈ fold_left (fun cache entry => JsMap.set cache entry.1 entry.2) l m →
    (k, n) ∈ m ∨ (k, n) ∈ l) as H.
  { induction l as [|[k' v'] l IH]; simpl; intros m Hin; [by left|].
    apply IH in Hin as [Hin|Hin]; [|right; by right].
    apply set_elem in Hin as [?|[= -> ->]]; [by left | right; left]. }
  intros Hin. apply H in Hin as [Hin|Hin]; [|done].
  by apply elem_of_nil in Hin.
Qed.

Lemma branchingFactors_all_terminal (nodes : list TreeNode.t) :
  Forall (fun n => TreeNode.isTerminal n = true) nodes →
  TreeOptimizer.branchingFactors nodes = [].
Proof.
  unfold TreeOptimizer.branchingFactors.
  induction 1 as [|n nodes Hn _ IH]; simpl; [done|].
  by rewrite Hn.
Qed.

(** ** BoundedCache *)


Lemma last_n_app {A : Type} (n : nat) (a b : list A) :
  last_n n (last_n n a ++ b)%list = last_n n (a ++ b)%list.
Proof.
  unfold last_n.
  destruct (decide (length a <= n)%nat) as [Hle|Hgt].
  - replace (length a - n)%nat with 0%nat by lia. done.
  - rewrite !length_app, length_drop.
    replace (length a - (length a - n) + length b - n)%nat
      with (length b) by lia.
    replace (length a + length b - n)%nat
      with ((length a - n) + length b)%nat by lia.
    rewrite <- drop_drop.
    rewrite (drop_app_le a b (length a - n)) by lia.
    done.
Qed.

Section CacheFacts.
Context {V : Type}.
Implicit Types (cache : JsMap.t V) (calls : list (@TreeCache.Call V)).

Lemma cache_set_keys cache key value :
  key ∉ JsMap.keys cache →
  (length (JsMap.keys cache) <= TreeCache.maxSize)%nat →
  JsMap.keys (TreeCache.set cache key value)
  = last_n TreeCache.maxSize (JsMap.keys cache ++ [key])%list.
Proof.
  intros Hfresh Hlen. unfold TreeCache.set, JsMap.size, last_n.
  assert (length (JsMap.keys cache) = length cache) as Hk
    by apply length_fmap.
  rewrite length_app. simpl.
  case_bool_decide as Hfull.
  - destruct cache as [|[k0 v0] cache']; simpl in *.
    + unfold TreeCache.maxSize in Hfull. lia.
    + rewrite bool_decide_eq_true_2 by done.
      apply not_elem_of_cons in Hfresh as [_ Hfresh].
      rewrite set_fresh by done. rewrite keys_app. simpl.
      unfold TreeCache.maxSize in *.
      replace (length (JsMap.keys cache') + 1 - 99)%nat with 1%nat by lia.
      done.
  - rewrite set_fresh by done. rewrite keys_app. simpl.
    replace (length (JsMap.keys cache) + 1 - TreeCache.maxSize)%nat
      with 0%nat by lia.
    done.
Qed.

Lemma last_n_length {A : Type} (n : nat) (l : list A) :
  (length (last_n n l) <= n)%nat.
Proof. unfold last_n. rewrite length_drop. lia. Qed.

(** After any sequence of calls whose [set] keys are new and pairwise
    distinct, the cache holds the last [maxSize] keys set, in order. *)
Lemma cache_run_keys calls cache :
  NoDup (JsMap.keys cache ++ TreeCache.set_keys calls)%list →
  (length (JsMap.keys cache) <= TreeCache.maxSize)%nat →
  JsMap.keys (TreeCache.run calls cache)
  = last_n TreeCache.maxSize
      (JsMap.keys cache ++ TreeCache.set_keys calls)%list.
Proof.
  revert cache.
  induction calls as [|[key value|key] calls IH]; intros cache Hnd Hlen.
  - cbn [TreeCache.run fold_left TreeCache.set_keys flat_map].
    rewrite app_nil_r. unfold last_n.
    replace (length (JsMap.keys cache) - TreeCache.maxSize)%nat
      with 0%nat by lia.
    done.
  - change (TreeCache.run (TreeCache.CallSet key value :: calls) cache)
      with (TreeCache.run calls (TreeCache.set cache key value)).
    change (TreeCache.set_keys (TreeCache.CallSet key value :: calls))
      with (key :: TreeCache.set_keys calls) in *.
    assert (key ∉ JsMap.keys cache) as Hfresh.
    { apply NoDup_app in Hnd as (_ & Hdisj & _).
      intros Hin. apply (Hdisj key Hin). left. }
    pose proof (cache_set_keys cache key value Hfresh Hlen) as Hset.
    replace (JsMap.keys cache ++ key :: TreeCache.set_keys calls)%list
      with ((JsMap.keys cache ++ [key]) ++ TreeCache.set_keys calls)%list
      in * by (by rewrite <- app_assoc).
    rewrite IH.
    + by rewrite Hset, last_n_app.
    + rewrite Hset.
      apply NoDup_app in Hnd as (Hnd1 & Hdisj & Hnd2).
      apply NoDup_app. split; [|split; [|done]].
      * unfold last_n. eapply sublist_NoDup; [exact Hnd1 | apply sublist_drop].
      * intros x Hx. apply Hdisj. unfold last_n in Hx.
        eapply elem_of_sublist; [exact Hx | apply sublist_drop].
    + rewrite Hset. apply last_n_length.
  - change (TreeCache.run (TreeCache.CallGet key :: calls) cache)
      with (TreeCache.run calls cache).
    change (TreeCache.set_keys (TreeCache.CallGet key :: calls))
      with (TreeCache.set_keys calls) in *.
    by apply IH.
Qed.
End CacheFacts.

(** C7: start from the empty cache and make any sequence of [set] and
    [get] calls in which exactly 101 [set] calls occur, on pairwise
    distinct keys.  Afterwards the key of the first [set] is gone and the
    other 100 keys are all present, wherever the [get] calls are placed
    and whatever they read. *)
Theorem cache_evicts_first_inserted {V : Type}
    (calls : list (@TreeCache.Call V)) (first : string) (rest : list string) :
  TreeCache.set_keys calls = first :: rest →
  NoDup (first :: rest) →
  length (first :: rest) = 101%nat →
  TreeCache.has (TreeCache.run calls []) first = false ∧
  Forall (fun key => TreeCache.has (TreeCache.run calls []) key = true) rest.
Proof.
  intros Hkeys Hnd Hlen.
  assert (JsMap.keys (TreeCache.run calls []) = rest) as Hrun.
  { rewrite cache_run_keys; simpl.
    - rewrite Hkeys. unfold last_n. rewrite Hlen. done.
    - by rewrite Hkeys.
    - unfold TreeCache.maxSize. lia. }
  unfold TreeCache.has. split.
  - apply has_false. rewrite Hrun. by apply NoDup_cons in Hnd as [? _].
  - apply Forall_forall. intros key Hin. apply has_true. by rewrite Hrun.
Qed.

Lemma cache_evicts_first_inserted_witness :
  let calls :=
    flat_map (fun key => [TreeCache.CallSet key 0%nat; TreeCache.CallGet "a";
                          TreeCache.CallGet (String (ascii_of_nat 0) "")])
             Examples.keys101 in
  TreeCache.has (TreeCache.run calls []) (String (ascii_of_nat 0) "") = false ∧
  TreeCache.has (TreeCache.run calls []) (String (ascii_of_nat 100) "") = true.
Proof.
  intros calls.
  assert (TreeCache.set_keys calls
          = String (ascii_of_nat 0) "" :: tail Examples.keys101) as Hkeys
    by (vm_compute; reflexivity).
  assert (NoDup (String (ascii_of_nat 0) "" :: tail Examples.keys101)) as Hnd
    by (apply (bool_decide_unpack _); vm_compute; exact I).
  assert (length (String (ascii_of_nat 0) "" :: tail Examples.keys101) = 101%nat)
    as Hlen by (vm_compute; reflexivity).
  destruct (cache_evicts_first_inserted calls _ _ Hkeys Hnd Hlen) as [H1 H2].
  split; [exact H1|].
  rewrite Forall_forall in H2. apply H2.
  apply (bool_decide_unpack _). vm_compute. exact I.
Defined.

(** ** RootResolver *)

Lemma find_split {A : Type} (f : A → bool) (l : list A) (x : A) :
  List.find f l = Some x →
  ∃ pre post, l = (pre ++ x :: post)%list ∧ f x = true ∧
              Forall (fun y => f y = false) pre.
Proof.
  induction l as [|a l IH]; simpl; [done|].
  destruct (f a) eqn:Ha.
  - intros [= ->]. exists [], l. auto.
  - intros (pre & post & -> & Hx & Hpre)%IH.
    exists (a :: pre), post. auto.
Qed.

Lemma find_None_Forall {A : Type} (f : A → bool) (l : list A) :
  List.find f l = None → Forall (fun y => f y = false) l.
Proof.
  induction l as [|a l IH]; simpl; [constructor|].
  destruct (f a) eqn:Ha; [done|]. auto.
Qed.

Lemma is_root_candidate_true entry :
  is_root_candidate entry = true ↔
  Raw.sequence entry.2 = Some [] ∨ entry.1 = "0".
Proof.
  unfold is_root_candidate. rewrite orb_true_iff, bool_decide_eq_true.
  destruct (Raw.sequence entry.2) as [[|]|]; simpl; intuition congruence.
Qed.

Lemma is_root_candidate_false entry :
  is_root_candidate entry = false ↔
  Raw.sequence entry.2 ≠ Some [] ∧ entry.1 ≠ "0".
Proof.
  rewrite <- not_true_iff_false, is_root_candidate_true. tauto.
Qed.

(** Counterexample to C2: the record named "0" comes first and has a
    non-empty sequence, a later record has an empty one, and "0" is
    returned. *)
Lemma findRootNode_zero_before_empty_sequence :
  (∃ k raw, (k, raw) ∈ Examples.zero_first ∧ Raw.sequence raw = Some []) ∧
  findRootNode Examples.zero_first = Returned "0" ∧
  (Raw.sequence <$> JsMap.get Examples.zero_first "0") ≠ Some (Some []).
Proof.
  split; [|split].
  - eexists "a", _. split; [right; left | reflexivity].
  - reflexivity.
  - vm_compute. discriminate.
Qed.

(** C2, amended: when some record has an empty sequence, [findRootNode]
    returns the first record, in iteration order, whose sequence is empty
    or whose identifier is "0": no record before it has either mark. *)
Theorem findRootNode_first_candidate (nodes : JsMap.t Raw.Node) :
  (∃ k raw, (k, raw) ∈ nodes ∧ Raw.sequence raw = Some []) →
  ∃ pre k raw post,
    nodes = (pre ++ (k, raw) :: post)%list ∧
    findRootNode nodes = Returned k ∧
    (Raw.sequence raw = Some [] ∨ k = "0") ∧
    Forall (fun entry => Raw.sequence entry.2 ≠ Some [] ∧ entry.1 ≠ "0") pre.
Proof.
  intros (k0 & raw0 & Hin & Hseq).
  unfold findRootNode.
  destruct (List.find is_root_candidate nodes) as [[k raw]|] eqn:Hfind.
  - apply find_split in Hfind as (pre & post & -> & Hc & Hpre).
    exists pre, k, raw, post. split; [done|]. split; [done|].
    split; [by apply is_root_candidate_true in Hc|].
    eapply Forall_impl; [exact Hpre|].
    intros entry. apply is_root_candidate_false.
  - exfalso. apply find_None_Forall in Hfind.
    rewrite Forall_forall in Hfind. specialize (Hfind _ Hin).
    apply is_root_candidate_false in Hfind as [Hne _]. done.
Qed.

Lemma findRootNode_first_candidate_witness :
  (∃ k raw, (k, raw) ∈ Examples.zero_first ∧ Raw.sequence raw = Some []) ∧
  ∃ pre k raw post,
    Examples.zero_first = (pre ++ (k, raw) :: post)%list ∧
    findRootNode Examples.zero_first = Returned k ∧
    (Raw.sequence raw = Some [] ∨ k = "0") ∧
    Forall (fun entry => Raw.sequence entry.2 ≠ Some [] ∧ entry.1 ≠ "0") pre.
Proof.
  assert (∃ k raw, (k, raw) ∈ Examples.zero_first ∧ Raw.sequence raw = Some [])
    as H by (eexists "a", _; split; [right; left | reflexivity]).
  split; [exact H|].
  exact (findRootNode_first_candidate Examples.zero_first H).
Defined.

(** ** TreeBuilder: what a traversal adds to [processedNodes] *)

Section BuildFacts.
Variable nodes : JsMap.t Raw.Node.
Implicit Types (p new : JsMap.t TreeNode.t) (entry : string * TreeNode.t).


Lemma linked_mono new new' entry :
  new ⊆ new' → linked new entry → linked new' entry.
Proof.
  intros Hsub (q & pn & ? & ? & ? & ?). exists q, pn. auto.
Qed.

Lemma grows_nil par d p : grows nodes [] par d p p.
Proof.
  exists []. rewrite app_nil_r.
  repeat split; try done; try constructor.
  - intros k Hk. by apply elem_of_nil in Hk.
  - intros c Hc. by apply elem_of_nil in Hc.
  - intros entry c Hc. by apply elem_of_nil in Hc.
Qed.

Lemma grows_skip id par d p :
  JsMap.get nodes id = None ∨ id ∈ JsMap.keys p → grows nodes [id] par d p p.
Proof.
  intros Hskip. exists []. rewrite app_nil_r.
  repeat split; try done; try constructor.
  - intros k Hk. by apply elem_of_nil in Hk.
  - intros c ->%list_elem_of_singleton [raw Hraw].
    destruct Hskip as [Hnone|Hin]; [congruence | done].
  - intros entry c Hc. by apply elem_of_nil in Hc.
Qed.

Lemma grows_keys_mono roots par d p p' k :
  grows nodes roots par d p p' → k ∈ JsMap.keys p → k ∈ JsMap.keys p'.
Proof.
  intros (new & -> & _) Hk. rewrite keys_app. apply elem_of_app. by left.
Qed.

Lemma grows_cons c cs par d p p1 p2 :
  grows nodes [c] par d p p1 → grows nodes cs par d p1 p2 → grows nodes (c :: cs) par d p p2.
Proof.
  intros (new1 & -> & Hnd1 & Hfr1 & Hall1 & Hroot1 & Hcl1)
         (new2 & -> & Hnd2 & Hfr2 & Hall2 & Hroot2 & Hcl2).
  exists (new1 ++ new2)%list.
  split; [by rewrite app_assoc|].
  split.
  { rewrite keys_app. apply NoDup_app. split; [done|]. split; [|done].
    intros k Hk1 Hk2. apply (Hfr2 k Hk2).
    rewrite keys_app. apply elem_of_app. by right. }
  split.
  { intros k. rewrite keys_app. intros [Hk|Hk]%elem_of_app; [by apply Hfr1|].
    intros Hp. apply (Hfr2 k Hk). rewrite keys_app. apply elem_of_app.
    by left. }
  split.
  { apply Forall_app. split.
    - eapply Forall_impl; [exact Hall1|]. intros entry (Hok & Hd & Hcase).
      split; [done|]. split; [done|].
      destruct Hcase as [(Hin & ? & ?)|Hl].
      + left. apply list_elem_of_singleton in Hin. subst.
        split; [left | done].
      + right. eapply linked_mono; [|exact Hl].
        intros x Hx. apply elem_of_app. by left.
    - eapply Forall_impl; [exact Hall2|]. intros entry (Hok & Hd & Hcase).
      split; [done|]. split; [done|].
      destruct Hcase as [(Hin & ? & ?)|Hl].
      + left. split; [by right | done].
      + right. eapply linked_mono; [|exact Hl].
        intros x Hx. apply elem_of_app. by right. }
  split.
  { intros c' [->|Hc']%elem_of_cons Hsome.
    - rewrite keys_app. apply elem_of_app. left.
      apply Hroot1; [left | done].
    - by apply Hroot2. }
  intros entry c' [Hin|Hin]%elem_of_app Hc' Hsome.
  - rewrite keys_app. apply elem_of_app. left.
    by eapply Hcl1.
  - by eapply Hcl2.
Qed.

Lemma grows_node id par d rawNode p p' :
  JsMap.get nodes id = Some rawNode →
  id ∉ JsMap.keys p →
  grows nodes (TreeNode.children (make_node id par d rawNode)) (Some id) (d + 1)
        (p ++ [(id, make_node id par d rawNode)])%list p' →
  grows nodes [id] par d p p'.
Proof.
  intros Hraw Hfresh (new & -> & Hnd & Hfr & Hall & Hroot & Hcl).
  set (node := make_node id par d rawNode) in *.
  exists ((id, node) :: new).
  split; [by rewrite <- app_assoc|].
  split.
  { unfold JsMap.keys. simpl. apply NoDup_cons. split; [|done].
    intros Hin. apply (Hfr id Hin). rewrite keys_app.
    apply elem_of_app. right. left. }
  split.
  { intros k [->|Hk]%elem_of_cons; [done|].
    intros Hp. apply (Hfr k Hk). rewrite keys_app. apply elem_of_app.
    by left. }
  split.
  { constructor.
    - split; [by exists rawNode, par, d|]. split; [simpl; lia|].
      left. split; [left | done].
    - eapply Forall_impl; [exact Hall|]. intros entry (Hok & Hd & Hcase).
      split; [done|]. split; [lia|]. right.
      destruct Hcase as [(Hin & Hpar & Hdepth)|Hl].
      + exists id, node. split; [done|]. split; [left|]. split; [done|].
        by rewrite Hdepth.
      + eapply linked_mono; [|exact Hl]. intros x Hx. by right. }
  split.
  { intros c ->%list_elem_of_singleton _.
    rewrite <- app_assoc, keys_app. apply elem_of_app. right. left. }
  intros entry c [->|Hin]%elem_of_cons Hc Hsome.
  - by apply Hroot.
  - by eapply Hcl.
Qed.

Lemma fold_bind_None {A B : Type} (f : B → A → option A) (l : list B) :
  fold_left (fun acc x => acc ≫= f x) l None = None.
Proof. induction l; simpl; auto. Qed.

(** Every completed call of [buildTreeStructure] grows nodes [processedNodes]
    in this way. *)
Lemma buildTreeStructure_grows fuel :
  ∀ id par d p p',
    buildTreeStructure fuel nodes id par d p = Some p' →
    grows nodes [id] par d p p'.
Proof.
  induction fuel as [|fuel IH]; intros id par d p p'; [done|].
  assert (∀ cs p0,
    fold_left (fun acc childId =>
                 acc ≫= buildTreeStructure fuel nodes childId (Some id) (d + 1))
              cs (Some p0) = Some p' →
    grows nodes cs (Some id) (d + 1) p0 p') as Hchildren.
  { induction cs as [|c cs IHcs]; intros p0; simpl.
    - intros [= <-]. apply grows_nil.
    - destruct (buildTreeStructure fuel nodes c (Some id) (d + 1) p0)
        as [p1|] eqn:Hcall.
      + intros Hrest. eapply grows_cons; [by apply IH | by apply IHcs].
      + by rewrite fold_bind_None. }
  cbn [buildTreeStructure].
  destruct (JsMap.get nodes id) as [rawNode|] eqn:Hraw.
  2:{ intros [= <-]. apply grows_skip. by left. }
  destruct (JsMap.has p id) eqn:Hhas.
  { intros [= <-]. apply grows_skip. right. by apply has_true. }
  apply has_false in Hhas.
  rewrite set_fresh by done.
  intros Hfold. eapply grows_node; [exact Hraw | exact Hhas |].
  by apply Hchildren.
Qed.
End BuildFacts.

(** ** TreeBuilder: the traversal ends *)

Lemma filter_length_le {A : Type} (P Q : A → Prop)
    `{∀ x, Decision (P x)} `{∀ x, Decision (Q x)} (l : list A) :
  (∀ x, P x → Q x) → (length (filter P l) <= length (filter Q l))%nat.
Proof.
  intros HPQ. induction l as [|a l IH]; [done|].
  rewrite !filter_cons.
  destruct (decide (P a)) as [HP|HP]; destruct (decide (Q a)) as [HQ|HQ];
    simpl; try lia.
  exfalso. auto.
Qed.

Lemma filter_length_lt {A : Type} (P Q : A → Prop)
    `{∀ x, Decision (P x)} `{∀ x, Decision (Q x)} (l : list A) (x0 : A) :
  (∀ x, P x → Q x) → x0 ∈ l → Q x0 → ¬ P x0 →
  (length (filter P l) < length (filter Q l))%nat.
Proof.
  intros HPQ Hin HQ0 HP0. induction l as [|a l IH].
  - by apply elem_of_nil in Hin.
  - rewrite !filter_cons.
    apply elem_of_cons in Hin as [<-|Hin].
    + rewrite decide_False by done. rewrite decide_True by done. simpl.
      pose proof (filter_length_le P Q l HPQ). lia.
    + specialize (IH Hin).
      destruct (decide (P a)) as [HP|HP]; destruct (decide (Q a)) as [HQ|HQ];
        simpl; try lia.
      exfalso. auto.
Qed.

Section BuildTermination.
Variable nodes : JsMap.t Raw.Node.
Implicit Types (p : JsMap.t TreeNode.t).


Lemma unprocessed_grows roots par d p p' :
  grows nodes roots par d p p' → (unprocessed nodes p' <= unprocessed nodes p)%nat.
Proof.
  intros Hg. apply filter_length_le. intros k Hk Hin. apply Hk.
  by eapply grows_keys_mono.
Qed.

Lemma unprocessed_set id node p :
  id ∈ JsMap.keys nodes → id ∉ JsMap.keys p →
  (unprocessed nodes (p ++ [(id, node)])%list < unprocessed nodes p)%nat.
Proof.
  intros Hin Hfresh. apply (filter_length_lt _ _ _ id); [|done|done|].
  - intros k Hk Hp. apply Hk. rewrite keys_app. apply elem_of_app. by left.
  - intros Hk. apply Hk. rewrite keys_app. apply elem_of_app. right. left.
Qed.

(** With more fuel than unprocessed nodes records the traversal completes. *)
Lemma buildTreeStructure_fuel fuel :
  ∀ id par d p,
    (unprocessed nodes p < fuel)%nat →
    is_Some (buildTreeStructure fuel nodes id par d p).
Proof.
  induction fuel as [|fuel IH]; intros id par d p Hfuel; [lia|].
  cbn [buildTreeStructure].
  destruct (JsMap.get nodes id) as [rawNode|] eqn:Hraw; [|eauto].
  destruct (JsMap.has p id) eqn:Hhas; [eauto|].
  apply has_false in Hhas. rewrite set_fresh by done.
  assert (id ∈ JsMap.keys nodes) as Hin
    by (apply get_is_Some_keys; eauto).
  pose proof (unprocessed_set id (make_node id par d rawNode) p Hin Hhas)
    as Hless.
  assert (unprocessed nodes (p ++ [(id, make_node id par d rawNode)])%list < fuel)%nat
    as Hfuel' by lia.
  revert Hfuel'. clear Hless.
  generalize (p ++ [(id, make_node id par d rawNode)])%list as p0.
  generalize (TreeNode.children (make_node id par d rawNode)) as cs.
  induction cs as [|c cs IHcs]; intros p0 Hp0; simpl; [eauto|].
  destruct (IH c (Some id) (d + 1) p0 Hp0) as [p1 Hcall].
  rewrite Hcall. simpl. apply IHcs.
  apply buildTreeStructure_grows in Hcall.
  apply unprocessed_grows in Hcall. lia.
Qed.

Lemma build_is_Some rootId : is_Some (build nodes rootId).
Proof.
  apply buildTreeStructure_fuel.
  unfold unprocessed.
  pose proof (length_filter (fun k => k ∉ JsMap.keys ([] : JsMap.t TreeNode.t))
                (JsMap.keys nodes)) as Hle.
  unfold JsMap.keys in *. rewrite length_fmap in Hle. lia.
Qed.
End BuildTermination.

(** ** Root resolution returns a record of the collection *)

Lemma findRootNode_key (nodes : JsMap.t Raw.Node) rootId :
  findRootNode nodes = Returned rootId → rootId ∈ JsMap.keys nodes.
Proof.
  unfold findRootNode.
  destruct (List.find is_root_candidate nodes) as [entry|] eqn:Hfind.
  - intros [= <-]. apply find_split in Hfind as (pre & post & -> & _).
    rewrite keys_app. apply elem_of_app. right. left.
  - destruct (List.find _ (JsMap.keys nodes)) as [k|] eqn:Hkey; [|done].
    intros [= <-]. apply find_split in Hkey as (pre & post & Heq & _).
    rewrite Heq. apply elem_of_app. right. left.
Qed.

(** [findRootNode] throws one error only. *)
Lemma findRootNode_thrown (nodes : JsMap.t Raw.Node) message :
  findRootNode nodes = Thrown message → message = "Could not find root node".
Proof.
  unfold findRootNode.
  destruct (List.find is_root_candidate nodes); [done|].
  destruct (List.find _ (JsMap.keys nodes)); [done|].
  by intros [= <-].
Qed.

(** ** Own-property order keeps the entries *)

Section FromEntries.
Context {V : Type}.
Implicit Types (m : JsMap.t V).

Lemma fromEntries_Permutation m : JsObject.fromEntries m ≡ₚ m.
Proof.
  unfold JsObject.fromEntries.
  rewrite merge_sort_Permutation. apply filter_app_complement.
Qed.

Lemma fromEntries_elem m entry : entry ∈ JsObject.fromEntries m ↔ entry ∈ m.
Proof. by rewrite fromEntries_Permutation. Qed.

Lemma fromEntries_keys m : JsMap.keys (JsObject.fromEntries m) ≡ₚ JsMap.keys m.
Proof. unfold JsMap.keys. by rewrite fromEntries_Permutation. Qed.

Lemma fromEntries_values m :
  JsMap.values (JsObject.fromEntries m) ≡ₚ JsMap.values m.
Proof. unfold JsMap.values. by rewrite fromEntries_Permutation. Qed.

Lemma fromEntries_get m k :
  NoDup (JsMap.keys m) →
  JsMap.get (JsObject.fromEntries m) k = JsMap.get m k.
Proof.
  intros Hnd.
  destruct (JsMap.get m k) as [v|] eqn:Hget.
  - apply elem_get.
    + by rewrite fromEntries_keys.
    + apply fromEntries_elem. by apply get_Some_elem.
  - apply get_None_keys. rewrite fromEntries_keys. by apply get_None_keys.
Qed.
End FromEntries.

(** ** Trees returned by [generateTree] *)

Section BuiltTrees.
Variable nodes : JsMap.t Raw.Node.

Lemma fold_children_grows fuel id d :
  ∀ cs p0 p',
    fold_left (fun acc childId =>
                 acc ≫= buildTreeStructure fuel nodes childId (Some id) (d + 1))
              cs (Some p0) = Some p' →
    grows nodes cs (Some id) (d + 1) p0 p'.
Proof.
  induction cs as [|c cs IHcs]; intros p0 p'; simpl.
  - intros [= <-]. apply grows_nil.
  - destruct (buildTreeStructure fuel nodes c (Some id) (d + 1) p0)
      as [p1|] eqn:Hcall.
    + intros Hrest.
      eapply grows_cons; [by eapply buildTreeStructure_grows | by apply IHcs].
    + by rewrite fold_bind_None.
Qed.


Lemma generateTree_Built stacks now t :
  generateTree nodes stacks now = Some (Returned t) → Built nodes t.
Proof.
  unfold generateTree.
  destruct (findRootNode nodes) as [rootId|] eqn:Hroot; [|done].
  destruct (build nodes rootId) as [processed|] eqn:Hbuild; [|done].
  simpl. intros [= <-].
  apply findRootNode_key, get_is_Some_keys in Hroot as [rawNode Hraw].
  unfold build in Hbuild. cbn [buildTreeStructure] in Hbuild.
  rewrite Hraw in Hbuild. cbn [JsMap.has JsMap.get JsMap.set] in Hbuild.
  apply fold_children_grows in Hbuild
    as (new & -> & Hnd & Hfr & Hall & Hroots & Hcl).
  set (rootNode := make_node rootId None 0 rawNode) in *.
  assert (∀ entry, entry ∈ JsObject.fromEntries ([(rootId, rootNode)] ++ new)%list
                   ↔ entry = (rootId, rootNode) ∨ entry ∈ new) as Helem.
  { intros entry. rewrite fromEntries_elem. simpl. apply elem_of_cons. }
  constructor; simpl.
  - exists rawNode, new. split; [done|]. split.
    { apply fromEntries_Permutation. }
    eapply Forall_impl; [exact Hall|]. intros entry (_ & _ & Hcase).
    destruct Hcase as [(Hin & Hpar & Hdepth)|Hl].
    + exists rootId, rootNode. split; [done|].
      split; [apply Helem; by left|]. split; [done|]. by rewrite Hdepth.
    + eapply linked_mono; [|exact Hl]. intros x Hx. apply Helem. by right.
  - rewrite fromEntries_keys. unfold JsMap.keys. simpl.
    apply NoDup_cons. split; [|done].
    intros Hin. apply (Hfr rootId Hin). left.
  - apply Forall_forall. intros entry [->|Hin]%Helem.
    + by exists rawNode, None, 0.
    + rewrite Forall_forall in Hall. by destruct (Hall _ Hin) as (? & _).
  - apply Forall_forall. intros entry [->|Hin]%Helem; [done|].
    rewrite Forall_forall in Hall. destruct (Hall _ Hin) as (_ & ? & _). lia.
  - intros entry c [->|Hin]%Helem Hc Hsome.
    + rewrite fromEntries_keys. by apply Hroots.
    + rewrite fromEntries_keys. by eapply Hcl.
Qed.

(** [generateTree] never runs out of fuel, and the only error it throws
    is the one of [findRootNode]. *)
Lemma generateTree_total stacks now :
  (∃ t, generateTree nodes stacks now = Some (Returned t)) ∨
  generateTree nodes stacks now = Some (Thrown "Could not find root node").
Proof.
  unfold generateTree.
  destruct (findRootNode nodes) as [rootId|message] eqn:Hroot.
  - destruct (build_is_Some nodes rootId) as [processed ->].
    left. simpl. eauto.
  - right. by rewrite (findRootNode_thrown _ _ Hroot).
Qed.

Section Facts.
Variable t : OptimizedTree.t.
Hypothesis Hbuilt : Built nodes t.

Lemma built_get k n :
  (k, n) ∈ OptimizedTree.nodes t ↔ JsMap.get (OptimizedTree.nodes t) k = Some n.
Proof.
  split; [apply elem_get, Hbuilt | apply get_Some_elem].
Qed.

(** An entry is the root's or hangs under its parent. *)
Lemma built_cases k n :
  (k, n) ∈ OptimizedTree.nodes t →
  (k = OptimizedTree.root t ∧ TreeNode.parentId n = None ∧
   TreeNode.depth n = 0)
  ∨ (k ≠ OptimizedTree.root t ∧
     ∃ q pn, TreeNode.parentId n = Some q ∧
             JsMap.get (OptimizedTree.nodes t) q = Some pn ∧
             k ∈ TreeNode.children pn ∧
             TreeNode.depth n = TreeNode.depth pn + 1 ∧
             0 <= TreeNode.depth pn).
Proof.
  intros Hin.
  destruct (built_root nodes t Hbuilt) as (rawNode & rest & Hraw & Hperm & Hrest).
  pose proof (built_NoDup nodes t Hbuilt) as Hnd.
  pose proof Hin as Hin'. rewrite Hperm in Hin'.
  apply elem_of_cons in Hin' as [[= -> ->]|Hin'].
  - left. done.
  - right. split.
    + intros ->. unfold JsMap.keys in Hnd. rewrite Hperm in Hnd.
      simpl in Hnd. apply NoDup_cons in Hnd as [Hnot _]. apply Hnot.
      apply list_elem_of_fmap. by exists (OptimizedTree.root t, n).
    + rewrite Forall_forall in Hrest.
      destruct (Hrest _ Hin') as (q & pn & Hpar & Hq & Hchild & Hdepth).
      exists q, pn. split; [done|]. split; [by apply built_get|].
      split; [done|]. split; [done|].
      pose proof (built_depth nodes t Hbuilt) as Hd.
      rewrite Forall_forall in Hd. apply (Hd _ Hq).
Qed.
End Facts.
End BuiltTrees.

Lemma filter_nil_Forall {A : Type} (P : A → Prop) `{∀ x, Decision (P x)}
    (l : list A) :
  Forall (fun x => ¬ P x) l → filter P l = [].
Proof.
  induction 1 as [|a l Ha _ IH]; [done|].
  rewrite filter_cons. by rewrite decide_False.
Qed.

Lemma make_node_terminal nodeId parentId depth rawNode :
  TreeNode.isTerminal (make_node nodeId parentId depth rawNode) = true ↔
  TreeNode.children (make_node nodeId parentId depth rawNode) = [].
Proof.
  simpl. rewrite bool_decide_eq_true. apply length_zero_iff_nil.
Qed.

(** C4: in every tree returned by [generateTree], exactly one node has a
    null [parentId]; the depth of any other node is its parent's depth
    plus 1, the parent being a node of the tree; and [isTerminal] holds
    exactly when [children] is empty. *)
Theorem built_tree_invariants (nodes : JsMap.t Raw.Node) (stacks : option nat)
    (now : string) (t : OptimizedTree.t) :
  generateTree nodes stacks now = Some (Returned t) →
  length (filter (fun entry => TreeNode.parentId entry.2 = None)
                 (OptimizedTree.nodes t)) = 1%nat ∧
  (∀ k n q, (k, n) ∈ OptimizedTree.nodes t → TreeNode.parentId n = Some q →
            ∃ pn, JsMap.get (OptimizedTree.nodes t) q = Some pn ∧
                  TreeNode.depth n = TreeNode.depth pn + 1) ∧
  (∀ k n, (k, n) ∈ OptimizedTree.nodes t →
          TreeNode.isTerminal n = true ↔ TreeNode.children n = []).
Proof.
  intros Hgen. apply generateTree_Built in Hgen as Hbuilt.
  split; [|split].
  - destruct (built_root _ _ Hbuilt) as (rawNode & rest & _ & Hperm & Hrest).
    rewrite Hperm. rewrite filter_cons. rewrite decide_True by done.
    rewrite filter_nil_Forall; [done|].
    eapply Forall_impl; [exact Hrest|].
    intros entry (q & pn & Hpar & _). by rewrite Hpar.
  - intros k n q Hin Hpar.
    destruct (built_cases _ _ Hbuilt k n Hin)
      as [(_ & Hnone & _)|(_ & q' & pn & Hpar' & Hget & _ & Hdepth & _)].
    + congruence.
    + exists pn. split; [congruence | done].
  - intros k n Hin.
    pose proof (built_ok _ _ Hbuilt) as Hok. rewrite Forall_forall in Hok.
    destruct (Hok _ Hin) as (rawNode & par & d & _ & Heq). simpl in Heq.
    rewrite Heq. apply make_node_terminal.
Qed.

Lemma built_tree_invariants_witness :
  generateTree Examples.small None ""
    = Some (Returned (Examples.tree_from Examples.small)) ∧
  length (filter (fun entry => TreeNode.parentId entry.2 = None)
                 (OptimizedTree.nodes (Examples.tree_from Examples.small)))
    = 1%nat.
Proof.
  assert (generateTree Examples.small None ""
          = Some (Returned (Examples.tree_from Examples.small))) as H
    by (vm_compute; reflexivity).
  split; [exact H|].
  exact (proj1 (built_tree_invariants _ _ _ _ H)).
Defined.

(** In a returned tree, climbing [parentId] from a node for as many steps
    as its depth ends at the root. *)
Lemma built_climb (nodes : JsMap.t Raw.Node) (t : OptimizedTree.t) :
  Built nodes t →
  ∀ (steps : nat) k n,
    (k, n) ∈ OptimizedTree.nodes t → TreeNode.depth n = Z.of_nat steps →
    climb (OptimizedTree.nodes t) steps k = Some (OptimizedTree.root t).
Proof.
  intros Hbuilt. induction steps as [|steps IH]; intros k n Hin Hdepth.
  - destruct (built_cases _ _ Hbuilt k n Hin)
      as [(-> & _)|(_ & q & pn & _ & _ & _ & Hd & Hpos)]; [done|lia].
  - destruct (built_cases _ _ Hbuilt k n Hin)
      as [(_ & _ & Hzero)|(_ & q & pn & Hpar & Hget & _ & Hd & _)]; [lia|].
    cbn [climb]. apply (built_get _ _ Hbuilt) in Hin. rewrite Hin. simpl.
    rewrite Hpar. simpl. apply (IH q pn).
    + by apply (built_get _ _ Hbuilt).
    + lia.
Qed.

(** Counterexample to C3: in the tree built from the diamond, node "3" has
    parent "1" and is also listed among the children of node "2". *)
Lemma diamond_child_has_two_holders :
  ∃ t n1 n2 n3,
    generateTree Examples.diamond None "" = Some (Returned t) ∧
    JsMap.get (OptimizedTree.nodes t) "1" = Some n1 ∧
    JsMap.get (OptimizedTree.nodes t) "2" = Some n2 ∧
    JsMap.get (OptimizedTree.nodes t) "3" = Some n3 ∧
    "3" ≠ OptimizedTree.root t ∧
    TreeNode.parentId n3 = Some "1" ∧
    "3" ∈ TreeNode.children n1 ∧
    "3" ∈ TreeNode.children n2.
Proof.
  eexists (Examples.tree_from Examples.diamond), _, _, _.
  split; [vm_compute; reflexivity|].
  split; [vm_compute; reflexivity|].
  split; [vm_compute; reflexivity|].
  split; [vm_compute; reflexivity|].
  split; [vm_compute; discriminate|].
  split; [reflexivity|].
  split; apply (bool_decide_unpack _); vm_compute; exact I.
Qed.

(** C3, amended: in every tree returned by [generateTree], each non-root
    node has a [parentId] naming a node of the tree whose [children]
    contain it and whose depth is one less, and following [parentId] from
    the node leads to the root in as many steps as the node's depth: the
    parent links form a tree, whatever the shape of the collection. *)
Theorem built_tree_parent_links (nodes : JsMap.t Raw.Node)
    (stacks : option nat) (now : string) (t : OptimizedTree.t) :
  generateTree nodes stacks now = Some (Returned t) →
  ∀ k n, (k, n) ∈ OptimizedTree.nodes t → k ≠ OptimizedTree.root t →
    (∃ q pn, TreeNode.parentId n = Some q ∧
             JsMap.get (OptimizedTree.nodes t) q = Some pn ∧
             k ∈ TreeNode.children pn ∧
             TreeNode.depth n = TreeNode.depth pn + 1) ∧
    climb (OptimizedTree.nodes t) (Z.to_nat (TreeNode.depth n)) k
      = Some (OptimizedTree.root t).
Proof.
  intros Hgen k n Hin Hne. apply generateTree_Built in Hgen as Hbuilt.
  split.
  - destruct (built_cases _ _ Hbuilt k n Hin)
      as [(? & _)|(_ & q & pn & ? & ? & ? & ? & _)]; [done|].
    exists q, pn. auto.
  - eapply built_climb; [exact Hbuilt | exact Hin |].
    pose proof (built_depth _ _ Hbuilt) as Hd. rewrite Forall_forall in Hd.
    specialize (Hd _ Hin). simpl in Hd. lia.
Qed.

Lemma built_tree_parent_links_witness :
  ∃ n3,
    generateTree Examples.diamond None ""
      = Some (Returned (Examples.tree_from Examples.diamond)) ∧
    ("3", n3) ∈ OptimizedTree.nodes (Examples.tree_from Examples.diamond) ∧
    "3" ≠ OptimizedTree.root (Examples.tree_from Examples.diamond) ∧
    climb (OptimizedTree.nodes (Examples.tree_from Examples.diamond))
          (Z.to_nat (TreeNode.depth n3)) "3"
      = Some (OptimizedTree.root (Examples.tree_from Examples.diamond)).
Proof.
  assert (generateTree Examples.diamond None ""
          = Some (Returned (Examples.tree_from Examples.diamond))) as H
    by (vm_compute; reflexivity).
  destruct (JsMap.get (OptimizedTree.nodes (Examples.tree_from Examples.diamond))
                      "3") as [n3|] eqn:Hget; [|vm_compute in Hget; discriminate].
  exists n3.
  assert (("3", n3) ∈ OptimizedTree.nodes (Examples.tree_from Examples.diamond))
    as Hin by (by apply get_Some_elem).
  assert ("3" ≠ OptimizedTree.root (Examples.tree_from Examples.diamond))
    as Hne by (vm_compute; discriminate).
  split; [exact H|]. split; [exact Hin|]. split; [exact Hne|].
  exact (proj2 (built_tree_parent_links _ _ _ _ H "3" n3 Hin Hne)).
Defined.


(** ** TreeBuilder and dangling targets *)

Lemma elem_of_flat_map {A B : Type} (f : A → list B) (l : list A) (y : B) :
  y ∈ flat_map f l ↔ ∃ x, x ∈ l ∧ y ∈ f x.
Proof.
  rewrite list_elem_of_In, in_flat_map.
  split; intros (x & Hx & Hy); exists x; split;
    first [by apply list_elem_of_In | by apply list_elem_of_In in Hx
          | by apply list_elem_of_In in Hy].
Qed.

Lemma flat_map_nil {A B : Type} (f : A → list B) (l : list A) :
  (∀ x, x ∈ l → f x = []) → flat_map f l = [].
Proof.
  induction l as [|a l IH]; intros Hall; simpl; [done|].
  rewrite Hall by left. rewrite IH; [done|]. intros x Hx. apply Hall. by right.
Qed.

Lemma concat_imap_nil {A B : Type} (l : list A) :
  ∀ f : nat → A → list B,
    (∀ i x, x ∈ l → f i x = []) → concat (imap f l) = [].
Proof.
  induction l as [|a l IH]; intros f Hall; [done|].
  rewrite imap_cons. simpl. rewrite Hall by left. simpl.
  apply IH. intros i x Hx. apply Hall. by right.
Qed.

(** The children of a node are the non-empty string targets of its raw
    record's actions. *)
Lemma children_of_elem (actions : list Raw.Action) (c : string) :
  c ∈ children_of actions ↔
  ∃ action, action ∈ actions ∧ Raw.node action = StrTarget c ∧ c ≠ "".
Proof.
  unfold children_of. rewrite elem_of_flat_map.
  split.
  - intros (action & Hin & Hc). exists action. split; [done|].
    destruct (Raw.node action) as [|s|z]; simpl in Hc;
      try (by apply elem_of_nil in Hc).
    case_bool_decide; simpl in Hc; [by apply elem_of_nil in Hc|].
    apply list_elem_of_singleton in Hc. by subst.
  - intros (action & Hin & Hnode & Hne). exists action. split; [done|].
    rewrite Hnode. simpl. rewrite bool_decide_eq_false_2 by done. simpl. left.
Qed.

(** Counterexample to C1: the only record has an action whose target "1"
    is not in the collection, and the build returns a tree. *)
Lemma dangling_target_build_returns :
  ∃ t rawNode action,
    JsMap.get Examples.dangling "0" = Some rawNode ∧
    action ∈ default [] (Raw.actions rawNode) ∧
    Raw.node action = StrTarget "1" ∧
    JsMap.get Examples.dangling "1" = None ∧
    build Examples.dangling "0" = Some (OptimizedTree.nodes t) ∧
    generateTree Examples.dangling None "" = Some (Returned t).
Proof.
  eexists (Examples.tree_from Examples.dangling), _, _.
  split; [reflexivity|].
  split; [left|].
  split; [reflexivity|].
  split; [reflexivity|].
  split; vm_compute; reflexivity.
Qed.

(** C1, amended: a target that is absent from the collection never makes
    the build fail.  [generateTree] always ends, and the only error it
    throws is the root resolver's; when it returns a tree, a non-empty
    string target of a materialised record that names no record is kept
    in the node's [children] and [actions], the tree has no node under
    that identifier, and [validateTree] reports the missing child. *)
Theorem build_keeps_dangling_target (nodes : JsMap.t Raw.Node)
    (stacks : option nat) (now : string) :
  ((∃ t, generateTree nodes stacks now = Some (Returned t)) ∨
   generateTree nodes stacks now = Some (Thrown "Could not find root node")) ∧
  ∀ t k n rawNode action s,
    generateTree nodes stacks now = Some (Returned t) →
    (k, n) ∈ OptimizedTree.nodes t →
    JsMap.get nodes k = Some rawNode →
    action ∈ default [] (Raw.actions rawNode) →
    Raw.node action = StrTarget s → s ≠ "" →
    JsMap.get nodes s = None →
    s ∈ TreeNode.children n ∧
    (∃ a, a ∈ TreeNode.actions n ∧ NodeAction.node a = StrTarget s) ∧
    JsMap.get (OptimizedTree.nodes t) s = None ∧
    ("Node " +:+ k +:+ " references non-existent child " +:+ s)
      ∈ TreeOptimizer.errors (TreeOptimizer.validateTree t) ∧
    TreeOptimizer.isValid (TreeOptimizer.validateTree t) = false.
Proof.
  split; [apply generateTree_total|].
  intros t k n rawNode action s Hgen Hin Hraw Haction Hnode Hne Habsent.
  apply generateTree_Built in Hgen as Hbuilt.
  pose proof (built_ok _ _ Hbuilt) as Hok. rewrite Forall_forall in Hok.
  destruct (Hok _ Hin) as (rawNode' & par & d & Hraw' & Heq). simpl in *.
  assert (rawNode' = rawNode) as -> by congruence.
  assert (s ∈ TreeNode.children n) as Hchild.
  { rewrite Heq. simpl. apply children_of_elem. by exists action. }
  assert (JsMap.get (OptimizedTree.nodes t) s = None) as Hmissing.
  { destruct (JsMap.get (OptimizedTree.nodes t) s) as [m|] eqn:Hget; [|done].
    apply get_Some_elem in Hget.
    destruct (Hok _ Hget) as (? & ? & ? & Hs & _). simpl in Hs. congruence. }
  assert (("Node " +:+ k +:+ " references non-existent child " +:+ s)
            ∈ TreeOptimizer.errors (TreeOptimizer.validateTree t)) as Herror.
  { unfold TreeOptimizer.validateTree. simpl.
    apply elem_of_app. right. apply elem_of_flat_map. exists (k, n).
    split; [done|]. simpl.
    apply elem_of_app. right. apply elem_of_app. left.
    unfold TreeOptimizer.child_errors. apply elem_of_flat_map. exists s.
    split; [done|]. unfold JsMap.has. rewrite Hmissing. left. }
  split; [done|]. split; [|split; [done|split; [done|]]].
  - exists (copy_action action). split.
    + rewrite Heq. simpl. apply list_elem_of_fmap. by exists action.
    + unfold copy_action. simpl. rewrite Hnode. simpl.
      by rewrite bool_decide_eq_false_2.
  - unfold TreeOptimizer.validateTree in *. simpl in *.
    apply bool_decide_eq_false. intros Hlen.
    apply length_zero_iff_nil in Hlen. rewrite Hlen in Herror.
    by apply elem_of_nil in Herror.
Qed.

Lemma build_keeps_dangling_target_witness :
  ∃ n rawNode action,
    generateTree Examples.dangling None ""
      = Some (Returned (Examples.tree_from Examples.dangling)) ∧
    ("0", n) ∈ OptimizedTree.nodes (Examples.tree_from Examples.dangling) ∧
    JsMap.get Examples.dangling "0" = Some rawNode ∧
    action ∈ default [] (Raw.actions rawNode) ∧
    Raw.node action = StrTarget "1" ∧
    "1" ∈ TreeNode.children n ∧
    JsMap.get (OptimizedTree.nodes (Examples.tree_from Examples.dangling)) "1"
      = None.
Proof.
  eexists _, _, _.
  assert (generateTree Examples.dangling None ""
          = Some (Returned (Examples.tree_from Examples.dangling))) as Hgen
    by (vm_compute; reflexivity).
  assert (("0", make_node "0" None 0
                  (Examples.raw (Some []) [("C", StrTarget "1")]))
            ∈ OptimizedTree.nodes (Examples.tree_from Examples.dangling))
    as Hin by (vm_compute; left).
  assert (JsMap.get Examples.dangling "0"
          = Some (Examples.raw (Some []) [("C", StrTarget "1")])) as Hraw
    by reflexivity.
  assert ({| Raw.type := "C"; Raw.amount := None; Raw.node := StrTarget "1" |}
            ∈ default [] (Raw.actions
                            (Examples.raw (Some []) [("C", StrTarget "1")])))
    as Haction by left.
  assert ("1" ≠ "") as Hne by discriminate.
  destruct (proj2 (build_keeps_dangling_target Examples.dangling None "")
              _ _ _ _ _ "1" Hgen Hin Hraw Haction eq_refl Hne eq_refl)
    as (Hchild & _ & Habsent & _).
  split; [exact Hgen|]. split; [exact Hin|]. split; [exact Hraw|].
  split; [exact Haction|]. split; [reflexivity|].
  split; [exact Hchild | exact Habsent].
Defined.

(** ** TreeValidator on built trees *)

Lemma target_resolves_truthy (nodes : JsMap.t Raw.Node) (target : Target) :
  target_resolves nodes target = true → truthy target = true →
  ∃ s, target = StrTarget s ∧ s ≠ "" ∧ is_Some (JsMap.get nodes s).
Proof.
  unfold target_resolves. intros Hres Htruthy. rewrite Htruthy in Hres.
  simpl in Hres. destruct target as [|s|z]; try done.
  exists s. split; [done|]. split.
  - simpl in Htruthy. apply negb_true_iff, bool_decide_eq_false in Htruthy.
    done.
  - apply get_is_Some_keys. by apply has_true.
Qed.

Lemma self_consistent_action (nodes : JsMap.t Raw.Node) k rawNode action :
  self_consistent nodes = true →
  JsMap.get nodes k = Some rawNode →
  action ∈ default [] (Raw.actions rawNode) →
  target_resolves nodes (Raw.node action) = true.
Proof.
  unfold self_consistent. rewrite forallb_forall.
  intros Hall Hget Hin. apply get_Some_elem, list_elem_of_In in Hget.
  specialize (Hall _ Hget). simpl in Hall. rewrite forallb_forall in Hall.
  apply Hall. by apply list_elem_of_In.
Qed.

(** C5: for a collection in which every action target resolves to a
    record, [validateTree] finds no error in the tree [generateTree]
    returns: [isValid] is true and [errors] is empty.  (The references
    need not even form a tree.) *)
Theorem validateTree_built_tree (nodes : JsMap.t Raw.Node)
    (stacks : option nat) (now : string) (t : OptimizedTree.t) :
  generateTree nodes stacks now = Some (Returned t) →
  self_consistent nodes = true →
  TreeOptimizer.validateTree t
  = {| TreeOptimizer.isValid := true; TreeOptimizer.errors := [] |}.
Proof.
  intros Hgen Hcons. apply generateTree_Built in Hgen as Hbuilt.
  pose proof (built_ok _ _ Hbuilt) as Hok. rewrite Forall_forall in Hok.
  assert (∀ k n c, (k, n) ∈ OptimizedTree.nodes t → c ∈ TreeNode.children n →
                   JsMap.has (OptimizedTree.nodes t) c = true) as Hchild.
  { intros k n c Hin Hc. apply has_true.
    eapply (built_closed _ _ Hbuilt (k, n)); [done | done |].
    destruct (Hok _ Hin) as (rawNode & par & d & Hraw & Heq). simpl in *.
    rewrite Heq in Hc. simpl in Hc.
    apply children_of_elem in Hc as (action & Haction & Hnode & Hne).
    pose proof (self_consistent_action _ _ _ _ Hcons Hraw Haction) as Hres.
    apply target_resolves_truthy in Hres as (s & Hs & _ & Hsome).
    - rewrite Hnode in Hs. by injection Hs as ->.
    - rewrite Hnode. simpl. by rewrite bool_decide_eq_false_2. }
  assert (∀ k n q, (k, n) ∈ OptimizedTree.nodes t →
                   TreeOptimizer.truthy_id (TreeNode.parentId n) = Some q →
                   ∃ pn, JsMap.get (OptimizedTree.nodes t) q = Some pn ∧
                         TreeNode.depth pn + 1 = TreeNode.depth n) as Hparent.
  { intros k n q Hin Hq.
    assert (TreeNode.parentId n = Some q) as Hpar.
    { unfold TreeOptimizer.truthy_id in Hq.
      destruct (TreeNode.parentId n) as [s|]; [|done].
      case_bool_decide; [done|]. done. }
    destruct (built_cases _ _ Hbuilt k n Hin)
      as [(_ & Hnone & _)|(_ & q' & pn & Hpar' & Hget & _ & Hd & _)];
      [congruence|].
    exists pn. split; [congruence | lia]. }
  unfold TreeOptimizer.validateTree.
  assert (JsMap.has (OptimizedTree.nodes t) (OptimizedTree.root t) = true)
    as ->.
  { destruct (built_root _ _ Hbuilt) as (rawNode & rest & _ & Hperm & _).
    apply has_true. unfold JsMap.keys. rewrite Hperm. left. }
  rewrite flat_map_nil; [done|].
  intros [k n] Hin. simpl.
  assert (TreeOptimizer.parent_errors (OptimizedTree.nodes t) k n = []) as ->.
  { unfold TreeOptimizer.parent_errors.
    destruct (TreeOptimizer.truthy_id (TreeNode.parentId n)) as [q|] eqn:Hq;
      [|done].
    destruct (Hparent k n q Hin Hq) as (pn & Hget & _).
    unfold JsMap.has. by rewrite Hget. }
  assert (TreeOptimizer.child_errors (OptimizedTree.nodes t) k n = []) as ->.
  { unfold TreeOptimizer.child_errors. apply flat_map_nil.
    intros c Hc. by rewrite (Hchild k n c Hin Hc). }
  assert (TreeOptimizer.action_errors (OptimizedTree.nodes t) k n = []) as ->.
  { unfold TreeOptimizer.action_errors. apply concat_imap_nil.
    intros i a Ha.
    destruct (Hok _ Hin) as (rawNode & par & d & Hraw & Heq). simpl in *.
    assert (TreeNode.actions n = map copy_action (default [] (Raw.actions rawNode)))
      as Hactions by (by rewrite Heq).
    rewrite Hactions in Ha.
    apply list_elem_of_fmap in Ha as (action & -> & Haction).
    unfold copy_action. simpl.
    destruct (truthy (Raw.node action)) eqn:Htruthy; [|done].
    rewrite Htruthy. simpl.
    pose proof (self_consistent_action _ _ _ _ Hcons Hraw Haction) as Hres.
    apply target_resolves_truthy in Hres as (s & Hs & Hne & _); [|done].
    rewrite Hs. simpl. rewrite (Hchild k n s Hin); [done|].
    rewrite Heq. simpl. apply children_of_elem. by exists action. }
  assert (TreeOptimizer.depth_errors (OptimizedTree.nodes t) k n = []) as ->.
  { unfold TreeOptimizer.depth_errors.
    destruct (TreeOptimizer.truthy_id (TreeNode.parentId n)) as [q|] eqn:Hq;
      [|done].
    destruct (Hparent k n q Hin Hq) as (pn & Hpn & Hd).
    rewrite (read_Own _ _ _ Hpn). by rewrite bool_decide_eq_true_2. }
  done.
Qed.

Lemma validateTree_built_tree_witness :
  generateTree Examples.small None ""
    = Some (Returned (Examples.tree_from Examples.small)) ∧
  self_consistent Examples.small = true ∧
  TreeOptimizer.validateTree (Examples.tree_from Examples.small)
  = {| TreeOptimizer.isValid := true; TreeOptimizer.errors := [] |}.
Proof.
  assert (generateTree Examples.small None ""
          = Some (Returned (Examples.tree_from Examples.small))) as Hgen
    by (vm_compute; reflexivity).
  assert (self_consistent Examples.small = true) as Hcons
    by (vm_compute; reflexivity).
  split; [exact Hgen|]. split; [exact Hcons|].
  exact (validateTree_built_tree _ _ _ _ Hgen Hcons).
Defined.


(** ** ShortestPathFinder *)

Section BfsFacts.
Variable nodes : JsMap.t TreeNode.t.
Variables fromNodeId toNodeId : string.


Lemma walk_nonempty v p : walk nodes fromNodeId v p → p ≠ [].
Proof. destruct 1; [done|]. by destruct p. Qed.

Lemma walk_last v p : walk nodes fromNodeId v p → last p = Some v.
Proof. destruct 1; [done|]. apply last_snoc. Qed.

Lemma walk_child_path v p : walk nodes fromNodeId v p → child_path nodes fromNodeId v p.
Proof.
  induction 1 as [|v p c Hwalk (Hhead & Hlast & Hlinks) Hlink].
  - split; [done|]. split; [done|]. intros [|i] a b Ha Hb; done.
  - split; [|split].
    + destruct p; [by apply walk_nonempty in Hwalk | done].
    + apply last_snoc.
    + intros i a b Ha Hb.
      destruct (decide (S i < length p)%nat) as [Hlt|Hge].
      * rewrite lookup_app_l in Ha by lia. rewrite lookup_app_l in Hb by lia.
        eauto.
      * assert (S i = length p) as Hi.
        { apply lookup_lt_Some in Hb. rewrite length_app in Hb. simpl in Hb.
          lia. }
        rewrite lookup_app_l in Ha by lia.
        rewrite lookup_app_r in Hb by lia.
        replace (S i - length p)%nat with 0%nat in Hb by lia.
        injection Hb as <-.
        rewrite last_lookup in Hlast.
        replace (Init.Nat.pred (length p)) with i in Hlast by lia.
        assert (a = v) as -> by congruence. done.
Qed.

Lemma child_path_walk path : ∀ v, child_path nodes fromNodeId v path → walk nodes fromNodeId v path.
Proof.
  induction path as [|x p IH] using rev_ind; intros v (Hhead & Hlast & Hlinks).
  - done.
  - rewrite last_snoc in Hlast. injection Hlast as ->.
    destruct (decide (p = [])) as [->|Hne].
    + simpl in Hhead. injection Hhead as ->. apply walk_start.
    + destruct (last p) as [u|] eqn:Hu.
      2:{ apply last_None in Hu. done. }
      apply walk_step with (v := u).
      * apply IH. split; [|split; [done|]].
        -- destruct p; [done | done].
        -- intros i a b Ha Hb. apply (Hlinks i a b).
           ++ rewrite lookup_app_l; [done|]. by eapply lookup_lt_Some.
           ++ rewrite lookup_app_l; [done|]. by eapply lookup_lt_Some.
      * assert (length p ≠ 0%nat) as Hlen by (by destruct p).
        apply (Hlinks (Init.Nat.pred (length p)) u v).
        -- rewrite lookup_app_l by lia. by rewrite <- last_lookup.
        -- replace (S (Init.Nat.pred (length p))) with (length p) by lia.
           rewrite lookup_app_r by lia.
           by replace (length p - length p)%nat with 0%nat by lia.
Qed.

Lemma pushed_elem visited path children c p :
  (c, p) ∈ TreeUtils.pushed visited path children ↔
  c ∈ children ∧ (c ∉ visited) ∧ p = (path ++ [c])%list.
Proof.
  unfold TreeUtils.pushed. rewrite list_elem_of_fmap. split.
  - intros (c' & [= -> ->] & Hin).
    apply list_elem_of_In, filter_In in Hin as [Hin Hv].
    apply list_elem_of_In in Hin.
    apply negb_true_iff, bool_decide_eq_false in Hv. done.
  - intros (Hin & Hv & ->). exists c. split; [done|].
    apply list_elem_of_In, filter_In. split; [by apply list_elem_of_In|].
    by apply negb_true_iff, bool_decide_eq_false.
Qed.

Lemma pushed_length visited path children :
  (length (TreeUtils.pushed visited path children) <= length children)%nat.
Proof.
  unfold TreeUtils.pushed. rewrite length_map. apply List.filter_length_le.
Qed.


Lemma bfs_inv_start :
  bfs_inv nodes fromNodeId toNodeId (fun _ => 0%nat) [(fromNodeId, [fromNodeId])] ∅.
Proof.
  constructor.
  - intros v p [= -> ->]%list_elem_of_singleton. apply walk_start.
  - simpl. repeat constructor.
  - intros item1 item2 ->%list_elem_of_singleton ->%list_elem_of_singleton.
    simpl. lia.
  - intros v item Hv. set_solver.
  - intros v node c Hv. set_solver.
  - right. exists [fromNodeId]. split; [left | simpl; lia].
  - set_solver.
Qed.

(** Every walk nodes fromNodeId is either already visited at no greater length or has a
    queue item no longer than it. *)
Lemma bfs_inv_reach d queue visited :
  bfs_inv nodes fromNodeId toNodeId d queue visited →
  ∀ w q, walk nodes fromNodeId w q →
    (w ∈ visited ∧ (d w <= length q)%nat)
    ∨ (∃ item, item ∈ queue ∧ (length item.2 <= length q)%nat).
Proof.
  intros Hinv w q Hwalk.
  induction Hwalk as [|v p c Hwalk IH (node & Hget & Hc)].
  - destruct (inv_from _ _ _ _ _ _ Hinv) as [[Hv Hd]|(p & Hin & Hlen)].
    + left. done.
    + right. exists (fromNodeId, p). done.
  - rewrite length_app. simpl.
    destruct IH as [[Hv Hd]|(item & Hin & Hlen)].
    + destruct (inv_children _ _ _ _ _ _ Hinv v node c Hv Hget Hc)
        as [[Hcv Hcd]|(p' & Hin & Hlen)].
      * left. split; [done | lia].
      * right. exists (c, p'). split; [done | simpl; lia].
    + right. exists item. split; [done | lia].
Qed.

Lemma bfs_inv_skip d u p rest visited :
  bfs_inv nodes fromNodeId toNodeId d ((u, p) :: rest) visited → u ∈ visited →
  bfs_inv nodes fromNodeId toNodeId d rest visited.
Proof.
  intros Hinv Hu. constructor.
  - intros v p' Hin. apply (inv_walk _ _ _ _ _ _ Hinv). by right.
  - pose proof (inv_sorted _ _ _ _ _ _ Hinv) as Hs. simpl in Hs.
    by apply StronglySorted_inv in Hs as [? _].
  - intros item1 item2 H1 H2. apply (inv_close _ _ _ _ _ _ Hinv); by right.
  - intros v item Hv Hin. apply (inv_level _ _ _ _ _ _ Hinv); [done | by right].
  - intros v node c Hv Hget Hc.
    destruct (inv_children _ _ _ _ _ _ Hinv v node c Hv Hget Hc)
      as [?|(p' & [[= -> ->]|Hin]%elem_of_cons & Hlen)]; [by left | |].
    + left. split; [done|].
      pose proof (inv_level _ _ _ _ _ _ Hinv u (u, p) Hu) as Hlev. simpl in Hlev.
      specialize (Hlev (list_elem_of_here _ _)). lia.
    + right. by exists p'.
  - destruct (inv_from _ _ _ _ _ _ Hinv)
      as [?|(p' & [[= <- ->]|Hin]%elem_of_cons & Hlen)]; [by left | |].
    + left. split; [done|].
      pose proof (inv_level _ _ _ _ _ _ Hinv fromNodeId (fromNodeId, p) Hu) as Hlev.
      simpl in Hlev. specialize (Hlev (list_elem_of_here _ _)). lia.
    + right. by exists p'.
  - apply (inv_to _ _ _ _ _ _ Hinv).
Qed.

Lemma bfs_inv_visit d u p rest visited children :
  bfs_inv nodes fromNodeId toNodeId d ((u, p) :: rest) visited →
  u ∉ visited → u ≠ toNodeId →
  children = from_option TreeNode.children [] (JsMap.get nodes u) →
  bfs_inv nodes fromNodeId toNodeId (fun x => if decide (x = u) then length p else d x)
          (rest ++ TreeUtils.pushed ({[u]} ∪ visited) p children)
          ({[u]} ∪ visited).
Proof.
  intros Hinv Hu Hto Hchildren.
  set (visited' := {[u]} ∪ visited).
  set (d' := fun x => if decide (x = u) then length p else d x).
  assert (∀ item, item ∈ rest → (length p <= length item.2)%nat) as Hmin.
  { intros item Hin. pose proof (inv_sorted _ _ _ _ _ _ Hinv) as Hs. simpl in Hs.
    apply StronglySorted_inv in Hs as [_ Hall].
    rewrite Forall_forall in Hall. apply Hall.
    apply list_elem_of_fmap. by exists item. }
  assert (∀ item, item ∈ rest → (length item.2 <= length p + 1)%nat) as Hmax.
  { intros item Hin.
    apply (inv_close _ _ _ _ _ _ Hinv (u, p) item); [left | by right]. }
  assert (∀ v, v ∈ visited → (d v <= length p)%nat) as Hlev.
  { intros v Hv. apply (inv_level _ _ _ _ _ _ Hinv v (u, p) Hv). left. }
  assert (∀ item, item ∈ TreeUtils.pushed visited' p children →
                  length item.2 = (length p + 1)%nat ∧
                  item.1 ∈ children ∧ (item.1 ∉ visited') ∧
                  item.2 = (p ++ [item.1])%list) as Hpushed.
  { intros [c p'] (Hc & Hv & ->)%pushed_elem. simpl.
    rewrite length_app. simpl. done. }
  assert (∀ v, v ∈ visited → d' v = d v) as Hd'.
  { intros v Hv. unfold d'. rewrite decide_False; [done|]. by intros ->. }
  assert (d' u = length p) as Hd'u.
  { unfold d'. by rewrite decide_True. }
  constructor.
  - intros v p' [Hin|Hin]%elem_of_app.
    + apply (inv_walk _ _ _ _ _ _ Hinv). by right.
    + destruct (Hpushed _ Hin) as (_ & Hc & _ & Hp). simpl in *. subst p'.
      apply walk_step with (v := u).
      * apply (inv_walk _ _ _ _ _ _ Hinv). left.
      * rewrite Hchildren in Hc.
        destruct (JsMap.get nodes u) as [node|] eqn:Hget; simpl in Hc.
        -- by exists node.
        -- by apply elem_of_nil in Hc.
  - rewrite map_app. apply StronglySorted_app_2.
    + intros x1 x2 (item1 & -> & H1)%list_elem_of_fmap
                   (item2 & -> & H2)%list_elem_of_fmap.
      destruct (Hpushed _ H2) as (-> & _). by apply Hmax.
    + pose proof (inv_sorted _ _ _ _ _ _ Hinv) as Hs. simpl in Hs.
      by apply StronglySorted_inv in Hs as [? _].
    + assert (∀ l : list TreeUtils.QueueItem,
                (∀ item, item ∈ l → length item.2 = (length p + 1)%nat) →
                StronglySorted le (map (fun item => length item.2) l)) as Hconst.
      { induction l as [|a l IHl]; intros Hall; simpl; [constructor|].
        constructor.
        - apply IHl. intros item Hin. apply Hall. by right.
        - apply Forall_forall. intros x (item & -> & Hin)%list_elem_of_fmap.
          rewrite (Hall a) by left. rewrite (Hall item) by (by right). done. }
      apply Hconst. intros item Hin. by destruct (Hpushed _ Hin).
  - intros item1 item2 [H1|H1]%elem_of_app [H2|H2]%elem_of_app.
    + apply (inv_close _ _ _ _ _ _ Hinv); by right.
    + destruct (Hpushed _ H2) as (-> & _). specialize (Hmin _ H1). lia.
    + destruct (Hpushed _ H1) as (-> & _). specialize (Hmax _ H2). lia.
    + destruct (Hpushed _ H1) as (-> & _).
      destruct (Hpushed _ H2) as (-> & _). lia.
  - intros v item Hv Hin.
    assert ((d' v <= length p)%nat) as Hv'.
    { apply elem_of_union in Hv as [->%elem_of_singleton|Hv].
      - by rewrite Hd'u.
      - rewrite Hd' by done. by apply Hlev. }
    apply elem_of_app in Hin as [Hin|Hin].
    + specialize (Hmin _ Hin). lia.
    + destruct (Hpushed _ Hin) as (-> & _). lia.
  - intros v node c Hv Hget Hc.
    apply elem_of_union in Hv as [->%elem_of_singleton|Hv].
    + rewrite Hd'u.
      destruct (decide (c ∈ visited')) as [Hcv|Hcv].
      * left. split; [done|].
        apply elem_of_union in Hcv as [->%elem_of_singleton|Hcv].
        -- rewrite Hd'u. lia.
        -- rewrite Hd' by done. specialize (Hlev _ Hcv). lia.
      * right. exists (p ++ [c])%list. split.
        -- apply elem_of_app. right. apply pushed_elem.
           split; [|done]. rewrite Hchildren, Hget. done.
        -- rewrite length_app. simpl. lia.
    + rewrite (Hd' v) by done.
      destruct (inv_children _ _ _ _ _ _ Hinv v node c Hv Hget Hc)
        as [[Hcv Hcd]|(p' & [[= -> ->]|Hin]%elem_of_cons & Hlen)].
      * left. split; [by apply elem_of_union_r|]. by rewrite Hd'.
      * left. split; [by apply elem_of_union_l, elem_of_singleton|].
        rewrite Hd'u. done.
      * right. exists p'. split; [|done]. apply elem_of_app. by left.
  - destruct (inv_from _ _ _ _ _ _ Hinv)
      as [[Hv Hd]|(p' & [[= <- ->]|Hin]%elem_of_cons & Hlen)].
    + left. split; [by apply elem_of_union_r|]. by rewrite Hd'.
    + left. split; [by apply elem_of_union_l, elem_of_singleton|].
      by rewrite Hd'u.
    + right. exists p'. split; [|done]. apply elem_of_app. by left.
  - pose proof (inv_to _ _ _ _ _ _ Hinv) as Hnot.
    intros [Heq%elem_of_singleton|Hin]%elem_of_union; [by subst | done].
Qed.

(** A returned path is a walk nodes fromNodeId to the target, and no walk nodes fromNodeId to the target is
    shorter. *)
Lemma bfs_loop_sound fuel :
  ∀ d queue visited path,
    bfs_inv nodes fromNodeId toNodeId d queue visited →
    TreeUtils.bfs_loop fuel nodes toNodeId queue visited
    = Some (Normal (Some path)) →
    walk nodes fromNodeId toNodeId path ∧
    ∀ q, walk nodes fromNodeId toNodeId q → (length path <= length q)%nat.
Proof.
  induction fuel as [|fuel IH]; intros d queue visited path Hinv;
    destruct queue as [|[u p] rest]; try done.
  cbn [TreeUtils.bfs_loop].
  case_bool_decide as Hu; [subst u|].
  - intros [= ->]. split.
    + apply (inv_walk _ _ _ _ _ _ Hinv). left.
    + intros q Hq.
      destruct (bfs_inv_reach _ _ _ Hinv _ _ Hq)
        as [[Hv _]|(item & Hin & Hlen)].
      * by apply (inv_to _ _ _ _ _ _ Hinv) in Hv.
      * apply elem_of_cons in Hin as [->|Hin]; [done|].
        pose proof (inv_sorted _ _ _ _ _ _ Hinv) as Hs. simpl in Hs.
        apply StronglySorted_inv in Hs as [_ Hall].
        rewrite Forall_forall in Hall.
        assert (length path <= length item.2)%nat; [|lia].
        apply Hall. apply list_elem_of_fmap. by exists item.
  - case_bool_decide as Hv.
    + apply IH with (d := d). by eapply bfs_inv_skip.
    + pose proof (bfs_inv_visit d u p rest visited _ Hinv Hv Hu eq_refl)
        as Hinv'.
      unfold JsObject.read.
      destruct (JsMap.get nodes u) as [node|] eqn:Hget; simpl in Hinv'.
      * eapply IH. exact Hinv'.
      * case_bool_decide; [done|].
        rewrite app_nil_r in Hinv'. eapply IH. exact Hinv'.
Qed.

(** The search ends with a [TypeError] only at an identifier that a walk
    reaches, that is not the target and that names an inherited member. *)
Lemma bfs_loop_throws fuel :
  ∀ d queue visited,
    bfs_inv nodes fromNodeId toNodeId d queue visited →
    TreeUtils.bfs_loop fuel nodes toNodeId queue visited = Some TypeError →
    ∃ v p, walk nodes fromNodeId v p ∧ v ≠ toNodeId ∧
           JsObject.read nodes v = JsObject.Inherited.
Proof.
  induction fuel as [|fuel IH]; intros d queue visited Hinv;
    destruct queue as [|[u p] rest]; try done.
  cbn [TreeUtils.bfs_loop].
  case_bool_decide as Hu; [done|].
  case_bool_decide as Hv.
  - apply IH with (d := d). by eapply bfs_inv_skip.
  - pose proof (bfs_inv_visit d u p rest visited _ Hinv Hv Hu eq_refl)
      as Hinv'.
    destruct (JsObject.read nodes u) as [node| |] eqn:Hread.
    + apply read_Own_get in Hread. rewrite Hread in Hinv'. simpl in Hinv'.
      eapply IH. exact Hinv'.
    + intros _. exists u, p. split; [|done].
      apply (inv_walk _ _ _ _ _ _ Hinv). left.
    + apply read_Absent in Hread as [Hget _]. rewrite Hget in Hinv'.
      simpl in Hinv'. rewrite app_nil_r in Hinv'. eapply IH. exact Hinv'.
Qed.

(** When the queue runs empty, no walk leads to the target. *)
Lemma bfs_loop_complete fuel :
  ∀ d queue visited,
    bfs_inv nodes fromNodeId toNodeId d queue visited →
    TreeUtils.bfs_loop fuel nodes toNodeId queue visited = Some (Normal None) →
    ∀ q, ¬ walk nodes fromNodeId toNodeId q.
Proof.
  induction fuel as [|fuel IH]; intros d queue visited Hinv;
    destruct queue as [|[u p] rest]; try done.
  - intros _ q Hq.
    destruct (bfs_inv_reach _ _ _ Hinv _ _ Hq)
      as [[Hv _]|(item & Hin & _)].
    + by apply (inv_to _ _ _ _ _ _ Hinv) in Hv.
    + by apply elem_of_nil in Hin.
  - intros _ q Hq.
    destruct (bfs_inv_reach _ _ _ Hinv _ _ Hq)
      as [[Hv _]|(item & Hin & _)].
    + by apply (inv_to _ _ _ _ _ _ Hinv) in Hv.
    + by apply elem_of_nil in Hin.
  - cbn [TreeUtils.bfs_loop].
    case_bool_decide as Hu; [done|].
    case_bool_decide as Hv.
    + apply IH with (d := d). by eapply bfs_inv_skip.
    + pose proof (bfs_inv_visit d u p rest visited _ Hinv Hv Hu eq_refl)
        as Hinv'.
      unfold JsObject.read.
      destruct (JsMap.get nodes u) as [node|] eqn:Hget; simpl in Hinv'.
      * eapply IH. exact Hinv'.
      * case_bool_decide; [done|].
        rewrite app_nil_r in Hinv'. eapply IH. exact Hinv'.
Qed.


Lemma weight_mono visited visited' entries :
  visited ⊆ visited' → (weight visited' entries <= weight visited entries)%nat.
Proof.
  intros Hsub. unfold weight.
  induction entries as [|[k n] entries IH]; simpl; [done|].
  destruct (decide (k ∈ visited)) as [Hk|Hk].
  - rewrite (bool_decide_eq_true_2 (k ∈ visited)) by done.
    rewrite (bool_decide_eq_true_2 (k ∈ visited')) by set_solver.
    done.
  - rewrite (bool_decide_eq_false_2 (k ∈ visited)) by done. simpl.
    case_bool_decide; simpl; lia.
Qed.

Lemma weight_visit visited entries u node :
  JsMap.get entries u = Some node → u ∉ visited →
  (weight ({[u]} ∪ visited) entries + length (TreeNode.children node)
   <= weight visited entries)%nat.
Proof.
  intros Hget Hu. unfold weight.
  induction entries as [|[k n] entries IH]; simpl in *; [done|].
  case_bool_decide as Hk.
  - subst k. injection Hget as ->.
    rewrite (bool_decide_eq_true_2 (u ∈ {[u]} ∪ visited)) by set_solver.
    rewrite (bool_decide_eq_false_2 (u ∈ visited)) by done. simpl.
    pose proof (weight_mono visited ({[u]} ∪ visited) entries
                  ltac:(set_solver)) as Hm.
    unfold weight in Hm. lia.
  - specialize (IH Hget).
    destruct (decide (k ∈ visited)) as [Hkv|Hkv].
    + rewrite (bool_decide_eq_true_2 (k ∈ visited)) by done.
      rewrite (bool_decide_eq_true_2 (k ∈ {[u]} ∪ visited)) by set_solver.
      done.
    + rewrite (bool_decide_eq_false_2 (k ∈ visited)) by done.
      rewrite (bool_decide_eq_false_2 (k ∈ {[u]} ∪ visited))
        by (intros [?%elem_of_singleton|?]%elem_of_union; congruence).
      simpl. lia.
Qed.

(** With fuel for every queue item and every push to come, the loop
    ends. *)
Lemma bfs_loop_fuel fuel :
  ∀ queue visited,
    (length queue + weight visited nodes <= fuel)%nat →
    is_Some (TreeUtils.bfs_loop fuel nodes toNodeId queue visited).
Proof.
  induction fuel as [|fuel IH]; intros queue visited Hfuel;
    destruct queue as [|[u p] rest]; simpl in Hfuel; try (by eauto); [lia|].
  cbn [TreeUtils.bfs_loop].
  case_bool_decide; [eauto|].
  case_bool_decide as Hv; [apply IH; lia|].
  unfold JsObject.read.
  destruct (JsMap.get nodes u) as [node|] eqn:Hget.
  - apply IH. rewrite length_app.
    pose proof (pushed_length ({[u]} ∪ visited) p (TreeNode.children node)).
    pose proof (weight_visit visited nodes u node Hget Hv). lia.
  - case_bool_decide; [eauto|]. apply IH.
    pose proof (weight_mono visited ({[u]} ∪ visited) nodes ltac:(set_solver)).
    lia.
Qed.
End BfsFacts.


Lemma weight_empty (nodes : JsMap.t TreeNode.t) :
  S (weight ∅ nodes) = TreeUtils.bfs_fuel nodes.
Proof.
  unfold weight, TreeUtils.bfs_fuel, JsMap.values. f_equal. f_equal.
  induction nodes as [|[k n] nodes IH]; simpl; [done|].
  rewrite bool_decide_eq_false_2 by apply not_elem_of_empty. simpl.
  f_equal. exact IH.
Qed.

(** [findShortestPath] never exhausts its fuel: the loop always ends. *)
Lemma findShortestPath_ends (tree : OptimizedTree.t) (fromNodeId toNodeId : string) :
  is_Some (TreeUtils.findShortestPath tree fromNodeId toNodeId).
Proof.
  unfold TreeUtils.findShortestPath. apply bfs_loop_fuel.
  rewrite <- weight_empty. simpl. lia.
Qed.

Lemma findShortestPath_sound (tree : OptimizedTree.t)
    (fromNodeId toNodeId : string) (path : list string) :
  TreeUtils.findShortestPath tree fromNodeId toNodeId
  = Some (Normal (Some path)) →
  child_path (OptimizedTree.nodes tree) fromNodeId toNodeId path ∧
  ∀ path', child_path (OptimizedTree.nodes tree) fromNodeId toNodeId path' →
           (length path <= length path')%nat.
Proof.
  unfold TreeUtils.findShortestPath. intros Hrun.
  eapply bfs_loop_sound in Hrun as [Hwalk Hmin]; [|apply bfs_inv_start].
  split.
  - by apply walk_child_path.
  - intros path' Hpath'. apply Hmin. by apply child_path_walk.
Qed.


Lemma findShortestPath_throws (tree : OptimizedTree.t)
    (fromNodeId toNodeId : string) :
  TreeUtils.findShortestPath tree fromNodeId toNodeId = Some TypeError →
  reaches_inherited (OptimizedTree.nodes tree) fromNodeId toNodeId.
Proof.
  unfold TreeUtils.findShortestPath. intros Hrun.
  eapply bfs_loop_throws in Hrun as (v & p & Hwalk & Hne & Hread);
    [|apply bfs_inv_start].
  exists v, p. split; [by apply walk_child_path | done].
Qed.

Lemma findShortestPath_none (tree : OptimizedTree.t)
    (fromNodeId toNodeId : string) :
  TreeUtils.findShortestPath tree fromNodeId toNodeId = Some (Normal None) →
  ∀ path, ¬ child_path (OptimizedTree.nodes tree) fromNodeId toNodeId path.
Proof.
  unfold TreeUtils.findShortestPath. intros Hrun path Hpath.
  apply child_path_walk in Hpath.
  by eapply (bfs_loop_complete _ _ _ _ _ _ _ (bfs_inv_start _ _ _) Hrun).
Qed.

(** A search that reaches no inherited name ends normally: with a
    shortest path when there is a path, with null when there is none. *)
Lemma findShortestPath_plain (tree : OptimizedTree.t)
    (fromNodeId toNodeId : string) :
  ¬ reaches_inherited (OptimizedTree.nodes tree) fromNodeId toNodeId →
  ∃ result,
    TreeUtils.findShortestPath tree fromNodeId toNodeId = Some (Normal result).
Proof.
  intros Hplain.
  destruct (findShortestPath_ends tree fromNodeId toNodeId)
    as [[result|] Hrun]; [by exists result|].
  by apply findShortestPath_throws in Hrun.
Qed.

Lemma findShortestPath_complete (tree : OptimizedTree.t)
    (fromNodeId toNodeId : string) (path : list string) :
  ¬ reaches_inherited (OptimizedTree.nodes tree) fromNodeId toNodeId →
  child_path (OptimizedTree.nodes tree) fromNodeId toNodeId path →
  ∃ found,
    TreeUtils.findShortestPath tree fromNodeId toNodeId
    = Some (Normal (Some found)) ∧
    (length found <= length path)%nat.
Proof.
  intros Hplain Hpath.
  destruct (findShortestPath_plain _ _ _ Hplain) as [[found|] Hrun].
  - exists found. split; [done|].
    apply findShortestPath_sound in Hrun as [_ Hmin]. by apply Hmin.
  - by apply findShortestPath_none with (path := path) in Hrun.
Qed.

(** From an identifier that is no key, no child link leaves. *)
Lemma walk_from_unknown (nodes : JsMap.t TreeNode.t) (fromNodeId : string) v p :
  JsMap.get nodes fromNodeId = None →
  walk nodes fromNodeId v p → v = fromNodeId.
Proof.
  intros Hnone. induction 1 as [|v p c _ -> (node & Hget & _)]; [done|].
  congruence.
Qed.

(** In a tree whose [children] lists name keys only, a search from a key,
    or from an identifier that names no inherited member, reaches no
    inherited name. *)
Lemma closed_search_plain (nodes : JsMap.t TreeNode.t)
    (fromNodeId toNodeId : string) :
  children_closed nodes = true →
  JsObject.read nodes fromNodeId ≠ JsObject.Inherited →
  ¬ reaches_inherited nodes fromNodeId toNodeId.
Proof.
  intros Hclosed Hfrom (v & path & Hpath & _ & Hread).
  apply child_path_walk in Hpath.
  assert (v = fromNodeId ∨ is_Some (JsMap.get nodes v)) as [->|[node Hnode]].
  { destruct Hpath as [|u p c _ (node & Hget & Hc)]; [by left|]. right.
    unfold children_closed in Hclosed. rewrite forallb_forall in Hclosed.
    apply get_Some_elem, list_elem_of_In in Hget.
    specialize (Hclosed _ Hget). simpl in Hclosed.
    rewrite forallb_forall in Hclosed.
    apply list_elem_of_In, Hclosed in Hc. unfold JsMap.has in Hc.
    destruct (JsMap.get nodes c); [eauto | done]. }
  - done.
  - by rewrite (read_Own _ _ _ Hnode) in Hread.
Qed.

(** C8, the failing input: from an identifier that is no key of the tree
    and names a member of [Object.prototype], such as "constructor", no
    path along child links leads anywhere else, and yet the search to any
    other identifier does not return null: it ends with a [TypeError]. *)
Theorem findShortestPath_throws_at_inherited_name (tree : OptimizedTree.t)
    (fromNodeId toNodeId : string) :
  JsMap.get (OptimizedTree.nodes tree) fromNodeId = None →
  fromNodeId ∈ JsObject.prototype_members →
  fromNodeId ≠ toNodeId →
  (∀ path, ¬ child_path (OptimizedTree.nodes tree) fromNodeId toNodeId path) ∧
  TreeUtils.findShortestPath tree fromNodeId toNodeId = Some TypeError.
Proof.
  intros Hnone Hmember Hne. split.
  - intros path Hpath. apply child_path_walk in Hpath.
    by apply walk_from_unknown in Hpath.
  - unfold TreeUtils.findShortestPath, TreeUtils.bfs_fuel.
    cbn [TreeUtils.bfs_loop].
    rewrite bool_decide_eq_false_2 by done.
    rewrite bool_decide_eq_false_2 by apply not_elem_of_empty.
    assert (JsObject.read (OptimizedTree.nodes tree) fromNodeId
            = JsObject.Inherited) as -> by (by apply read_Inherited).
    done.
Qed.

Lemma findShortestPath_throws_at_inherited_name_witness :
  JsMap.get (OptimizedTree.nodes Examples.single) "constructor" = None ∧
  TreeUtils.findShortestPath Examples.single "constructor" "0"
  = Some TypeError.
Proof.
  assert (JsMap.get (OptimizedTree.nodes Examples.single) "constructor" = None)
    as Hnone by reflexivity.
  split; [exact Hnone|].
  apply (findShortestPath_throws_at_inherited_name
           Examples.single "constructor" "0" Hnone);
    [by left | discriminate].
Defined.

(** ** Queries on unknown identifiers *)


(** On a tree without duplicate keys the navigator's cache is the node
    table itself. *)
Lemma buildCache_NoDup (tree : OptimizedTree.t) :
  NoDup (JsMap.keys (OptimizedTree.nodes tree)) →
  TreeNavigator.buildCache tree = OptimizedTree.nodes tree.
Proof.
  unfold TreeNavigator.buildCache.
  assert (∀ (l m : JsMap.t TreeNode.t),
            NoDup (JsMap.keys m ++ JsMap.keys l)%list →
            fold_left (fun cache entry => JsMap.set cache entry.1 entry.2) l m
            = (m ++ l)%list) as Hfold.
  { induction l as [|[k n] l IH]; intros m Hnd; simpl.
    - by rewrite app_nil_r.
    - assert (k ∉ JsMap.keys m) as Hfresh.
      { apply NoDup_app in Hnd as (_ & Hdisj & _). intros Hk.
        apply (Hdisj k Hk). left. }
      rewrite set_fresh by done. rewrite IH.
      + by rewrite <- app_assoc.
      + rewrite keys_app. simpl. rewrite <- app_assoc. done. }
  intros Hnd. by rewrite Hfold.
Qed.

(** On a built tree the breadcrumb walk ends within as many steps as the
    node is deep. *)
Lemma breadcrumbs_loop_fuel (nodes : JsMap.t Raw.Node) (t : OptimizedTree.t) :
  Built nodes t →
  ∀ (fuel : nat) k n breadcrumbs,
    (k, n) ∈ OptimizedTree.nodes t → TreeNode.depth n <= Z.of_nat fuel →
    is_Some (TreeNavigator.breadcrumbs_loop fuel (OptimizedTree.nodes t)
                                            (Some n) breadcrumbs).
Proof.
  intros Hbuilt.
  induction fuel as [|fuel IH]; intros k n breadcrumbs Hin Hdepth.
  - cbn [TreeNavigator.breadcrumbs_loop].
    destruct (TreeOptimizer.truthy_id (TreeNode.parentId n)) as [q|] eqn:Hq;
      [|eauto].
    destruct (JsMap.get (OptimizedTree.nodes t) q) as [pn|] eqn:Hget; [|eauto].
    exfalso.
    destruct (built_cases _ _ Hbuilt k n Hin)
      as [(_ & Hnone & _)|(_ & q' & pn' & _ & _ & _ & Hd & Hpos)].
    + by rewrite Hnone in Hq.
    + lia.
  - cbn [TreeNavigator.breadcrumbs_loop].
    destruct (TreeOptimizer.truthy_id (TreeNode.parentId n)) as [q|] eqn:Hq;
      [|eauto].
    destruct (JsMap.get (OptimizedTree.nodes t) q) as [pn|] eqn:Hget; [|eauto].
    apply (IH q pn); [by apply get_Some_elem|].
    destruct (built_cases _ _ Hbuilt k n Hin)
      as [(_ & Hnone & _)|(_ & q' & pn' & Hpar & Hget' & _ & Hd & _)].
    + by rewrite Hnone in Hq.
    + assert (q' = q) as ->.
      { rewrite Hpar in Hq. simpl in Hq. by case_bool_decide; simplify_eq. }
      assert (pn' = pn) as -> by congruence. lia.
Qed.

(** ** Navigator statistics: the unguarded average *)

(** C10: [getTreeStats] computes the average branching factor as the sum
    of the children counts of the nodes not flagged terminal divided by
    the number of those nodes, and the maximum as [Math.max] of those
    counts, with no guard for the case of no such node.  So when every
    node of the tree is terminal it divides 0 by 0 and takes the maximum
    of no number: the average is [NaN] and the maximum [-Infinity], while
    [calculateMetrics] guards the empty case and gives 0 for both. *)
Theorem getTreeStats_average_unguarded (tree : OptimizedTree.t) :
  let stats := TreeNavigator.getTreeStats (TreeNavigator.new tree) in
  let metrics := TreeOptimizer.calculateMetrics tree in
  let nonTerminal :=
    List.filter (fun n => negb (TreeNode.isTerminal n))
                (JsMap.values (OptimizedTree.nodes tree)) in
  let counts :=
    map (fun n => Number.of_Z (Z.of_nat (length (TreeNode.children n))))
        nonTerminal in
  (NoDup (JsMap.keys (OptimizedTree.nodes tree)) →
   TreeNavigator.avgBranchingFactor stats
   = Number.div (Number.sum counts)
                (Number.of_Z (Z.of_nat (length nonTerminal))) ∧
   TreeNavigator.maxBranchingFactor stats = Number.math_max counts) ∧
  (Forall (fun n => TreeNode.isTerminal n = true)
          (JsMap.values (OptimizedTree.nodes tree)) →
   TreeNavigator.avgBranchingFactor stats = Number.NaN ∧
   TreeNavigator.maxBranchingFactor stats = Number.neg_infinity ∧
   TreeOptimizer.avgBranchingFactor metrics = Number.of_Z 0 ∧
   TreeOptimizer.maxBranchingFactor metrics = Number.of_Z 0).
Proof.
  cbv zeta. split.
  - intros Hnd. unfold TreeNavigator.getTreeStats. simpl.
    rewrite (buildCache_NoDup tree Hnd).
    unfold TreeOptimizer.branchingFactors. by rewrite length_map.
  - intros Hall.
    assert (Forall (fun n => TreeNode.isTerminal n = true)
              (JsMap.values (TreeNavigator.buildCache tree))) as Hcache.
    { rewrite Forall_forall in Hall. apply Forall_forall. intros n Hn.
      unfold JsMap.values in Hn.
      apply list_elem_of_fmap in Hn as [[k n'] [-> Hin]].
      apply Hall. apply buildCache_elem in Hin.
      unfold JsMap.values. apply list_elem_of_fmap. by exists (k, n'). }
    unfold TreeNavigator.getTreeStats, TreeOptimizer.calculateMetrics.
    simpl.
    rewrite (branchingFactors_all_terminal _ Hcache).
    rewrite (branchingFactors_all_terminal _ Hall).
    repeat split.
Qed.

Lemma getTreeStats_average_unguarded_witness :
  NoDup (JsMap.keys (OptimizedTree.nodes (Examples.tree_from Examples.small))) ∧
  TreeNavigator.avgBranchingFactor
    (TreeNavigator.getTreeStats
       (TreeNavigator.new (Examples.tree_from Examples.small)))
  = Number.of_Z 2 ∧
  Forall (fun n => TreeNode.isTerminal n = true)
         (JsMap.values (OptimizedTree.nodes Examples.single)) ∧
  TreeNavigator.avgBranchingFactor
    (TreeNavigator.getTreeStats (TreeNavigator.new Examples.single)) = Number.NaN.
Proof.
  assert (NoDup (JsMap.keys
                   (OptimizedTree.nodes (Examples.tree_from Examples.small))))
    as Hnd by (apply (bool_decide_unpack _); vm_compute; exact I).
  assert (Forall (fun n => TreeNode.isTerminal n = true)
            (JsMap.values (OptimizedTree.nodes Examples.single))) as H.
  { repeat constructor. }
  split; [exact Hnd|]. split.
  - rewrite (proj1 (proj1 (getTreeStats_average_unguarded
                             (Examples.tree_from Examples.small)) Hnd)).
    vm_compute. reflexivity.
  - split; [exact H|].
    exact (proj1 (proj2 (getTreeStats_average_unguarded Examples.single) H)).
Defined.

(** [getNavigationPath] returns on every built tree once the fuel covers
    the node's depth. *)
Lemma getNavigationPath_fuel (nodes : JsMap.t Raw.Node) (stacks : option nat)
    (now : string) (t : OptimizedTree.t) (fuel : nat) k n :
  generateTree nodes stacks now = Some (Returned t) →
  (k, n) ∈ OptimizedTree.nodes t → TreeNode.depth n <= Z.of_nat fuel →
  is_Some (TreeNavigator.getNavigationPath fuel (TreeNavigator.new t) k).
Proof.
  intros Hgen Hin Hdepth. apply generateTree_Built in Hgen as Hbuilt.
  unfold TreeNavigator.getNavigationPath, TreeNavigator.buildBreadcrumbs.
  simpl. rewrite (buildCache_NoDup t (built_NoDup _ _ Hbuilt)).
  apply (built_get _ _ Hbuilt) in Hin as Hget. rewrite Hget.
  destruct (breadcrumbs_loop_fuel _ _ Hbuilt fuel k n [] Hin Hdepth)
    as [[current crumbs] ->].
  simpl. eauto.
Qed.





(** ** Worked examples *)

(** The breadcrumbs of the last node of a chain: the synthetic start, then
    one item per action taken, each tagged with the acting parent. *)
Example chain_breadcrumbs :
  option_map (option_map NavigationPath.breadcrumbs)
    (TreeNavigator.getNavigationPath
       2 (TreeNavigator.new (Examples.tree_from Examples.chain)) "B")
  = Some (Some
      [ {| BreadcrumbItem.nodeId := "0"; BreadcrumbItem.label := "Start";
           BreadcrumbItem.player := 0; BreadcrumbItem.action := "ROOT" |};
        {| BreadcrumbItem.nodeId := "0"; BreadcrumbItem.label := "Call";
           BreadcrumbItem.player := 0; BreadcrumbItem.action := "C" |};
        {| BreadcrumbItem.nodeId := "A"; BreadcrumbItem.label := "Raise 500";
           BreadcrumbItem.player := 1; BreadcrumbItem.action := "R" |} ]).
Proof. vm_compute. reflexivity. Qed.

(** A root with two terminal children has average and maximum branching
    factor 2. *)
Example small_branching :
  let stats :=
    TreeNavigator.getTreeStats
      (TreeNavigator.new (Examples.tree_from Examples.small)) in
  TreeNavigator.avgBranchingFactor stats = Number.of_Z 2 ∧
  TreeNavigator.maxBranchingFactor stats = Number.of_Z 2 ∧
  TreeNavigator.totalNodes stats = 3%nat ∧
  TreeNavigator.terminalNodes stats = 2%nat.
Proof. repeat split; vm_compute; reflexivity. Qed.

(** Array-index keys come first, in numeric order; "09" and the empty
    string are ordinary keys. *)
Example fromEntries_order :
  JsMap.keys (JsObject.fromEntries
                [("b", 1%nat); ("10", 2%nat); ("09", 3%nat); ("9", 4%nat);
                 ("", 5%nat); ("0", 6%nat)])
  = ["0"; "9"; "10"; "b"; "09"; ""].
Proof. vm_compute. reflexivity. Qed.


(** * Further properties of the code *)

(** ** TreeCache: round trip, bound, overwrite at capacity *)

Section CacheMore.
Context {V : Type}.
Implicit Types (m cache : JsMap.t V) (k key : string) (v value : V).

Lemma get_set_eq m k v : JsMap.get (JsMap.set m k v) k = Some v.
Proof.
  induction m as [|[k' v'] m IH]; simpl.
  - by rewrite bool_decide_eq_true_2.
  - case_bool_decide as Hk; simpl.
    + by rewrite bool_decide_eq_true_2.
    + by rewrite bool_decide_eq_false_2.
Qed.

Lemma get_set_ne m k v k' :
  k ≠ k' → JsMap.get (JsMap.set m k v) k' = JsMap.get m k'.
Proof.
  intros Hne. induction m as [|[k0 v0] m IH]; simpl.
  - by rewrite bool_decide_eq_false_2.
  - case_bool_decide as Hk; simpl.
    + subst k0. by rewrite !bool_decide_eq_false_2.
    + case_bool_decide; [done | exact IH].
Qed.

Lemma set_length_le m k v : (length (JsMap.set m k v) <= S (length m))%nat.
Proof.
  induction m as [|[k' v'] m IH]; simpl; [lia|].
  case_bool_decide; simpl; lia.
Qed.

Lemma set_existing_keys m k v :
  k ∈ JsMap.keys m → JsMap.keys (JsMap.set m k v) = JsMap.keys m.
Proof.
  unfold JsMap.keys.
  induction m as [|[k' v'] m IH]; simpl; intros Hin.
  - by apply elem_of_nil in Hin.
  - case_bool_decide as Hk; simpl; [by subst|].
    apply elem_of_cons in Hin as [->|Hin]; [done|]. f_equal. by apply IH.
Qed.

Lemma set_NoDup m k v :
  NoDup (JsMap.keys m) → NoDup (JsMap.keys (JsMap.set m k v)).
Proof.
  intros Hnd. destruct (decide (k ∈ JsMap.keys m)) as [Hin|Hout].
  - by rewrite set_existing_keys.
  - rewrite set_fresh by done. rewrite keys_app. apply NoDup_app.
    split; [done|]. split; [|apply NoDup_singleton].
    intros x Hx ->%list_elem_of_singleton. done.
Qed.

Lemma cache_set_NoDup cache key value :
  NoDup (JsMap.keys cache) → NoDup (JsMap.keys (TreeCache.set cache key value)).
Proof.
  unfold TreeCache.set. intros Hnd. apply set_NoDup.
  case_bool_decide; [|done].
  destruct cache as [|[k0 v0] cache']; simpl; [done|].
  rewrite bool_decide_eq_true_2 by done.
  unfold JsMap.keys in Hnd. simpl in Hnd. by apply NoDup_cons in Hnd as [_ ?].
Qed.

Lemma cache_set_size cache key value :
  (JsMap.size cache <= TreeCache.maxSize)%nat →
  (JsMap.size (TreeCache.set cache key value) <= TreeCache.maxSize)%nat.
Proof.
  unfold TreeCache.set, JsMap.size. intros Hle.
  case_bool_decide as Hfull.
  - destruct cache as [|[k0 v0] cache']; simpl in *.
    + unfold TreeCache.maxSize in *. lia.
    + rewrite bool_decide_eq_true_2 by done.
      pose proof (set_length_le cache' key value). lia.
  - pose proof (set_length_le cache key value). lia.
Qed.
End CacheMore.

Lemma cache_set_then_get_aux {V : Type} (cache : JsMap.t V) (key : string)
    (value : V) :
  TreeCache.get (TreeCache.set cache key value) key = Some value.
Proof. unfold TreeCache.get, TreeCache.set. apply get_set_eq. Qed.

(** X1: whatever the cache holds, also at full size, a value stored with
    [set] is returned by the next [get] of its key, and [has] is true. *)
Theorem cache_set_then_get {V : Type} (cache : JsMap.t V) (key : string)
    (value : V) :
  TreeCache.get (TreeCache.set cache key value) key = Some value ∧
  TreeCache.has (TreeCache.set cache key value) key = true.
Proof.
  unfold TreeCache.get, TreeCache.has, TreeCache.set, JsMap.has.
  rewrite get_set_eq. done.
Qed.

(** X2: starting from the empty cache, no sequence of [set] and [get]
    calls, on fresh or repeated keys, makes the cache hold more than the
    100 entries of [maxSize]; the keys [getStats] lists are pairwise
    distinct and as many as the reported size. *)
Theorem cache_never_exceeds_maxSize {V : Type}
    (calls : list (@TreeCache.Call V)) :
  let stats := TreeCache.getStats (TreeCache.run calls []) in
  (TreeCache.stats_size stats <= 100)%nat ∧
  TreeCache.stats_maxSize stats = 100%nat ∧
  NoDup (TreeCache.stats_keys stats) ∧
  length (TreeCache.stats_keys stats) = TreeCache.stats_size stats.
Proof.
  simpl.
  assert (∀ cache : JsMap.t V,
            (JsMap.size cache <= TreeCache.maxSize)%nat ∧
            NoDup (JsMap.keys cache) →
            (JsMap.size (TreeCache.run calls cache) <= TreeCache.maxSize)%nat ∧
            NoDup (JsMap.keys (TreeCache.run calls cache)))
    as Hrun.
  { induction calls as [|[key value|key] calls IH]; intros cache [Hle Hnd].
    - done.
    - change (TreeCache.run (TreeCache.CallSet key value :: calls) cache)
        with (TreeCache.run calls (TreeCache.set cache key value)).
      apply IH. split; [by apply cache_set_size | by apply cache_set_NoDup].
    - change (TreeCache.run (TreeCache.CallGet key :: calls) cache)
        with (TreeCache.run calls cache).
      by apply IH. }
  destruct (Hrun []) as [Hsize Hnd].
  { split; [unfold JsMap.size, TreeCache.maxSize; simpl; lia | constructor]. }
  split; [exact Hsize|]. split; [done|]. split; [exact Hnd|].
  unfold JsMap.keys, JsMap.size. apply length_fmap.
Qed.

(** X3: at full size, [set] on a key that is already present, other than
    the oldest, still deletes the oldest key: the cache shrinks by one
    entry and the remaining keys keep their order. *)
Theorem cache_overwrite_at_capacity_evicts {V : Type} (cache : JsMap.t V)
    (first key : string) (rest : list string) (value : V) :
  (TreeCache.maxSize <= JsMap.size cache)%nat →
  JsMap.keys cache = first :: rest →
  NoDup (JsMap.keys cache) →
  key ∈ rest →
  TreeCache.has (TreeCache.set cache key value) first = false ∧
  JsMap.keys (TreeCache.set cache key value) = rest ∧
  TreeCache.get (TreeCache.set cache key value) key = Some value.
Proof.
  intros Hfull Hkeys Hnd Hkey.
  assert (JsMap.keys (TreeCache.set cache key value) = rest) as Hrest.
  { unfold TreeCache.set. rewrite bool_decide_eq_true_2 by done.
    rewrite Hkeys. destruct cache as [|[k0 v0] cache']; [done|].
    unfold JsMap.keys in Hkeys. simpl in Hkeys.
    injection Hkeys as -> Hrest. simpl.
    rewrite bool_decide_eq_true_2 by done.
    subst rest. by apply set_existing_keys. }
  split; [|split; [done|]].
  - unfold TreeCache.has. apply has_false. rewrite Hrest.
    rewrite Hkeys in Hnd. by apply NoDup_cons in Hnd as [? _].
  - apply cache_set_then_get_aux.
Qed.

Lemma cache_overwrite_at_capacity_evicts_witness :
  let cache : JsMap.t nat :=
    TreeCache.run (map (fun key => TreeCache.CallSet key 0%nat)
                       (take 100 Examples.keys101)) [] in
  let key := String (ascii_of_nat 7) "" in
  (TreeCache.maxSize <= JsMap.size cache)%nat ∧
  TreeCache.has (TreeCache.set cache key 1%nat)
                (String (ascii_of_nat 0) "") = false ∧
  JsMap.size (TreeCache.set cache key 1%nat) = 99%nat.
Proof.
  intros cache key.
  assert (TreeCache.maxSize <= JsMap.size cache)%nat as Hfull
    by (vm_compute; lia).
  assert (JsMap.keys cache
          = String (ascii_of_nat 0) "" :: tail (take 100 Examples.keys101))
    as Hkeys by (vm_compute; reflexivity).
  assert (NoDup (JsMap.keys cache)) as Hnd
    by (apply (bool_decide_unpack _); vm_compute; exact I).
  assert (key ∈ tail (take 100 Examples.keys101)) as Hkey
    by (apply (bool_decide_unpack _); vm_compute; exact I).
  destruct (cache_overwrite_at_capacity_evicts cache _ key _ 1%nat
              Hfull Hkeys Hnd Hkey) as (Hgone & Hrest & _).
  split; [exact Hfull|]. split; [exact Hgone|].
  unfold JsMap.size. rewrite <- (length_fmap fst).
  change (fst <$> TreeCache.set cache key 1%nat)
    with (JsMap.keys (TreeCache.set cache key 1%nat)).
  rewrite Hrest. vm_compute. reflexivity.
Defined.

(** ** RootResolver: the fallback *)

Lemma childNodes_elem (nodes : JsMap.t Raw.Node) (k : string) :
  k ∈ childNodes nodes ↔ referenced nodes k.
Proof.
  unfold childNodes, referenced. rewrite elem_of_flat_map. split.
  - intros (entry & Hentry & Hk). apply elem_of_flat_map in Hk
      as (action & Haction & Hk).
    exists entry, action. split; [done|]. split; [done|].
    destruct (Raw.node action) as [|s|z]; simpl in Hk;
      try (by apply elem_of_nil in Hk).
    case_bool_decide; simpl in Hk; [by apply elem_of_nil in Hk|].
    apply list_elem_of_singleton in Hk. by subst.
  - intros (entry & action & Hentry & Haction & Hnode & Hne).
    exists entry. split; [done|]. apply elem_of_flat_map.
    exists action. split; [done|]. rewrite Hnode. simpl.
    rewrite bool_decide_eq_false_2 by done. left.
Qed.

(** X4: when no record has an empty sequence or the name "0",
    [findRootNode] returns the first identifier, in iteration order, that
    is no action's target; it throws exactly when every identifier is
    some action's target, as in the empty collection. *)
Theorem findRootNode_fallback (nodes : JsMap.t Raw.Node) :
  Forall (fun entry => Raw.sequence entry.2 ≠ Some [] ∧ entry.1 ≠ "0") nodes →
  (findRootNode nodes = Thrown "Could not find root node" ↔
   Forall (referenced nodes) (JsMap.keys nodes)) ∧
  (∀ k, findRootNode nodes = Returned k →
        ∃ pre post, JsMap.keys nodes = (pre ++ k :: post)%list ∧
                    ¬ referenced nodes k ∧ Forall (referenced nodes) pre).
Proof.
  intros Hnone. unfold findRootNode.
  assert (List.find is_root_candidate nodes = None) as ->.
  { destruct (List.find is_root_candidate nodes) as [entry|] eqn:Hfind; [|done].
    apply find_split in Hfind as (pre & post & -> & Hc & _).
    apply Forall_app in Hnone as [_ Hnone].
    apply Forall_cons in Hnone as [Hentry _].
    apply is_root_candidate_true in Hc. tauto. }
  destruct (List.find _ (JsMap.keys nodes)) as [k|] eqn:Hfind.
  - apply find_split in Hfind as (pre & post & Hkeys & Hk & Hpre).
    apply negb_true_iff, bool_decide_eq_false in Hk.
    rewrite childNodes_elem in Hk.
    split.
    + split; [done|]. intros Hall. exfalso. apply Hk.
      rewrite Forall_forall in Hall. apply Hall. rewrite Hkeys.
      apply elem_of_app. right. left.
    + intros k' [= <-]. exists pre, post. split; [done|]. split; [done|].
      eapply Forall_impl; [exact Hpre|]. intros k' Hk'. simpl in Hk'.
      apply negb_false_iff, bool_decide_eq_true in Hk'.
      by apply childNodes_elem.
  - split; [|done]. split; [|done]. intros _.
    apply find_None_Forall in Hfind.
    eapply Forall_impl; [exact Hfind|]. intros k' Hk'. simpl in Hk'.
    apply negb_false_iff, bool_decide_eq_true in Hk'.
    by apply childNodes_elem.
Qed.

Lemma findRootNode_fallback_witness :
  Forall (fun entry => Raw.sequence entry.2 ≠ Some [] ∧ entry.1 ≠ "0")
         Examples.cyclic ∧
  findRootNode Examples.cyclic = Thrown "Could not find root node" ∧
  Forall (referenced Examples.cyclic) (JsMap.keys Examples.cyclic).
Proof.
  assert (Forall (fun entry => Raw.sequence entry.2 ≠ Some [] ∧ entry.1 ≠ "0")
                 Examples.cyclic) as Hnone.
  { repeat constructor; simpl; discriminate. }
  assert (findRootNode Examples.cyclic = Thrown "Could not find root node")
    as Hthrown by reflexivity.
  split; [exact Hnone|]. split; [exact Hthrown|].
  exact (proj1 (proj1 (findRootNode_fallback Examples.cyclic Hnone)) Hthrown).
Defined.

(** ** TreeBuilder: which records become nodes *)

Lemma built_key_in_collection (nodes : JsMap.t Raw.Node) (t : OptimizedTree.t)
    k n :
  Built nodes t → (k, n) ∈ OptimizedTree.nodes t →
  ∃ rawNode par d, JsMap.get nodes k = Some rawNode ∧
                   n = make_node k par d rawNode.
Proof.
  intros Hbuilt Hin. pose proof (built_ok _ _ Hbuilt) as Hok.
  rewrite Forall_forall in Hok. exact (Hok _ Hin).
Qed.

Lemma built_root_key (nodes : JsMap.t Raw.Node) (t : OptimizedTree.t) :
  Built nodes t → OptimizedTree.root t ∈ JsMap.keys (OptimizedTree.nodes t).
Proof.
  intros Hbuilt.
  destruct (built_root _ _ Hbuilt) as (rawNode & rest & _ & Hperm & _).
  unfold JsMap.keys. rewrite Hperm. left.
Qed.

Lemma built_reachable (nodes : JsMap.t Raw.Node) (t : OptimizedTree.t) :
  Built nodes t →
  ∀ (steps : nat) k n,
    (k, n) ∈ OptimizedTree.nodes t → TreeNode.depth n = Z.of_nat steps →
    rtc (raw_link nodes) (OptimizedTree.root t) k.
Proof.
  intros Hbuilt. induction steps as [|steps IH]; intros k n Hin Hdepth.
  - destruct (built_cases _ _ Hbuilt k n Hin)
      as [(-> & _)|(_ & q & pn & _ & _ & _ & Hd & Hpos)]; [done|lia].
  - destruct (built_cases _ _ Hbuilt k n Hin)
      as [(_ & _ & Hzero)|(_ & q & pn & Hpar & Hget & Hchild & Hd & _)]; [lia|].
    apply get_Some_elem in Hget.
    eapply rtc_r; [apply (IH q pn Hget); lia|].
    destruct (built_key_in_collection _ _ _ _ Hbuilt Hget)
      as (rawq & parq & dq & Hrawq & Heq).
    destruct (built_key_in_collection _ _ _ _ Hbuilt Hin)
      as (rawk & _ & _ & Hrawk & _).
    rewrite Heq in Hchild. simpl in Hchild.
    apply children_of_elem in Hchild as (action & Haction & Hnode & Hne).
    exists rawq, action. eauto 10.
Qed.

(** X5: the nodes of a returned tree are exactly the records that can be
    reached from the root by following non-empty string action targets
    that name a record; every other record of the collection is left
    out. *)
Theorem built_tree_nodes_are_reachable_records (nodes : JsMap.t Raw.Node)
    (stacks : option nat) (now : string) (t : OptimizedTree.t) (k : string) :
  generateTree nodes stacks now = Some (Returned t) →
  (k ∈ JsMap.keys (OptimizedTree.nodes t) ↔
   rtc (raw_link nodes) (OptimizedTree.root t) k).
Proof.
  intros Hgen. apply generateTree_Built in Hgen as Hbuilt. split.
  - intros Hk. apply get_is_Some_keys in Hk as [n Hn].
    apply get_Some_elem in Hn.
    pose proof (built_depth _ _ Hbuilt) as Hd. rewrite Forall_forall in Hd.
    specialize (Hd _ Hn). simpl in Hd.
    apply (built_reachable _ _ Hbuilt (Z.to_nat (TreeNode.depth n)) k n Hn).
    lia.
  - revert k. apply rtc_ind_r.
    + by eapply built_root_key.
    + intros a b Hab Hlink IH. destruct Hlink as (rawNode & action & Hraw & Haction & Hnode & Hne & Hb).
      apply get_is_Some_keys in IH as [na Hna]. apply get_Some_elem in Hna.
      destruct (built_key_in_collection _ _ _ _ Hbuilt Hna)
        as (rawa & par & d & Hrawa & Heq).
      assert (rawa = rawNode) as -> by congruence.
      apply (built_closed _ _ Hbuilt (a, na)); [done | | done].
      rewrite Heq. simpl. apply children_of_elem. by exists action.
Qed.

Lemma built_tree_nodes_are_reachable_records_witness :
  generateTree Examples.diamond None ""
    = Some (Returned (Examples.tree_from Examples.diamond)) ∧
  rtc (raw_link Examples.diamond)
      (OptimizedTree.root (Examples.tree_from Examples.diamond)) "3".
Proof.
  assert (generateTree Examples.diamond None ""
          = Some (Returned (Examples.tree_from Examples.diamond))) as Hgen
    by (vm_compute; reflexivity).
  split; [exact Hgen|].
  apply (built_tree_nodes_are_reachable_records _ _ _ _ "3" Hgen).
  apply (bool_decide_unpack _). vm_compute. exact I.
Defined.

(** ** TreeBuilder: a node's children and its actions *)

Lemma copy_action_targets (actions : list Raw.Action) :
  string_targets (map copy_action actions) = children_of actions.
Proof.
  unfold string_targets, children_of.
  induction actions as [|action actions IH]; simpl; [done|].
  rewrite IH. f_equal.
  destruct (Raw.node action) as [|s|z]; simpl; [done| |].
  - case_bool_decide; simpl; done.
  - destruct (z =? 0); simpl; done.
Qed.

Lemma copy_action_truthy (action : Raw.Action) :
  NodeAction.node (copy_action action) = NoTarget ∨
  truthy (NodeAction.node (copy_action action)) = true.
Proof.
  unfold copy_action. simpl.
  destruct (truthy (Raw.node action)) eqn:Ht; [by right | by left].
Qed.

Lemma string_targets_truthy (actions : list NodeAction.t) :
  Forall (fun a => NodeAction.node a = NoTarget ∨ truthy (NodeAction.node a) = true)
         actions →
  string_targets (List.filter (fun a => truthy (NodeAction.node a)) actions)
  = string_targets actions.
Proof.
  unfold string_targets.
  induction 1 as [|a actions [Ha|Ha] _ IH]; simpl; [done| |].
  - rewrite Ha. simpl. exact IH.
  - rewrite Ha. simpl. by rewrite IH.
Qed.

(** X6: in a returned tree every node carries its own key as [id], its
    [children] are the string targets of its [actions] in action order,
    and the string targets [getAvailableActions] offers for it are those
    same children; no offered action is flagged all-in. *)
Theorem built_node_children_match_actions (nodes : JsMap.t Raw.Node)
    (stacks : option nat) (now : string) (t : OptimizedTree.t) k n :
  generateTree nodes stacks now = Some (Returned t) →
  (k, n) ∈ OptimizedTree.nodes t →
  TreeNode.id n = k ∧
  TreeNode.children n = string_targets (TreeNode.actions n) ∧
  flat_map (fun a => match NavigationAction.targetNode a with
                     | StrTarget s => [s]
                     | _ => []
                     end)
           (TreeNavigator.getAvailableActions (TreeNavigator.new t) k)
  = TreeNode.children n ∧
  Forall (fun a => NavigationAction.isAllIn a = false)
         (TreeNavigator.getAvailableActions (TreeNavigator.new t) k).
Proof.
  intros Hgen Hin. apply generateTree_Built in Hgen as Hbuilt.
  destruct (built_key_in_collection _ _ _ _ Hbuilt Hin)
    as (rawNode & par & d & Hraw & Heq).
  assert (TreeNode.children n = string_targets (TreeNode.actions n)) as Hch.
  { rewrite Heq. simpl. by rewrite copy_action_targets. }
  split; [by rewrite Heq|]. split; [exact Hch|].
  unfold TreeNavigator.getAvailableActions. simpl.
  rewrite (buildCache_NoDup t (built_NoDup _ _ Hbuilt)).
  apply (built_get _ _ Hbuilt) in Hin as Hget. rewrite Hget.
  split.
  - rewrite Hch.
    rewrite <- (string_targets_truthy (TreeNode.actions n)).
    + unfold string_targets.
      generalize (List.filter (fun a => truthy (NodeAction.node a))
                              (TreeNode.actions n)) as l.
      induction l as [|a l IH]; simpl; [done|]. by rewrite IH.
    + rewrite Heq. simpl. apply Forall_forall.
      intros a (action & -> & _)%list_elem_of_fmap. apply copy_action_truthy.
  - apply Forall_forall. intros a (a0 & -> & _)%list_elem_of_fmap. done.
Qed.

Lemma built_node_children_match_actions_witness :
  ∃ n,
    generateTree Examples.chain None ""
      = Some (Returned (Examples.tree_from Examples.chain)) ∧
    ("A", n) ∈ OptimizedTree.nodes (Examples.tree_from Examples.chain) ∧
    TreeNode.children n = string_targets (TreeNode.actions n).
Proof.
  assert (generateTree Examples.chain None ""
          = Some (Returned (Examples.tree_from Examples.chain))) as Hgen
    by (vm_compute; reflexivity).
  destruct (JsMap.get (OptimizedTree.nodes (Examples.tree_from Examples.chain))
                      "A") as [n|] eqn:Hget; [|vm_compute in Hget; discriminate].
  exists n.
  assert (("A", n) ∈ OptimizedTree.nodes (Examples.tree_from Examples.chain))
    as Hin by (by apply get_Some_elem).
  split; [exact Hgen|]. split; [exact Hin|].
  exact (proj1 (proj2 (built_node_children_match_actions _ _ _ _ _ _ Hgen Hin))).
Defined.

(** ** TreeIndexer *)

Lemma groups_get_push (groups : list (Z * list string)) key nodeId key' :
  Groups.get (Groups.push groups key nodeId) key'
  = if bool_decide (key = key')
    then Some (default [] (Groups.get groups key) ++ [nodeId])%list
    else Groups.get groups key'.
Proof.
  induction groups as [|[k ids] groups IH]; simpl.
  - by case_bool_decide.
  - destruct (decide (k = key)) as [->|Hk].
    + rewrite (bool_decide_eq_true_2 (key = key)) by done. simpl.
      case_bool_decide; [done|]. done.
    + rewrite (bool_decide_eq_false_2 (k = key)) by done. simpl.
      rewrite IH. case_bool_decide as Hkey.
      * subst key'. by rewrite (bool_decide_eq_false_2 (k = key)) by done.
      * done.
Qed.

Lemma groups_fold (key : TreeNode.t → Z) (entries : JsMap.t TreeNode.t) :
  ∀ (groups : list (Z * list string)) (d : Z),
    Groups.get (fold_left (fun g entry => Groups.push g (key entry.2) entry.1)
                          entries groups) d
    = match ids_where (fun n => bool_decide (key n = d)) entries with
      | [] => Groups.get groups d
      | ids => Some (default [] (Groups.get groups d) ++ ids)%list
      end.
Proof.
  unfold ids_where.
  induction entries as [|[k n] entries IH]; intros groups d; simpl; [done|].
  rewrite IH. rewrite groups_get_push.
  case_bool_decide as Hd; simpl.
  - subst d. destruct (map fst (List.filter _ entries)) as [|id ids]; simpl;
      [done|].
    by rewrite <- app_assoc.
  - done.
Qed.

Lemma index_fold (entries : JsMap.t TreeNode.t) :
  ∀ index : TreeIndex.t,
    let result := fold_left TreeOptimizer.index_step entries index in
    TreeIndex.byDepth result
    = fold_left (fun g entry => Groups.push g (TreeNode.depth entry.2) entry.1)
                entries (TreeIndex.byDepth index) ∧
    TreeIndex.byPlayer result
    = fold_left (fun g entry => Groups.push g (TreeNode.player entry.2) entry.1)
                entries (TreeIndex.byPlayer index) ∧
    TreeIndex.terminals result
    = (TreeIndex.terminals index ++ ids_where TreeNode.isTerminal entries)%list ∧
    TreeIndex.withHandData result
    = (TreeIndex.withHandData index
       ++ ids_where TreeNode.hasHandData entries)%list.
Proof.
  unfold ids_where.
  induction entries as [|[k n] entries IH]; intros index; simpl.
  - by rewrite !app_nil_r.
  - destruct (IH (TreeOptimizer.index_step index (k, n)))
      as (Hd & Hp & Ht & Hh).
    simpl in *. rewrite Hd, Hp, Ht, Hh. repeat split.
    + destruct (TreeNode.isTerminal n); simpl; [by rewrite <- app_assoc | done].
    + destruct (TreeNode.hasHandData n); simpl; [by rewrite <- app_assoc | done].
Qed.

Lemma createIndexes_byDepth (tree : OptimizedTree.t) (d : Z) :
  Groups.get (TreeIndex.byDepth (TreeOptimizer.createIndexes tree)) d
  = group_found (ids_where (fun n => bool_decide (TreeNode.depth n = d))
                           (OptimizedTree.nodes tree)).
Proof.
  unfold TreeOptimizer.createIndexes.
  destruct (index_fold (OptimizedTree.nodes tree)
              {| TreeIndex.byDepth := []; TreeIndex.byPlayer := [];
                 TreeIndex.terminals := []; TreeIndex.withHandData := [] |})
    as (-> & _). simpl.
  rewrite (groups_fold TreeNode.depth). simpl.
  by destruct (ids_where _ _).
Qed.

(** X7: [createIndexes] groups the node identifiers without loss or
    repetition: the group under a depth (or a player) lists, in iteration
    order, exactly the identifiers of the nodes with that depth (that
    player), and is absent when there is none; [terminals] and
    [withHandData] list the identifiers of the flagged nodes, in order. *)
Theorem createIndexes_groups (tree : OptimizedTree.t) :
  let index := TreeOptimizer.createIndexes tree in
  let nodes := OptimizedTree.nodes tree in
  (∀ d, Groups.get (TreeIndex.byDepth index) d
        = group_found (ids_where (fun n => bool_decide (TreeNode.depth n = d))
                                 nodes)) ∧
  (∀ p, Groups.get (TreeIndex.byPlayer index) p
        = group_found (ids_where (fun n => bool_decide (TreeNode.player n = p))
                                 nodes)) ∧
  TreeIndex.terminals index = ids_where TreeNode.isTerminal nodes ∧
  TreeIndex.withHandData index = ids_where TreeNode.hasHandData nodes.
Proof.
  simpl. split; [apply createIndexes_byDepth|].
  unfold TreeOptimizer.createIndexes.
  destruct (index_fold (OptimizedTree.nodes tree)
              {| TreeIndex.byDepth := []; TreeIndex.byPlayer := [];
                 TreeIndex.terminals := []; TreeIndex.withHandData := [] |})
    as (_ & -> & -> & ->). simpl.
  split; [|done]. intros p.
  rewrite (groups_fold TreeNode.player). simpl.
  by destruct (ids_where _ _).
Qed.

Lemma ids_where_id (test : TreeNode.t → bool) (entries : JsMap.t TreeNode.t) :
  Forall (fun entry => TreeNode.id entry.2 = entry.1) entries →
  ids_where test entries
  = map TreeNode.id (List.filter test (JsMap.values entries)).
Proof.
  unfold ids_where, JsMap.values.
  induction 1 as [|[k n] entries Hid _ IH]; simpl; [done|].
  simpl in Hid. destruct (test n); simpl; [by rewrite Hid, IH | done].
Qed.

(** X8: on a returned tree the index and the depth query agree: the
    [byDepth] group of a depth lists the [id]s of the nodes
    [getNodesAtDepth] returns for it, in the same order, and the group is
    absent exactly when the query returns no node. *)
Theorem byDepth_lists_getNodesAtDepth (nodes : JsMap.t Raw.Node)
    (stacks : option nat) (now : string) (t : OptimizedTree.t) (d : Z) :
  generateTree nodes stacks now = Some (Returned t) →
  Groups.get (TreeIndex.byDepth (TreeOptimizer.createIndexes t)) d
  = group_found (map TreeNode.id (TreeUtils.getNodesAtDepth t d)).
Proof.
  intros Hgen. apply generateTree_Built in Hgen as Hbuilt.
  rewrite createIndexes_byDepth. unfold TreeUtils.getNodesAtDepth.
  rewrite ids_where_id; [done|].
  apply Forall_forall. intros [k n] Hin.
  destruct (built_key_in_collection _ _ _ _ Hbuilt Hin)
    as (rawNode & par & d' & _ & ->). done.
Qed.

Lemma byDepth_lists_getNodesAtDepth_witness :
  generateTree Examples.diamond None ""
    = Some (Returned (Examples.tree_from Examples.diamond)) ∧
  Groups.get (TreeIndex.byDepth
                (TreeOptimizer.createIndexes
                   (Examples.tree_from Examples.diamond))) 1
  = group_found (map TreeNode.id
                     (TreeUtils.getNodesAtDepth
                        (Examples.tree_from Examples.diamond) 1)).
Proof.
  assert (generateTree Examples.diamond None ""
          = Some (Returned (Examples.tree_from Examples.diamond))) as Hgen
    by (vm_compute; reflexivity).
  split; [exact Hgen|].
  exact (byDepth_lists_getNodesAtDepth _ _ _ _ 1 Hgen).
Defined.

(** ** TreeValidator: what a clean report means *)

Lemma flat_map_nil_iff {A B : Type} (f : A → list B) (l : list A) :
  flat_map f l = [] ↔ Forall (fun x => f x = []) l.
Proof.
  induction l as [|a l IH]; simpl.
  - split; [constructor | done].
  - rewrite Forall_cons, <- IH. split.
    + intros H. by apply app_eq_nil in H.
    + intros [-> ->]. done.
Qed.

Lemma concat_imap_nil_iff {A B : Type} (l : list A) :
  ∀ f : nat → A → list B,
    concat (imap f l) = [] ↔ ∀ i x, l !! i = Some x → f i x = [].
Proof.
  induction l as [|a l IH]; intros f.
  - split; [intros _ i x Hi; done | done].
  - rewrite imap_cons. simpl. split.
    + intros H. apply app_eq_nil in H as [H0 Hrest].
      intros [|i] x Hi; simpl in Hi.
      * by injection Hi as <-.
      * apply (proj1 (IH (f ∘ S)) Hrest i x Hi).
    + intros H. rewrite (H 0%nat a) by done. simpl.
      apply IH. intros i x Hi. apply (H (S i) x Hi).
Qed.

Lemma parent_depth_errors_nil (nodes : JsMap.t TreeNode.t) k n :
  TreeOptimizer.parent_errors nodes k n = [] ∧
  TreeOptimizer.depth_errors nodes k n = [] ↔
  (∀ q, TreeOptimizer.truthy_id (TreeNode.parentId n) = Some q →
        ∃ parent, JsMap.get nodes q = Some parent ∧
                  TreeNode.depth parent + 1 = TreeNode.depth n).
Proof.
  unfold TreeOptimizer.parent_errors, TreeOptimizer.depth_errors, JsMap.has,
    JsObject.read.
  destruct (TreeOptimizer.truthy_id (TreeNode.parentId n)) as [q|].
  - destruct (JsMap.get nodes q) as [parent|] eqn:Hget; split.
    + intros [_ Hd] q' [= <-]. exists parent. split; [done|].
      by case_bool_decide.
    + intros H. destruct (H q eq_refl) as (parent' & Hget' & Hd).
      assert (parent' = parent) as -> by congruence.
      by rewrite bool_decide_eq_true_2.
    + intros [H _]. done.
    + intros H. destruct (H q eq_refl) as (? & Hget' & _). congruence.
  - split; [intros _ q Hq; done | done].
Qed.

Lemma child_errors_nil (nodes : JsMap.t TreeNode.t) k n :
  TreeOptimizer.child_errors nodes k n = [] ↔
  Forall (fun c => JsMap.has nodes c = true) (TreeNode.children n).
Proof.
  unfold TreeOptimizer.child_errors. rewrite flat_map_nil_iff.
  apply Forall_iff. intros c. by destruct (JsMap.has nodes c).
Qed.

Lemma action_errors_nil (nodes : JsMap.t TreeNode.t) k n :
  TreeOptimizer.action_errors nodes k n = [] ↔
  Forall (fun a => truthy (NodeAction.node a) = true →
                   TreeOptimizer.has_target nodes (NodeAction.node a) = true)
         (TreeNode.actions n).
Proof.
  unfold TreeOptimizer.action_errors. rewrite concat_imap_nil_iff.
  rewrite Forall_lookup. apply forall_proper. intros i.
  apply forall_proper. intros a.
  destruct (truthy (NodeAction.node a));
    destruct (TreeOptimizer.has_target nodes (NodeAction.node a)); simpl;
    intuition congruence.
Qed.

Lemma isValid_well_linked (tree : OptimizedTree.t) :
  TreeOptimizer.isValid (TreeOptimizer.validateTree tree) = true ↔
  well_linked tree.
Proof.
  unfold TreeOptimizer.validateTree, well_linked. simpl.
  rewrite bool_decide_eq_true, length_zero_iff_nil.
  split.
  - intros Herr. apply app_eq_nil in Herr as [Hroot Hnodes].
    split.
    + by destruct (JsMap.has (OptimizedTree.nodes tree) (OptimizedTree.root tree)).
    + apply flat_map_nil_iff in Hnodes.
      eapply Forall_impl; [exact Hnodes|]. intros [k n] Hn. simpl in Hn.
      apply app_eq_nil in Hn as [Hp Hn].
      apply app_eq_nil in Hn as [Hc Hn].
      apply app_eq_nil in Hn as [Ha Hd].
      split; [by apply (parent_depth_errors_nil _ k n)|].
      split; [by apply (child_errors_nil _ k n) | by apply (action_errors_nil _ k n)].
  - intros [Hroot Hnodes]. rewrite Hroot. simpl.
    apply flat_map_nil_iff.
    eapply Forall_impl; [exact Hnodes|]. intros [k n] (Hp & Hc & Ha). simpl in *.
    apply (parent_depth_errors_nil _ k n) in Hp as [-> ->].
    apply (child_errors_nil _ k n) in Hc as ->.
    apply (action_errors_nil _ k n) in Ha as ->. done.
Qed.

(** X9: on a tree whose depths are safe integers (where the comparison
    the code makes in binary64 is the comparison of the integers),
    [validateTree] reports the tree valid exactly when the root is a
    node, every non-empty [parentId] names a node whose depth is one less,
    every [children] entry names a node, and every truthy action target is
    a string naming a node; a null or empty [parentId] is never checked. *)
Theorem validateTree_valid_iff (tree : OptimizedTree.t) :
  safe_depths (OptimizedTree.nodes tree) →
  TreeOptimizer.isValid (TreeOptimizer.validateTree tree) = true ↔
  well_linked tree.
Proof. intros _. exact (isValid_well_linked tree). Qed.

Lemma validateTree_valid_iff_witness :
  safe_depths (OptimizedTree.nodes (Examples.tree_from Examples.small)) ∧
  well_linked (Examples.tree_from Examples.small).
Proof.
  assert (safe_depths (OptimizedTree.nodes (Examples.tree_from Examples.small)))
    as Hsafe.
  { apply (bool_decide_unpack _). vm_compute. exact I. }
  split; [exact Hsafe|].
  apply (validateTree_valid_iff _ Hsafe). vm_compute. reflexivity.
Defined.

(** ** TreeOptimizer: compression of a built tree *)

Lemma array_index_digits (k : string) (n : N) :
  JsObject.array_index k = Some n → Number.digits (Z.of_N n) = k.
Proof.
  unfold JsObject.array_index.
  destruct (NilEmpty.uint_of_string k) as [u|]; [|done].
  destruct (bool_decide _ && _) eqn:Hc; [|done].
  intros [= <-]. apply andb_true_iff in Hc as [Hd _].
  by apply bool_decide_eq_true in Hd.
Qed.

Lemma filter_all {A : Type} (P : A → Prop) `{∀ x, Decision (P x)} (l : list A) :
  Forall P l → filter P l = l.
Proof.
  induction 1 as [|a l Ha _ IH]; [done|].
  rewrite filter_cons, decide_True by done. by rewrite IH.
Qed.

Section FromEntriesIdem.
Context {V : Type}.
Implicit Types (m : JsMap.t V).

#[local] Instance index_le_trans : Transitive (@JsObject.index_le V).
Proof. intros x y z. unfold JsObject.index_le. lia. Qed.

#[local] Instance index_le_total : Total (@JsObject.index_le V).
Proof. intros x y. unfold JsObject.index_le. lia. Qed.

Lemma NoDup_keys_entry m k v1 v2 :
  NoDup (JsMap.keys m) → (k, v1) ∈ m → (k, v2) ∈ m → v1 = v2.
Proof.
  intros Hnd H1 H2. apply (elem_get m k v1 Hnd) in H1.
  apply (elem_get m k v2 Hnd) in H2. congruence.
Qed.

(** Enumerating an object's entries and building an object from them
    gives the same enumeration again. *)
Lemma fromEntries_idem m :
  NoDup (JsMap.keys m) →
  JsObject.fromEntries (JsObject.fromEntries m) = JsObject.fromEntries m.
Proof.
  intros Hnd. unfold JsObject.fromEntries.
  set (sorted := merge_sort JsObject.index_le (filter JsObject.is_index m)).
  set (others := filter (fun entry => ¬ JsObject.is_index entry) m).
  assert (sorted ≡ₚ filter JsObject.is_index m) as Hperm
    by apply merge_sort_Permutation.
  assert (Forall JsObject.is_index sorted) as Hsorted.
  { apply Forall_forall. intros x Hx. rewrite Hperm in Hx.
    by apply list_elem_of_filter in Hx as [? _]. }
  assert (Forall (fun entry => ¬ JsObject.is_index entry) others) as Hothers.
  { apply Forall_forall. intros x Hx.
    by apply list_elem_of_filter in Hx as [? _]. }
  rewrite !filter_app.
  rewrite (filter_all _ sorted Hsorted).
  rewrite (filter_all _ others Hothers).
  rewrite (filter_nil_Forall JsObject.is_index others).
  2:{ exact Hothers. }
  rewrite (filter_nil_Forall (fun entry => ¬ JsObject.is_index entry) sorted).
  2:{ eapply Forall_impl; [exact Hsorted|]. intros x Hx Hn. by apply Hn. }
  rewrite app_nil_r. simpl. f_equal.
  apply (Sorted_unique_strong JsObject.index_le).
  - intros x1 x2 H1 H2 Hle1 Hle2.
    rewrite merge_sort_Permutation in H1.
    assert (x1 ∈ m ∧ JsObject.is_index x1) as [Hm1 [n1 Hn1]].
    { rewrite Hperm in H1. by apply list_elem_of_filter in H1 as [? ?]. }
    assert (x2 ∈ m ∧ JsObject.is_index x2) as [Hm2 [n2 Hn2]].
    { rewrite Hperm in H2. by apply list_elem_of_filter in H2 as [? ?]. }
    unfold JsObject.index_le in Hle1, Hle2. rewrite Hn1, Hn2 in Hle1, Hle2.
    simpl in Hle1, Hle2. assert (n1 = n2) as -> by lia.
    apply array_index_digits in Hn1, Hn2.
    destruct x1 as [k1 v1], x2 as [k2 v2]. simpl in *.
    assert (k1 = k2) as -> by congruence.
    f_equal. by eapply NoDup_keys_entry.
  - apply Sorted_merge_sort, _.
  - apply Sorted_merge_sort, _.
  - apply merge_sort_Permutation.
Qed.

Lemma assigned_id (l : JsMap.t V) :
  "__proto__" ∉ JsMap.keys l → assigned l = l.
Proof.
  unfold assigned, JsMap.keys.
  induction l as [|[k v] l IH]; [done|]. cbn [fmap list_fmap fst].
  rewrite not_elem_of_cons. intros [Hk Hl]. cbn [List.filter fst].
  rewrite bool_decide_eq_false_2 by done. simpl. f_equal. by apply IH.
Qed.

Lemma assigned_elem (l : JsMap.t V) entry :
  entry ∈ assigned l ↔ entry ∈ l ∧ entry.1 ≠ "__proto__".
Proof.
  unfold assigned. rewrite !list_elem_of_In, filter_In.
  rewrite negb_true_iff, bool_decide_eq_false. done.
Qed.

Lemma assigned_keys_sublist (l : JsMap.t V) :
  JsMap.keys (assigned l) `sublist_of` JsMap.keys l.
Proof.
  unfold assigned, JsMap.keys.
  induction l as [|[k v] l IH]; [done|]. cbn [List.filter fst].
  destruct (negb _); cbn [fmap list_fmap fst].
  - by apply sublist_skip.
  - by apply sublist_cons.
Qed.

Lemma assigned_NoDup (l : JsMap.t V) :
  NoDup (JsMap.keys l) → NoDup (JsMap.keys (assigned l)).
Proof. intros Hnd. eapply sublist_NoDup; [exact Hnd | apply assigned_keys_sublist]. Qed.

Lemma assigned_keys (l : JsMap.t V) :
  JsMap.keys (assigned l)
  = List.filter (fun k => negb (bool_decide (k = "__proto__"))) (JsMap.keys l).
Proof.
  unfold assigned, JsMap.keys.
  induction l as [|[k v] l IH]; [done|].
  cbn [List.filter fmap list_fmap fst].
  destruct (negb _); cbn [fmap list_fmap fst]; by rewrite IH.
Qed.

Lemma assigned_get (l : JsMap.t V) k :
  k ≠ "__proto__" → JsMap.get (assigned l) k = JsMap.get l k.
Proof.
  intros Hk. unfold assigned.
  induction l as [|[k' v] l IH]; [done|]. cbn [List.filter fst].
  case_bool_decide as Hp; simpl.
  - subst k'. by rewrite bool_decide_eq_false_2 by done.
  - by rewrite IH.
Qed.

(** Assigning the images of the entries of [l], one by one, to a fresh
    object. *)
Lemma fold_assign_map {W : Type} (f : V → W) (l : JsMap.t V) :
  NoDup (JsMap.keys l) →
  fold_left (fun acc entry => JsObject.assign acc entry.1 (f entry.2)) l []
  = map (fun entry => (entry.1, f entry.2)) (assigned l).
Proof.
  assert (∀ (acc : JsMap.t W),
            NoDup (JsMap.keys acc ++ JsMap.keys l)%list →
            fold_left (fun acc entry => JsObject.assign acc entry.1 (f entry.2))
                      l acc
            = (acc ++ map (fun entry => (entry.1, f entry.2)) (assigned l))%list)
    as Hfold.
  { induction l as [|[k v] l IH]; intros acc Hnd.
    - simpl. by rewrite app_nil_r.
    - cbn [fold_left]. unfold JsObject.assign at 2, assigned.
      cbn [List.filter fst snd].
      assert (NoDup (JsMap.keys acc ++ JsMap.keys l)%list) as Hrest.
      { eapply sublist_NoDup; [exact Hnd|].
        apply sublist_app; [done|]. by apply sublist_cons. }
      case_bool_decide as Hp; simpl.
      + by apply IH.
      + assert (k ∉ JsMap.keys acc) as Hfresh.
        { apply NoDup_app in Hnd as (_ & Hdisj & _). intros Hk.
          apply (Hdisj k Hk). left. }
        rewrite set_fresh by done. rewrite IH.
        * by rewrite <- app_assoc.
        * rewrite keys_app. simpl. rewrite <- app_assoc. done. }
  intros Hnd. by rewrite Hfold.
Qed.
End FromEntriesIdem.

Lemma compressSequence_id (sequence : list ActionSequence.t) :
  TreeOptimizer.compressSequence sequence = sequence.
Proof.
  unfold TreeOptimizer.compressSequence.
  induction sequence as [|[] sequence IH]; simpl; [done|]. by rewrite IH.
Qed.

Lemma compressActions_copy (actions : list Raw.Action) :
  TreeOptimizer.compressActions (map copy_action actions)
  = map copy_action actions.
Proof.
  unfold TreeOptimizer.compressActions.
  induction actions as [|action actions IH]; simpl; [done|].
  rewrite IH. f_equal. unfold copy_action. simpl.
  destruct (truthy (Raw.node action)) eqn:Ht; simpl; [by rewrite Ht | done].
Qed.

Lemma compress_node_make nodeId parentId depth rawNode :
  TreeOptimizer.compress_node (make_node nodeId parentId depth rawNode)
  = make_node nodeId parentId depth rawNode.
Proof.
  unfold TreeOptimizer.compress_node. simpl.
  by rewrite compressSequence_id, compressActions_copy.
Qed.

Lemma generateTree_nodes (nodes : JsMap.t Raw.Node) (stacks : option nat)
    (now : string) (t : OptimizedTree.t) :
  generateTree nodes stacks now = Some (Returned t) →
  ∃ processed,
    build nodes (OptimizedTree.root t) = Some processed ∧
    OptimizedTree.nodes t = JsObject.fromEntries processed ∧
    NoDup (JsMap.keys processed) ∧
    OptimizedTree.metadata t
    = {| TreeMetadata.totalNodes := JsMap.size processed;
         TreeMetadata.terminalNodes :=
           length (List.filter TreeNode.isTerminal (JsMap.values processed));
         TreeMetadata.generatedAt := now;
         TreeMetadata.version := "1.0.0" |}.
Proof.
  intros Hgen. apply generateTree_Built in Hgen as Hbuilt.
  unfold generateTree in Hgen.
  destruct (findRootNode nodes) as [rootId|] eqn:Hroot; [|done].
  destruct (build nodes rootId) as [processed|] eqn:Hbuild; [|done].
  simpl in Hgen. injection Hgen as <-. simpl.
  exists processed. split; [done|]. split; [done|]. split; [|done].
  pose proof (built_NoDup _ _ Hbuilt) as Hnd. simpl in Hnd.
  by rewrite fromEntries_keys in Hnd.
Qed.

Lemma compress_entries_ok (nodes : JsMap.t Raw.Node)
    (entries : JsMap.t TreeNode.t) :
  Forall (node_ok nodes) entries →
  map (fun entry => (entry.1, TreeOptimizer.compress_node entry.2)) entries
  = entries.
Proof.
  induction 1 as [|[k n] l (rawNode & par & d & _ & Hn) _ IH]; simpl; [done|].
  simpl in Hn. rewrite IH. f_equal. rewrite Hn.
  by rewrite compress_node_make.
Qed.

(** X10: [compressTree] leaves a tree returned by [generateTree] as it
    is when none of its nodes is named "__proto__", for sequence entries
    of the declared four-field type: the builder already drops falsy
    action targets and every action field but three, so there is nothing
    left to remove. *)
Theorem compressTree_built_tree (nodes : JsMap.t Raw.Node)
    (stacks : option nat) (now : string) (t : OptimizedTree.t) :
  generateTree nodes stacks now = Some (Returned t) →
  "__proto__" ∉ JsMap.keys (OptimizedTree.nodes t) →
  TreeOptimizer.compressTree t = t.
Proof.
  intros Hgen Hplain. apply generateTree_Built in Hgen as Hbuilt.
  destruct (generateTree_nodes _ _ _ _ Hgen) as (processed & _ & Hnodes & Hnd & _).
  unfold TreeOptimizer.compressTree.
  rewrite (fold_assign_map TreeOptimizer.compress_node) by apply Hbuilt.
  rewrite assigned_id by done.
  assert (map (fun entry => (entry.1, TreeOptimizer.compress_node entry.2))
              (OptimizedTree.nodes t) = OptimizedTree.nodes t) as ->.
  { apply compress_entries_ok with (nodes := nodes). apply Hbuilt. }
  rewrite Hnodes, fromEntries_idem by done. rewrite <- Hnodes.
  by destruct t.
Qed.

Lemma compressTree_built_tree_witness :
  generateTree Examples.chain None ""
    = Some (Returned (Examples.tree_from Examples.chain)) ∧
  TreeOptimizer.compressTree (Examples.tree_from Examples.chain)
  = Examples.tree_from Examples.chain.
Proof.
  assert (generateTree Examples.chain None ""
          = Some (Returned (Examples.tree_from Examples.chain))) as Hgen
    by (vm_compute; reflexivity).
  split; [exact Hgen|]. apply (compressTree_built_tree _ _ _ _ Hgen).
  apply (proj1 (bool_decide_eq_false _)). vm_compute. reflexivity.
Defined.

(** ** ShortestPathFinder: what a search returns *)



(** ** Built trees: every node is found from the root *)

Lemma built_children_targets (nodes : JsMap.t Raw.Node) (t : OptimizedTree.t)
    k n :
  Built nodes t → (k, n) ∈ OptimizedTree.nodes t →
  TreeNode.children n = string_targets (TreeNode.actions n).
Proof.
  intros Hbuilt Hin.
  destruct (built_key_in_collection _ _ _ _ Hbuilt Hin)
    as (rawNode & par & d & _ & ->).
  simpl. by rewrite copy_action_targets.
Qed.

Lemma built_walk (nodes : JsMap.t Raw.Node) (t : OptimizedTree.t) :
  Built nodes t →
  ∀ (steps : nat) k n,
    (k, n) ∈ OptimizedTree.nodes t → TreeNode.depth n = Z.of_nat steps →
    ∃ p, walk (OptimizedTree.nodes t) (OptimizedTree.root t) k p ∧
         length p = S steps.
Proof.
  intros Hbuilt. induction steps as [|steps IH]; intros k n Hin Hdepth.
  - destruct (built_cases _ _ Hbuilt k n Hin)
      as [(-> & _)|(_ & q & pn & _ & _ & _ & Hd & Hpos)]; [|lia].
    exists [OptimizedTree.root t]. split; [apply walk_start | done].
  - destruct (built_cases _ _ Hbuilt k n Hin)
      as [(_ & _ & Hzero)|(_ & q & pn & Hpar & Hget & Hchild & Hd & _)]; [lia|].
    destruct (IH q pn) as (p & Hwalk & Hlen);
      [by apply get_Some_elem | lia |].
    exists (p ++ [k])%list. split.
    + apply walk_step with (v := q); [done|]. by exists pn.
    + rewrite length_app. simpl. lia.
Qed.

(** The proviso of the next two statements is needed: the tree built from
    [Examples.shadowed] keeps the dangling child "toString"; the navigator
    leads from the root to "b", but the search for "b" shifts "toString"
    first and ends with a [TypeError]. *)
Example dangling_inherited_child :
  TreeNavigator.navigateByPath
    (TreeNavigator.new (Examples.tree_from Examples.shadowed)) "0" ["F"]
  = Some (StrTarget "b") ∧
  TreeUtils.findShortestPath (Examples.tree_from Examples.shadowed) "0" "b"
  = Some TypeError.
Proof. split; vm_compute; reflexivity. Qed.

(** X12: in a returned tree [findShortestPath] from the root to a node
    returns a path, and the path has at most as many steps as the node's
    [depth], provided the search can reach no identifier, other than the
    node, that is no key of the tree and names a member of
    [Object.prototype] (a dangling child so named). *)
Theorem findShortestPath_from_root (nodes : JsMap.t Raw.Node)
    (stacks : option nat) (now : string) (t : OptimizedTree.t) k n :
  generateTree nodes stacks now = Some (Returned t) →
  (k, n) ∈ OptimizedTree.nodes t →
  ¬ reaches_inherited (OptimizedTree.nodes t) (OptimizedTree.root t) k →
  ∃ found,
    TreeUtils.findShortestPath t (OptimizedTree.root t) k
    = Some (Normal (Some found)) ∧
    Z.of_nat (length found) <= TreeNode.depth n + 1.
Proof.
  intros Hgen Hin Hplain. apply generateTree_Built in Hgen as Hbuilt.
  pose proof (built_depth _ _ Hbuilt) as Hd. rewrite Forall_forall in Hd.
  specialize (Hd _ Hin). simpl in Hd.
  destruct (built_walk _ _ Hbuilt (Z.to_nat (TreeNode.depth n)) k n Hin)
    as (p & Hwalk & Hlen); [lia|].
  apply walk_child_path in Hwalk.
  destruct (findShortestPath_complete _ _ _ _ Hplain Hwalk)
    as (found & Hrun & Hle).
  exists found. split; [done | lia].
Qed.

Lemma findShortestPath_from_root_witness :
  ∃ n found,
    generateTree Examples.chain None ""
      = Some (Returned (Examples.tree_from Examples.chain)) ∧
    ("B", n) ∈ OptimizedTree.nodes (Examples.tree_from Examples.chain) ∧
    TreeUtils.findShortestPath
      (Examples.tree_from Examples.chain)
      (OptimizedTree.root (Examples.tree_from Examples.chain)) "B"
    = Some (Normal (Some found)) ∧
    Z.of_nat (length found) <= TreeNode.depth n + 1.
Proof.
  assert (generateTree Examples.chain None ""
          = Some (Returned (Examples.tree_from Examples.chain))) as Hgen
    by (vm_compute; reflexivity).
  destruct (JsMap.get (OptimizedTree.nodes (Examples.tree_from Examples.chain))
                      "B") as [n|] eqn:Hget; [|vm_compute in Hget; discriminate].
  assert (("B", n) ∈ OptimizedTree.nodes (Examples.tree_from Examples.chain))
    as Hin by (by apply get_Some_elem).
  assert (¬ reaches_inherited
              (OptimizedTree.nodes (Examples.tree_from Examples.chain))
              (OptimizedTree.root (Examples.tree_from Examples.chain)) "B")
    as Hplain.
  { apply closed_search_plain; [vm_compute; reflexivity|].
    vm_compute. discriminate. }
  destruct (findShortestPath_from_root _ _ _ _ _ _ Hgen Hin Hplain)
    as (found & Hrun & Hle).
  exists n, found. auto.
Defined.

(** ** Navigator: following action types *)

Lemma navigate_app (cache : JsMap.t TreeNode.t) (p q : list string) :
  ∀ current,
    TreeNavigator.navigate cache current (p ++ q)
    = TreeNavigator.navigate cache current p
        ≫= fun mid => TreeNavigator.navigate cache mid q.
Proof.
  induction p as [|actionType p IH]; intros current; simpl; [done|].
  destruct (TreeNavigator.cache_get cache current) as [node|]; [|done].
  destruct (List.find _ (TreeNode.actions node)) as [action|]; [|done].
  apply IH.
Qed.

(** X13: navigation composes: when the action types [p] lead from
    [startNodeId] to the string identifier [mid], following [p ++ q] from
    [startNodeId] gives what following [q] from [mid] gives; when [p]
    fails, so does [p ++ q]; and the empty list returns [startNodeId]
    itself, known or not. *)
Theorem navigateByPath_composes (nav : TreeNavigator.t)
    (startNodeId : string) (p q : list string) :
  (∀ mid, TreeNavigator.navigateByPath nav startNodeId p = Some (StrTarget mid) →
          TreeNavigator.navigateByPath nav startNodeId (p ++ q)
          = TreeNavigator.navigateByPath nav mid q) ∧
  (TreeNavigator.navigateByPath nav startNodeId p = None →
   TreeNavigator.navigateByPath nav startNodeId (p ++ q) = None) ∧
  TreeNavigator.navigateByPath nav startNodeId [] = Some (StrTarget startNodeId).
Proof.
  unfold TreeNavigator.navigateByPath. rewrite navigate_app.
  split; [|split; [|done]].
  - intros mid ->. done.
  - intros ->. done.
Qed.

Lemma navigateByPath_composes_witness :
  let nav := TreeNavigator.new (Examples.tree_from Examples.chain) in
  TreeNavigator.navigateByPath nav "0" ["C"] = Some (StrTarget "A") ∧
  TreeNavigator.navigateByPath nav "0" (["C"] ++ ["R"])
  = TreeNavigator.navigateByPath nav "A" ["R"].
Proof.
  intros nav.
  assert (TreeNavigator.navigateByPath nav "0" ["C"] = Some (StrTarget "A"))
    as H by (vm_compute; reflexivity).
  split; [exact H|].
  exact (proj1 (navigateByPath_composes nav "0" ["C"] ["R"]) "A" H).
Defined.

Lemma string_targets_elem (actions : list NodeAction.t) (c : string) :
  c ∈ string_targets actions ↔
  ∃ a, a ∈ actions ∧ NodeAction.node a = StrTarget c.
Proof.
  unfold string_targets. rewrite elem_of_flat_map. split.
  - intros (a & Ha & Hc). exists a. split; [done|].
    destruct (NodeAction.node a); try (by apply elem_of_nil in Hc).
    apply list_elem_of_singleton in Hc. by subst.
  - intros (a & Ha & Hnode). exists a. split; [done|]. rewrite Hnode. left.
Qed.

Lemma find_some_elem {A : Type} (f : A → bool) (l : list A) (x : A) :
  List.find f l = Some x → x ∈ l ∧ f x = true.
Proof.
  intros (pre & post & -> & Hx & _)%find_split. split; [|done].
  apply elem_of_app. right. left.
Qed.

Lemma navigate_walk (nodes : JsMap.t Raw.Node) (t : OptimizedTree.t)
    (startNodeId : string) :
  Built nodes t →
  ∀ actionTypes c p r,
    walk (OptimizedTree.nodes t) startNodeId c p →
    TreeNavigator.navigate (OptimizedTree.nodes t) (StrTarget c) actionTypes
    = Some (StrTarget r) →
    ∃ p', walk (OptimizedTree.nodes t) startNodeId r p' ∧
          length p' = (length p + length actionTypes)%nat.
Proof.
  intros Hbuilt.
  induction actionTypes as [|actionType rest IH]; intros c p r Hwalk; simpl.
  - intros [= <-]. exists p. split; [done | lia].
  - destruct (JsMap.get (OptimizedTree.nodes t) c) as [node|] eqn:Hget; [|done].
    destruct (List.find _ (TreeNode.actions node)) as [action|] eqn:Hfind;
      [|done].
    apply find_some_elem in Hfind as [Haction Htest].
    destruct (NodeAction.node action) as [|c'|z] eqn:Hnode.
    + apply andb_true_iff in Htest as [_ Ht]. done.
    + intros Hrest.
      assert (child_link (OptimizedTree.nodes t) c c') as Hlink.
      { exists node. split; [done|].
        rewrite (built_children_targets _ _ c node Hbuilt)
          by (by apply get_Some_elem).
        apply string_targets_elem. by exists action. }
      destruct (IH c' (p ++ [c'])%list r (walk_step _ _ _ _ _ Hwalk Hlink) Hrest)
        as (p' & Hwalk' & Hlen).
      exists p'. split; [done|]. rewrite length_app in Hlen. simpl in Hlen. lia.
    + destruct rest; simpl; [intros [=] | done].
Qed.

(** X14: on a returned tree a navigation follows child links: when n
    action types lead from a node to a string identifier, a path of n + 1
    identifiers joins them along child links; and [findShortestPath]
    between the two returns a path of at most n + 1 identifiers, provided
    the search can reach no identifier, other than the target, that is no
    key of the tree and names a member of [Object.prototype]. *)
Theorem navigateByPath_follows_children (nodes : JsMap.t Raw.Node)
    (stacks : option nat) (now : string) (t : OptimizedTree.t)
    (startNodeId target : string) (actionTypes : list string) :
  generateTree nodes stacks now = Some (Returned t) →
  TreeNavigator.navigateByPath (TreeNavigator.new t) startNodeId actionTypes
  = Some (StrTarget target) →
  (∃ path, child_path (OptimizedTree.nodes t) startNodeId target path ∧
           length path = S (length actionTypes)) ∧
  (¬ reaches_inherited (OptimizedTree.nodes t) startNodeId target →
   ∃ found,
     TreeUtils.findShortestPath t startNodeId target
     = Some (Normal (Some found)) ∧
     (length found <= S (length actionTypes))%nat).
Proof.
  intros Hgen Hnav. apply generateTree_Built in Hgen as Hbuilt.
  unfold TreeNavigator.navigateByPath in Hnav. simpl in Hnav.
  rewrite (buildCache_NoDup t (built_NoDup _ _ Hbuilt)) in Hnav.
  destruct (navigate_walk _ _ startNodeId Hbuilt actionTypes startNodeId
              [startNodeId] target (walk_start _ _) Hnav)
    as (path & Hwalk & Hlen).
  simpl in Hlen. apply walk_child_path in Hwalk.
  split; [by exists path|]. intros Hplain.
  destruct (findShortestPath_complete _ _ _ _ Hplain Hwalk)
    as (found & Hrun & Hle).
  exists found. split; [done | lia].
Qed.

Lemma navigateByPath_follows_children_witness :
  generateTree Examples.chain None ""
    = Some (Returned (Examples.tree_from Examples.chain)) ∧
  TreeNavigator.navigateByPath
    (TreeNavigator.new (Examples.tree_from Examples.chain)) "0" ["C"; "R"]
  = Some (StrTarget "B") ∧
  ∃ found,
    TreeUtils.findShortestPath (Examples.tree_from Examples.chain) "0" "B"
    = Some (Normal (Some found)) ∧
    (length found <= 3)%nat.
Proof.
  assert (generateTree Examples.chain None ""
          = Some (Returned (Examples.tree_from Examples.chain))) as Hgen
    by (vm_compute; reflexivity).
  assert (TreeNavigator.navigateByPath
            (TreeNavigator.new (Examples.tree_from Examples.chain)) "0" ["C"; "R"]
          = Some (StrTarget "B")) as Hnav by (vm_compute; reflexivity).
  split; [exact Hgen|]. split; [exact Hnav|].
  apply (proj2 (navigateByPath_follows_children _ _ _ _ _ _ _ Hgen Hnav)).
  apply closed_search_plain; [vm_compute; reflexivity|].
  vm_compute. discriminate.
Defined.

(** ** Navigator: terminal enumeration *)

Section TraverseFacts.
Variable cache : JsMap.t TreeNode.t.
Implicit Types (state : gset string * list string).

Lemma traversed_nil state : traversed cache [] state state.
Proof.
  exists []. rewrite app_nil_r. repeat split; try done.
  - intros c Hc. by apply elem_of_nil in Hc.
  - constructor.
  - by apply elem_of_nil in H.
  - by apply elem_of_nil in H.
  - by apply elem_of_nil in H.
Qed.

Lemma traversed_visited nodeId state :
  nodeId ∈ state.1 → traversed cache [nodeId] state state.
Proof.
  intros Hin. exists []. rewrite app_nil_r. repeat split; try done.
  - intros c ->%list_elem_of_singleton. done.
  - constructor.
  - by apply elem_of_nil in H.
  - by apply elem_of_nil in H.
  - by apply elem_of_nil in H.
Qed.

Lemma traversed_unknown nodeId visited terminals :
  nodeId ∉ visited → JsMap.get cache nodeId = None →
  traversed cache [nodeId] (visited, terminals)
            ({[nodeId]} ∪ visited, terminals).
Proof.
  intros Hfresh Hnone. exists []. simpl. rewrite app_nil_r.
  split; [done|]. split; [apply union_subseteq_r|].
  split.
  { intros c ->%list_elem_of_singleton.
    by apply elem_of_union_l, elem_of_singleton. }
  split; [constructor|]. split.
  { intros k Hk. by apply elem_of_nil in Hk. }
  intros v [->%elem_of_singleton|Hv]%elem_of_union Hnot; [|done].
  split; [|split].
  - exists nodeId. split; [left | done].
  - intros (node & Hget & _). congruence.
  - intros b (node & Hget & _). congruence.
Qed.

Lemma traversed_terminal nodeId node visited terminals :
  nodeId ∉ visited → JsMap.get cache nodeId = Some node →
  TreeNode.isTerminal node = true →
  traversed cache [nodeId] (visited, terminals)
            ({[nodeId]} ∪ visited, (terminals ++ [nodeId])%list).
Proof.
  intros Hfresh Hget Hterm. exists [nodeId]. simpl.
  split; [done|]. split; [apply union_subseteq_r|].
  split.
  { intros c ->%list_elem_of_singleton.
    by apply elem_of_union_l, elem_of_singleton. }
  split; [apply NoDup_singleton|]. split.
  { intros k ->%list_elem_of_singleton.
    split; [by apply elem_of_union_l, elem_of_singleton|].
    split; [done|]. by exists node. }
  intros v [->%elem_of_singleton|Hv]%elem_of_union Hnot; [|done].
  split; [|split].
  - exists nodeId. split; [left | done].
  - intros _. left.
  - intros b (node' & Hget' & Hnt & _). congruence.
Qed.

Lemma traversed_cons c cs state0 state1 state2 :
  traversed cache [c] state0 state1 → traversed cache cs state1 state2 →
  traversed cache (c :: cs) state0 state2.
Proof.
  intros (new1 & Ht1 & Hsub1 & Hroot1 & Hnd1 & Hnew1 & Hcl1)
         (new2 & Ht2 & Hsub2 & Hroot2 & Hnd2 & Hnew2 & Hcl2).
  exists (new1 ++ new2)%list.
  split; [by rewrite Ht2, Ht1, app_assoc|].
  split; [by etrans|].
  split.
  { intros c' [->|Hc']%elem_of_cons.
    - apply Hsub2, Hroot1. left.
    - by apply Hroot2. }
  split.
  { apply NoDup_app. split; [done|]. split; [|done].
    intros k Hk1 Hk2. destruct (Hnew1 k Hk1) as (Hin & _).
    destruct (Hnew2 k Hk2) as (_ & Hout & _). done. }
  split.
  { intros k [Hk|Hk]%elem_of_app.
    - destruct (Hnew1 k Hk) as (Hin & Hout & Hterm).
      split; [by apply Hsub2 | done].
    - destruct (Hnew2 k Hk) as (Hin & Hout & Hterm).
      split; [done|]. split; [|done]. intros H0. apply Hout. by apply Hsub1. }
  intros v Hv Hnot.
  destruct (decide (v ∈ state1.1)) as [Hv1|Hv1].
  - destruct (Hcl1 v Hv1 Hnot) as ((c' & Hc' & Hreach) & Hterm & Hexp).
    apply list_elem_of_singleton in Hc'. subst c'.
    split; [|split].
    + exists c. split; [left | done].
    + intros Ht. apply elem_of_app. left. by apply Hterm.
    + intros b Hb. by apply Hsub2, Hexp.
  - destruct (Hcl2 v Hv Hv1) as ((c' & Hc' & Hreach) & Hterm & Hexp).
    split; [|split].
    + exists c'. split; [by right | done].
    + intros Ht. apply elem_of_app. right. by apply Hterm.
    + done.
Qed.

Lemma traversed_node nodeId node visited terminals state' :
  nodeId ∉ visited → JsMap.get cache nodeId = Some node →
  TreeNode.isTerminal node = false →
  traversed cache (TreeNode.children node) ({[nodeId]} ∪ visited, terminals)
            state' →
  traversed cache [nodeId] (visited, terminals) state'.
Proof.
  intros Hfresh Hget Hnt (new & Ht & Hsub & Hroot & Hnd & Hnew & Hcl).
  simpl in *. exists new.
  split; [done|].
  split; [etrans; [apply union_subseteq_r | exact Hsub]|].
  split.
  { intros c ->%list_elem_of_singleton.
    by apply Hsub, elem_of_union_l, elem_of_singleton. }
  split; [done|]. split.
  { intros k Hk. destruct (Hnew k Hk) as (Hin & Hout & Hterm).
    split; [done|]. split; [|done]. intros H0. apply Hout.
    by apply elem_of_union_r. }
  intros v Hv Hnot.
  destruct (decide (v = nodeId)) as [->|Hne].
  - split; [|split].
    + exists nodeId. split; [left | done].
    + intros (node' & Hget' & Hterm). congruence.
    + intros b (node' & Hget' & _ & Hb).
      assert (node' = node) as -> by congruence. by apply Hroot.
  - assert (v ∉ {[nodeId]} ∪ visited) as Hnot'.
    { intros [?%elem_of_singleton|?]%elem_of_union; done. }
    destruct (Hcl v Hv Hnot') as ((c & Hc & Hreach) & Hterm & Hexp).
    split; [|done].
    exists nodeId. split; [left|].
    eapply rtc_l; [|exact Hreach]. by exists node.
Qed.

Lemma traverse_traversed fuel :
  ∀ nodeId state state',
    TreeNavigator.traverse fuel cache nodeId state = Some state' →
    traversed cache [nodeId] state state'.
Proof.
  induction fuel as [|fuel IH]; intros nodeId [visited terminals] state';
    [done|].
  assert (∀ cs state0,
    fold_left (fun acc childId => acc ≫= TreeNavigator.traverse fuel cache childId)
              cs (Some state0) = Some state' →
    traversed cache cs state0 state') as Hchildren.
  { induction cs as [|c cs IHcs]; intros state0; simpl.
    - intros [= <-]. apply traversed_nil.
    - destruct (TreeNavigator.traverse fuel cache c state0) as [state1|] eqn:Hc.
      + intros Hrest. eapply traversed_cons; [by apply IH | by apply IHcs].
      + by rewrite fold_bind_None. }
  cbn [TreeNavigator.traverse].
  case_bool_decide as Hv.
  { intros [= <-]. by apply traversed_visited. }
  destruct (JsMap.get cache nodeId) as [node|] eqn:Hget.
  2:{ intros [= <-]. by apply traversed_unknown. }
  destruct (TreeNode.isTerminal node) eqn:Hterm.
  { intros [= <-]. by eapply traversed_terminal. }
  intros Hfold. eapply traversed_node; [done | done | done |].
  by apply Hchildren.
Qed.

Lemma unvisited_mono (visited visited' : gset string) :
  visited ⊆ visited' → (unvisited cache visited' <= unvisited cache visited)%nat.
Proof.
  intros Hsub. apply filter_length_le. intros k Hk Hin. apply Hk.
  by apply Hsub.
Qed.

Lemma unvisited_visit nodeId (visited : gset string) :
  nodeId ∈ JsMap.keys cache → nodeId ∉ visited →
  (unvisited cache ({[nodeId]} ∪ visited) < unvisited cache visited)%nat.
Proof.
  intros Hin Hfresh. apply (filter_length_lt _ _ _ nodeId); [|done|done|].
  - intros k Hk Hv. apply Hk. by apply elem_of_union_r.
  - intros Hk. apply Hk. by apply elem_of_union_l, elem_of_singleton.
Qed.

Lemma traverse_fuel fuel :
  ∀ nodeId state,
    (unvisited cache state.1 < fuel)%nat →
    is_Some (TreeNavigator.traverse fuel cache nodeId state).
Proof.
  induction fuel as [|fuel IH]; intros nodeId [visited terminals] Hfuel;
    [simpl in Hfuel; lia|].
  cbn [TreeNavigator.traverse]. simpl in Hfuel.
  case_bool_decide as Hv; [eauto|].
  destruct (JsMap.get cache nodeId) as [node|] eqn:Hget; [|eauto].
  destruct (TreeNode.isTerminal node); [eauto|].
  assert (nodeId ∈ JsMap.keys cache) as Hin by (apply get_is_Some_keys; eauto).
  pose proof (unvisited_visit nodeId visited Hin Hv) as Hless.
  assert (unvisited cache ({[nodeId]} ∪ visited, terminals).1 < fuel)%nat
    as Hfuel' by (simpl; lia).
  revert Hfuel'. clear Hless.
  generalize ({[nodeId]} ∪ visited, terminals) as state0.
  generalize (TreeNode.children node) as cs.
  induction cs as [|c cs IHcs]; intros state0 Hstate0; simpl; [eauto|].
  destruct (IH c state0 Hstate0) as [state1 Hcall].
  rewrite Hcall. simpl. apply IHcs.
  apply traverse_traversed in Hcall as (new & _ & Hsub & _).
  pose proof (unvisited_mono _ _ Hsub). lia.
Qed.
End TraverseFacts.

(** X15: [getTerminalNodes] always ends, lists no identifier twice, and
    lists exactly the cached nodes flagged terminal that are reached from
    [startNodeId] through nodes not flagged terminal, following
    [children]. *)
Theorem getTerminalNodes_lists_reachable_terminals (nav : TreeNavigator.t)
    (startNodeId : string) :
  ∃ terminals,
    TreeNavigator.getTerminalNodes nav startNodeId = Some terminals ∧
    NoDup terminals ∧
    ∀ k, k ∈ terminals ↔
         terminal_at (TreeNavigator.nodeCache nav) k ∧
         rtc (expands (TreeNavigator.nodeCache nav)) startNodeId k.
Proof.
  unfold TreeNavigator.getTerminalNodes.
  set (cache := TreeNavigator.nodeCache nav).
  destruct (traverse_fuel cache (S (length cache)) startNodeId (∅, []))
    as [[visited terminals] Hrun].
  { simpl. unfold unvisited. apply Nat.lt_succ_r.
    etrans; [apply length_filter|].
    unfold JsMap.keys. by rewrite length_fmap. }
  rewrite Hrun. simpl. exists terminals. split; [done|].
  apply traverse_traversed in Hrun
    as (new & Ht & _ & Hroot & Hnd & Hnew & Hcl).
  simpl in *. subst terminals.
  split; [done|]. intros k. split.
  - intros Hk. destruct (Hnew k Hk) as (Hin & Hout & Hterm).
    split; [done|].
    destruct (Hcl k Hin Hout) as ((c & ->%list_elem_of_singleton & Hreach) & _).
    done.
  - intros [Hterm Hreach].
    assert (∀ v, rtc (expands cache) startNodeId v → v ∈ visited) as Hall.
    { apply rtc_ind_r.
      - apply Hroot. left.
      - intros a b _ Hexp Ha.
        destruct (Hcl a Ha (not_elem_of_empty a)) as (_ & _ & Hexp').
        by apply Hexp'. }
    destruct (Hcl k (Hall k Hreach) (not_elem_of_empty k)) as (_ & Hnew' & _).
    by apply Hnew'.
Qed.

(** ** Navigator: the breadcrumb trail of a built tree *)

Lemma built_key_nonempty (nodes : JsMap.t Raw.Node) (t : OptimizedTree.t) k n :
  Built nodes t → OptimizedTree.root t ≠ "" →
  (k, n) ∈ OptimizedTree.nodes t → k ≠ "".
Proof.
  intros Hbuilt Hroot Hin.
  destruct (built_cases _ _ Hbuilt k n Hin)
    as [(-> & _)|(_ & q & pn & _ & Hget & Hchild & _)]; [done|].
  apply get_Some_elem in Hget.
  destruct (built_key_in_collection _ _ _ _ Hbuilt Hget)
    as (rawNode & par & d & _ & ->).
  simpl in Hchild. by apply children_of_elem in Hchild as (_ & _ & _ & ?).
Qed.

Lemma find_target_is (actions : list NodeAction.t) (k : string) :
  k ∈ string_targets actions →
  is_Some (List.find (fun a => target_is (NodeAction.node a) k) actions).
Proof.
  intros (a & Ha & Hnode)%string_targets_elem.
  destruct (List.find _ actions) as [a'|] eqn:Hfind; [eauto|].
  apply find_None_Forall in Hfind. rewrite Forall_forall in Hfind.
  specialize (Hfind a Ha). simpl in Hfind. rewrite Hnode in Hfind. simpl in Hfind.
  by rewrite bool_decide_eq_true_2 in Hfind.
Qed.

Lemma breadcrumbs_loop_built (nodes : JsMap.t Raw.Node) (t : OptimizedTree.t) :
  Built nodes t → OptimizedTree.root t ≠ "" →
  ∀ (steps fuel : nat) k n breadcrumbs,
    (k, n) ∈ OptimizedTree.nodes t → TreeNode.depth n = Z.of_nat steps →
    (steps <= fuel)%nat →
    ∃ rootNode crumbs,
      TreeNavigator.breadcrumbs_loop fuel (OptimizedTree.nodes t) (Some n)
                                     breadcrumbs
      = Some (Some rootNode, (crumbs ++ breadcrumbs)%list) ∧
      length crumbs = steps ∧
      (OptimizedTree.root t, rootNode) ∈ OptimizedTree.nodes t ∧
      TreeNode.parentId rootNode = None.
Proof.
  intros Hbuilt Hroot.
  induction steps as [|steps IH]; intros fuel k n breadcrumbs Hin Hdepth Hfuel.
  - destruct (built_cases _ _ Hbuilt k n Hin)
      as [(-> & Hnone & _)|(_ & q & pn & _ & _ & _ & Hd & Hpos)]; [|lia].
    exists n, []. split; [|done].
    destruct fuel; cbn [TreeNavigator.breadcrumbs_loop]; by rewrite Hnone.
  - destruct (built_cases _ _ Hbuilt k n Hin)
      as [(_ & _ & Hzero)|(_ & q & pn & Hpar & Hget & Hchild & Hd & _)]; [lia|].
    destruct fuel as [|fuel]; [lia|].
    assert ((q, pn) ∈ OptimizedTree.nodes t) as Hq by (by apply get_Some_elem).
    assert (q ≠ "") as Hqne by (by eapply built_key_nonempty).
    cbn [TreeNavigator.breadcrumbs_loop]. rewrite Hpar. simpl.
    rewrite bool_decide_eq_false_2 by done. rewrite Hget.
    assert (TreeNode.id n = k) as Hid.
    { by destruct (built_key_in_collection _ _ _ _ Hbuilt Hin)
        as (rawNode & par & d & _ & ->). }
    rewrite Hid.
    rewrite (built_children_targets _ _ q pn Hbuilt Hq) in Hchild.
    destruct (find_target_is _ _ Hchild) as [action ->].
    destruct (IH fuel q pn
                ({| BreadcrumbItem.nodeId := q;
                    BreadcrumbItem.label :=
                      formatActionLabel (NodeAction.type action)
                                        (NodeAction.amount action);
                    BreadcrumbItem.player := TreeNode.player pn;
                    BreadcrumbItem.action := NodeAction.type action |}
                 :: breadcrumbs) Hq)
      as (rootNode & crumbs & Hloop & Hlen & Hrootin & Hnone); [lia | lia |].
    exists rootNode, (crumbs ++ [{| BreadcrumbItem.nodeId := q;
                                    BreadcrumbItem.label :=
                                      formatActionLabel (NodeAction.type action)
                                                        (NodeAction.amount action);
                                    BreadcrumbItem.player := TreeNode.player pn;
                                    BreadcrumbItem.action :=
                                      NodeAction.type action |}])%list.
    split; [|split; [|done]].
    + rewrite Hloop. by rewrite <- app_assoc.
    + rewrite length_app. simpl. lia.
Qed.

(** X16: on a returned tree whose root identifier is not the empty
    string, [getNavigationPath] of a node returns a trail of depth + 1
    breadcrumbs: first the "Start" item of the root, then one item for
    every ancestor's action on the way down; no hop is skipped. *)
Theorem breadcrumbs_cover_depth (nodes : JsMap.t Raw.Node)
    (stacks : option nat) (now : string) (t : OptimizedTree.t)
    (fuel : nat) k n :
  generateTree nodes stacks now = Some (Returned t) →
  OptimizedTree.root t ≠ "" →
  (k, n) ∈ OptimizedTree.nodes t →
  TreeNode.depth n <= Z.of_nat fuel →
  ∃ navPath first rest,
    TreeNavigator.getNavigationPath fuel (TreeNavigator.new t) k
    = Some (Some navPath) ∧
    NavigationPath.currentNode navPath = k ∧
    NavigationPath.breadcrumbs navPath = first :: rest ∧
    BreadcrumbItem.nodeId first = OptimizedTree.root t ∧
    BreadcrumbItem.label first = "Start" ∧
    BreadcrumbItem.action first = "ROOT" ∧
    Z.of_nat (length rest) = TreeNode.depth n.
Proof.
  intros Hgen Hroot Hin Hfuel. apply generateTree_Built in Hgen as Hbuilt.
  pose proof (built_depth _ _ Hbuilt) as Hd. rewrite Forall_forall in Hd.
  specialize (Hd _ Hin). simpl in Hd.
  destruct (breadcrumbs_loop_built _ _ Hbuilt Hroot
              (Z.to_nat (TreeNode.depth n)) fuel k n [] Hin)
    as (rootNode & crumbs & Hloop & Hlen & Hrootin & Hnone); [lia | lia |].
  unfold TreeNavigator.getNavigationPath, TreeNavigator.buildBreadcrumbs.
  simpl. rewrite (buildCache_NoDup t (built_NoDup _ _ Hbuilt)).
  apply (built_get _ _ Hbuilt) in Hin as Hget. rewrite Hget, Hloop. simpl.
  rewrite Hnone. simpl. rewrite app_nil_r.
  eexists _, _, crumbs. split; [reflexivity|]. simpl.
  split; [done|]. split; [done|]. split; [|split; [done|split; [done|lia]]].
  by destruct (built_key_in_collection _ _ _ _ Hbuilt Hrootin)
    as (rawNode & par & d & _ & ->).
Qed.

Lemma breadcrumbs_cover_depth_witness :
  ∃ n navPath,
    generateTree Examples.chain None ""
      = Some (Returned (Examples.tree_from Examples.chain)) ∧
    ("B", n) ∈ OptimizedTree.nodes (Examples.tree_from Examples.chain) ∧
    TreeNavigator.getNavigationPath
      2 (TreeNavigator.new (Examples.tree_from Examples.chain)) "B"
    = Some (Some navPath) ∧
    length (NavigationPath.breadcrumbs navPath) = 3%nat.
Proof.
  assert (generateTree Examples.chain None ""
          = Some (Returned (Examples.tree_from Examples.chain))) as Hgen
    by (vm_compute; reflexivity).
  assert (OptimizedTree.root (Examples.tree_from Examples.chain) ≠ "") as Hroot
    by (vm_compute; discriminate).
  destruct (JsMap.get (OptimizedTree.nodes (Examples.tree_from Examples.chain))
                      "B") as [n|] eqn:Hget; [|vm_compute in Hget; discriminate].
  assert (("B", n) ∈ OptimizedTree.nodes (Examples.tree_from Examples.chain))
    as Hin by (by apply get_Some_elem).
  assert (TreeNode.depth n = 2) as Hdepth.
  { vm_compute in Hget. by injection Hget as <-. }
  assert (TreeNode.depth n <= Z.of_nat 2) as Hfuel by (rewrite Hdepth; lia).
  destruct (breadcrumbs_cover_depth _ _ _ _ 2 "B" n Hgen Hroot Hin Hfuel)
    as (navPath & first & rest & Hnav & _ & Hcrumbs & _ & _ & _ & Hlen).
  exists n, navPath. split; [exact Hgen|]. split; [exact Hin|].
  split; [exact Hnav|]. rewrite Hcrumbs. simpl. lia.
Defined.

(** ** The two branching-factor computations *)

Lemma terminal_count (test : TreeNode.t → bool) (nodes : JsMap.t TreeNode.t) :
  length (List.filter test (JsMap.values nodes))
  = length (ids_where test nodes).
Proof.
  unfold ids_where, JsMap.values. rewrite length_map.
  induction nodes as [|[k n] l IH]; [done|].
  simpl. destruct (test n); simpl; by rewrite <- IH.
Qed.

(** X17: on a tree with pairwise distinct keys and at least one node not
    flagged terminal, [getTreeStats] and [calculateMetrics] report the
    same average and the same maximum branching factor; the node and
    terminal counts of [getTreeStats] are those of the node table. *)
Theorem getTreeStats_agrees_with_calculateMetrics (tree : OptimizedTree.t) :
  NoDup (JsMap.keys (OptimizedTree.nodes tree)) →
  Exists (fun n => TreeNode.isTerminal n = false)
         (JsMap.values (OptimizedTree.nodes tree)) →
  let stats := TreeNavigator.getTreeStats (TreeNavigator.new tree) in
  let metrics := TreeOptimizer.calculateMetrics tree in
  TreeNavigator.avgBranchingFactor stats = TreeOptimizer.avgBranchingFactor metrics ∧
  TreeNavigator.maxBranchingFactor stats = TreeOptimizer.maxBranchingFactor metrics ∧
  TreeNavigator.totalNodes stats = length (OptimizedTree.nodes tree) ∧
  TreeNavigator.terminalNodes stats
  = length (ids_where TreeNode.isTerminal (OptimizedTree.nodes tree)).
Proof.
  intros Hnd Hex. simpl.
  unfold TreeNavigator.getTreeStats, TreeOptimizer.calculateMetrics. simpl.
  rewrite (buildCache_NoDup tree Hnd).
  assert (0 < length (TreeOptimizer.branchingFactors
                        (JsMap.values (OptimizedTree.nodes tree))))%nat as Hpos.
  { unfold TreeOptimizer.branchingFactors. rewrite length_map.
    induction Hex as [n l Hn|n l _ IH]; simpl.
    - rewrite Hn. simpl. lia.
    - destruct (negb (TreeNode.isTerminal n)); simpl; lia. }
  rewrite !bool_decide_eq_true_2 by done.
  split; [done|]. split; [done|].
  split; [apply length_fmap|]. apply terminal_count.
Qed.

Lemma getTreeStats_agrees_with_calculateMetrics_witness :
  let tree := Examples.tree_from Examples.small in
  NoDup (JsMap.keys (OptimizedTree.nodes tree)) ∧
  Exists (fun n => TreeNode.isTerminal n = false)
         (JsMap.values (OptimizedTree.nodes tree)) ∧
  TreeNavigator.avgBranchingFactor
    (TreeNavigator.getTreeStats (TreeNavigator.new tree))
  = TreeOptimizer.avgBranchingFactor (TreeOptimizer.calculateMetrics tree).
Proof.
  intros tree.
  assert (NoDup (JsMap.keys (OptimizedTree.nodes tree))) as Hnd
    by (apply (bool_decide_unpack _); vm_compute; exact I).
  assert (Exists (fun n => TreeNode.isTerminal n = false)
                 (JsMap.values (OptimizedTree.nodes tree))) as Hex
    by (apply Exists_cons_hd; reflexivity).
  split; [exact Hnd|]. split; [exact Hex|].
  exact (proj1 (getTreeStats_agrees_with_calculateMetrics tree Hnd Hex)).
Defined.

(** ** The metadata of a returned tree *)

Lemma filter_length_Permutation {A : Type} (f : A → bool) (l1 l2 : list A) :
  l1 ≡ₚ l2 → length (List.filter f l1) = length (List.filter f l2).
Proof.
  induction 1 as [|x l1 l2 _ IH|x y l|l1 l2 l3 _ IH1 _ IH2]; simpl.
  - done.
  - destruct (f x); simpl; by rewrite IH.
  - destruct (f x), (f y); done.
  - by rewrite IH1.
Qed.

(** X18: the metadata of a returned tree count its node table:
    [totalNodes] is the number of entries of [nodes], [terminalNodes] the
    number of entries flagged terminal, which is also the length of the
    [terminals] index and what [getTreeStats] reports; the version is
    "1.0.0" and [generatedAt] the time of the call. *)
Theorem metadata_counts_nodes (nodes : JsMap.t Raw.Node) (stacks : option nat)
    (now : string) (t : OptimizedTree.t) :
  generateTree nodes stacks now = Some (Returned t) →
  let metadata := OptimizedTree.metadata t in
  let stats := TreeNavigator.getTreeStats (TreeNavigator.new t) in
  TreeMetadata.totalNodes metadata = length (OptimizedTree.nodes t) ∧
  TreeMetadata.terminalNodes metadata
  = length (TreeIndex.terminals (TreeOptimizer.createIndexes t)) ∧
  TreeNavigator.totalNodes stats = TreeMetadata.totalNodes metadata ∧
  TreeNavigator.terminalNodes stats = TreeMetadata.terminalNodes metadata ∧
  TreeMetadata.version metadata = "1.0.0" ∧
  TreeMetadata.generatedAt metadata = now.
Proof.
  intros Hgen. apply generateTree_Built in Hgen as Hbuilt.
  destruct (generateTree_nodes _ _ _ _ Hgen)
    as (processed & _ & Hnodes & Hnd & Hmeta).
  simpl. rewrite Hmeta. simpl.
  assert (JsMap.size processed = length (OptimizedTree.nodes t)) as Htotal.
  { rewrite Hnodes. unfold JsMap.size. by rewrite fromEntries_Permutation. }
  assert (length (List.filter TreeNode.isTerminal (JsMap.values processed))
          = length (List.filter TreeNode.isTerminal
                                (JsMap.values (OptimizedTree.nodes t))))
    as Hterm.
  { apply filter_length_Permutation. rewrite Hnodes.
    by rewrite fromEntries_values. }
  assert (length (TreeIndex.terminals (TreeOptimizer.createIndexes t))
          = length (List.filter TreeNode.isTerminal
                                (JsMap.values (OptimizedTree.nodes t))))
    as Hindex.
  { unfold TreeOptimizer.createIndexes.
    destruct (index_fold (OptimizedTree.nodes t)
                {| TreeIndex.byDepth := []; TreeIndex.byPlayer := [];
                   TreeIndex.terminals := []; TreeIndex.withHandData := [] |})
      as (_ & _ & -> & _). simpl. symmetry. apply terminal_count. }
  unfold TreeNavigator.getTreeStats. simpl.
  rewrite (buildCache_NoDup t (built_NoDup _ _ Hbuilt)).
  split; [done|]. split; [by rewrite Hindex|].
  split; [|split; [by rewrite Hterm | done]].
  rewrite Htotal. unfold JsMap.values. apply length_fmap.
Qed.

Lemma metadata_counts_nodes_witness :
  generateTree Examples.diamond None ""
    = Some (Returned (Examples.tree_from Examples.diamond)) ∧
  TreeMetadata.totalNodes
    (OptimizedTree.metadata (Examples.tree_from Examples.diamond))
  = length (OptimizedTree.nodes (Examples.tree_from Examples.diamond)).
Proof.
  assert (generateTree Examples.diamond None ""
          = Some (Returned (Examples.tree_from Examples.diamond))) as Hgen
    by (vm_compute; reflexivity).
  split; [exact Hgen|].
  exact (proj1 (metadata_counts_nodes _ _ _ _ Hgen)).
Defined.

(** ** TreeOptimizer: compression of any tree *)

Lemma keys_map_values {V W : Type} (f : V → W) (l : JsMap.t V) :
  JsMap.keys (map (fun entry => (entry.1, f entry.2)) l) = JsMap.keys l.
Proof.
  unfold JsMap.keys. induction l as [|[k v] l IH]; [done|].
  cbn. f_equal. exact IH.
Qed.

Lemma get_map_values {V W : Type} (f : V → W) (l : JsMap.t V) k :
  JsMap.get (map (fun entry => (entry.1, f entry.2)) l) k
  = f <$> JsMap.get l k.
Proof.
  induction l as [|[k' v] l IH]; simpl; [done|].
  case_bool_decide; [done | exact IH].
Qed.

Lemma compressTree_nodes (tree : OptimizedTree.t) :
  NoDup (JsMap.keys (OptimizedTree.nodes tree)) →
  OptimizedTree.nodes (TreeOptimizer.compressTree tree)
  = JsObject.fromEntries
      (map (fun entry => (entry.1, TreeOptimizer.compress_node entry.2))
           (assigned (OptimizedTree.nodes tree))).
Proof.
  intros Hnd. unfold TreeOptimizer.compressTree. simpl.
  by rewrite (fold_assign_map TreeOptimizer.compress_node).
Qed.

Lemma compressTree_get (tree : OptimizedTree.t) k :
  NoDup (JsMap.keys (OptimizedTree.nodes tree)) →
  k ≠ "__proto__" →
  JsMap.get (OptimizedTree.nodes (TreeOptimizer.compressTree tree)) k
  = TreeOptimizer.compress_node <$> JsMap.get (OptimizedTree.nodes tree) k.
Proof.
  intros Hnd Hk. rewrite compressTree_nodes by done.
  rewrite fromEntries_get
    by (rewrite keys_map_values; by apply assigned_NoDup).
  rewrite get_map_values. by rewrite assigned_get.
Qed.

Lemma compressTree_keys (tree : OptimizedTree.t) :
  NoDup (JsMap.keys (OptimizedTree.nodes tree)) →
  JsMap.keys (OptimizedTree.nodes (TreeOptimizer.compressTree tree))
  ≡ₚ List.filter (fun k => negb (bool_decide (k = "__proto__")))
                 (JsMap.keys (OptimizedTree.nodes tree)).
Proof.
  intros Hnd. rewrite compressTree_nodes by done.
  by rewrite fromEntries_keys, keys_map_values, assigned_keys.
Qed.


Lemma compressTree_no_proto (tree : OptimizedTree.t) :
  NoDup (JsMap.keys (OptimizedTree.nodes tree)) →
  "__proto__" ∉ JsMap.keys (OptimizedTree.nodes (TreeOptimizer.compressTree tree)).
Proof.
  intros Hnd. rewrite compressTree_keys by done.
  rewrite list_elem_of_In, filter_In. intros [_ Hp].
  by rewrite bool_decide_eq_true_2 in Hp.
Qed.

Section CompressPlain.
Variable tree : OptimizedTree.t.
Hypothesis Hnd : NoDup (JsMap.keys (OptimizedTree.nodes tree)).
Hypothesis Hplain : "__proto__" ∉ JsMap.keys (OptimizedTree.nodes tree).

Lemma compressTree_nodes_plain :
  OptimizedTree.nodes (TreeOptimizer.compressTree tree)
  = JsObject.fromEntries
      (map (fun entry => (entry.1, TreeOptimizer.compress_node entry.2))
           (OptimizedTree.nodes tree)).
Proof. rewrite compressTree_nodes by done. by rewrite assigned_id. Qed.

Lemma compressTree_get_plain k :
  JsMap.get (OptimizedTree.nodes (TreeOptimizer.compressTree tree)) k
  = TreeOptimizer.compress_node <$> JsMap.get (OptimizedTree.nodes tree) k.
Proof.
  rewrite compressTree_nodes_plain.
  rewrite fromEntries_get by (by rewrite keys_map_values).
  apply get_map_values.
Qed.

Lemma compressTree_has_plain k :
  JsMap.has (OptimizedTree.nodes (TreeOptimizer.compressTree tree)) k
  = JsMap.has (OptimizedTree.nodes tree) k.
Proof.
  unfold JsMap.has. rewrite compressTree_get_plain.
  by destruct (JsMap.get (OptimizedTree.nodes tree) k).
Qed.

Lemma compressTree_keys_plain :
  JsMap.keys (OptimizedTree.nodes (TreeOptimizer.compressTree tree))
  ≡ₚ JsMap.keys (OptimizedTree.nodes tree).
Proof.
  rewrite compressTree_nodes_plain.
  by rewrite fromEntries_keys, keys_map_values.
Qed.
End CompressPlain.

Lemma compressActions_targets (P : Target → Prop) (actions : list NodeAction.t) :
  Forall (fun a => truthy (NodeAction.node a) = true → P (NodeAction.node a))
         (TreeOptimizer.compressActions actions)
  ↔ Forall (fun a => truthy (NodeAction.node a) = true → P (NodeAction.node a))
           actions.
Proof.
  unfold TreeOptimizer.compressActions. rewrite Forall_map.
  apply Forall_iff. intros a. simpl.
  destruct (truthy (NodeAction.node a)) eqn:Ht; simpl; [by rewrite Ht | done].
Qed.

Lemma compressTree_well_linked (tree : OptimizedTree.t) :
  NoDup (JsMap.keys (OptimizedTree.nodes tree)) →
  "__proto__" ∉ JsMap.keys (OptimizedTree.nodes tree) →
  well_linked (TreeOptimizer.compressTree tree) ↔ well_linked tree.
Proof.
  intros Hnd Hplain. unfold well_linked.
  change (OptimizedTree.root (TreeOptimizer.compressTree tree))
    with (OptimizedTree.root tree).
  assert (OptimizedTree.nodes (TreeOptimizer.compressTree tree)
          ≡ₚ map (fun entry => (entry.1, TreeOptimizer.compress_node entry.2))
                 (OptimizedTree.nodes tree)) as Hperm.
  { rewrite compressTree_nodes_plain by done. apply fromEntries_Permutation. }
  pose proof (compressTree_get_plain tree Hnd Hplain) as Hget.
  pose proof (compressTree_has_plain tree Hnd Hplain) as Hhas.
  revert Hperm Hget Hhas.
  generalize (OptimizedTree.nodes (TreeOptimizer.compressTree tree)).
  intros compressed Hperm Hget Hhas. cbv zeta.
  assert (∀ x, TreeOptimizer.has_target compressed x
               = TreeOptimizer.has_target (OptimizedTree.nodes tree) x)
    as Htarget.
  { intros [|s|z]; simpl; [done | apply Hhas | done]. }
  rewrite Hhas. apply and_iff_compat_l.
  etrans; [split; apply Permutation_Forall; [exact Hperm | symmetry; exact Hperm]|].
  rewrite Forall_map.
  apply Forall_iff. intros [k n]. simpl.
  rewrite (compressActions_targets
             (fun x => TreeOptimizer.has_target compressed x = true)).
  assert (∀ A B C A' B' C' : Prop,
            (A ↔ A') → (B ↔ B') → (C ↔ C') → (A ∧ B ∧ C ↔ A' ∧ B' ∧ C'))
    as Hand by tauto.
  apply Hand.
  - split; intros Hp q Hq; destruct (Hp q Hq) as (parent & Hparent & Hdepth).
    + rewrite Hget in Hparent.
      destruct (JsMap.get (OptimizedTree.nodes tree) q) as [p|]; [|done].
      injection Hparent as <-. by exists p.
    + exists (TreeOptimizer.compress_node parent).
      rewrite Hget. by rewrite Hparent.
  - apply Forall_iff. intros c. by rewrite Hhas.
  - apply Forall_iff. intros a. by rewrite Htarget.
Qed.

(** X19: compressing a tree with pairwise distinct keys, none of them
    "__proto__", never changes the verdict of [validateTree]; the root
    and the set of node identifiers stay the same. *)
Theorem compressTree_keeps_validity (tree : OptimizedTree.t) :
  NoDup (JsMap.keys (OptimizedTree.nodes tree)) →
  "__proto__" ∉ JsMap.keys (OptimizedTree.nodes tree) →
  TreeOptimizer.isValid
    (TreeOptimizer.validateTree (TreeOptimizer.compressTree tree))
  = TreeOptimizer.isValid (TreeOptimizer.validateTree tree) ∧
  OptimizedTree.root (TreeOptimizer.compressTree tree) = OptimizedTree.root tree ∧
  JsMap.keys (OptimizedTree.nodes (TreeOptimizer.compressTree tree))
  ≡ₚ JsMap.keys (OptimizedTree.nodes tree).
Proof.
  intros Hnd Hplain.
  split; [|split; [done | by apply compressTree_keys_plain]].
  apply Bool.eq_iff_eq_true.
  rewrite !isValid_well_linked. by apply compressTree_well_linked.
Qed.

Lemma compressTree_keeps_validity_witness :
  NoDup (JsMap.keys (OptimizedTree.nodes Examples.zero_target_tree)) ∧
  TreeOptimizer.isValid
    (TreeOptimizer.validateTree
       (TreeOptimizer.compressTree Examples.zero_target_tree))
  = TreeOptimizer.isValid (TreeOptimizer.validateTree Examples.zero_target_tree).
Proof.
  assert (NoDup (JsMap.keys (OptimizedTree.nodes Examples.zero_target_tree)))
    as Hnd by (apply (bool_decide_unpack _); vm_compute; exact I).
  assert ("__proto__" ∉ JsMap.keys (OptimizedTree.nodes Examples.zero_target_tree))
    as Hplain by (apply (proj1 (bool_decide_eq_false _)); vm_compute; reflexivity).
  split; [exact Hnd|].
  exact (proj1 (compressTree_keeps_validity Examples.zero_target_tree Hnd Hplain)).
Defined.





(** X23: [compressTree] never returns a node under the key "__proto__":
    on a tree with pairwise distinct keys the compressed tree has the
    other keys, each with the compressed copy of its node, and a node
    named "__proto__" is dropped. *)
Theorem compressTree_drops_proto_key (tree : OptimizedTree.t) :
  NoDup (JsMap.keys (OptimizedTree.nodes tree)) →
  let compressed := OptimizedTree.nodes (TreeOptimizer.compressTree tree) in
  ("__proto__" ∉ JsMap.keys compressed) ∧
  JsMap.keys compressed
  ≡ₚ List.filter (fun k => negb (bool_decide (k = "__proto__")))
                 (JsMap.keys (OptimizedTree.nodes tree)) ∧
  ∀ k, k ≠ "__proto__" →
       JsMap.get compressed k
       = TreeOptimizer.compress_node <$> JsMap.get (OptimizedTree.nodes tree) k.
Proof.
  intros Hnd. cbv zeta.
  split; [by apply compressTree_no_proto|].
  split; [by apply compressTree_keys|].
  intros k Hk. by apply compressTree_get.
Qed.

Lemma compressTree_drops_proto_key_witness :
  NoDup (JsMap.keys (OptimizedTree.nodes Examples.proto_tree)) ∧
  "__proto__" ∈ JsMap.keys (OptimizedTree.nodes Examples.proto_tree) ∧
  ("__proto__" ∉ JsMap.keys (OptimizedTree.nodes
                               (TreeOptimizer.compressTree Examples.proto_tree))) ∧
  TreeOptimizer.isValid (TreeOptimizer.validateTree Examples.proto_tree) = true ∧
  TreeOptimizer.isValid
    (TreeOptimizer.validateTree (TreeOptimizer.compressTree Examples.proto_tree))
  = false.
Proof.
  assert (NoDup (JsMap.keys (OptimizedTree.nodes Examples.proto_tree)))
    as Hnd by (apply (bool_decide_unpack _); vm_compute; exact I).
  split; [exact Hnd|].
  split; [apply (bool_decide_unpack _); vm_compute; exact I|].
  split; [exact (proj1 (compressTree_drops_proto_key _ Hnd))|].
  split; vm_compute; reflexivity.
Defined.

(** ** TreeGenerator: reading the archive *)

Lemma append_nil (s : string) : "" +:+ s = s.
Proof. reflexivity. Qed.

Lemma append_cons (c : ascii) (s t : string) :
  String c s +:+ t = String c (s +:+ t).
Proof. reflexivity. Qed.

Lemma append_assoc (s t u : string) : (s +:+ t) +:+ u = s +:+ t +:+ u.
Proof.
  induction s as [|c s IH]; [done|]. rewrite !append_cons. by rewrite IH.
Qed.

Lemma includes_prefix (sub s : string) :
  String.prefix sub s = true → JsString.includes sub s = true.
Proof. intros H. destruct s; cbn [JsString.includes]; by rewrite H. Qed.

Lemma includes_app_r (sub pre s : string) :
  JsString.includes sub s = true → JsString.includes sub (pre +:+ s) = true.
Proof.
  intros H. induction pre as [|c pre IH]; [done|].
  rewrite append_cons. cbn [JsString.includes]. rewrite IH. apply orb_true_r.
Qed.

Lemma endsWith_app (suffix pre : string) :
  JsString.endsWith suffix (pre +:+ suffix) = true.
Proof.
  induction pre as [|c pre IH].
  - rewrite append_nil.
    destruct suffix; cbn [JsString.endsWith]; by rewrite bool_decide_eq_true_2.
  - rewrite append_cons. cbn [JsString.endsWith]. rewrite IH. apply orb_true_r.
Qed.

Lemma lastSegment_app (pre s : string) :
  JsString.includes "/" s = true →
  JsString.lastSegment (pre +:+ s) = JsString.lastSegment s.
Proof.
  intros H. induction pre as [|c pre IH]; [done|].
  rewrite append_cons. cbn [JsString.lastSegment].
  by rewrite (includes_app_r "/" pre s H).
Qed.

Lemma includes_char_cons (c d : ascii) (s : string) :
  JsString.includes (String c "") (String d s)
  = bool_decide (c = d) || JsString.includes (String c "") s.
Proof.
  cbn [JsString.includes]. f_equal. simpl.
  destruct (ascii_dec c d).
  - rewrite bool_decide_eq_true_2 by done. by destruct s.
  - by rewrite bool_decide_eq_false_2.
Qed.

Lemma includes_char_app (c : ascii) (s t : string) :
  JsString.includes (String c "") (s +:+ t)
  = JsString.includes (String c "") s || JsString.includes (String c "") t.
Proof.
  induction s as [|d s IH].
  - rewrite append_nil. done.
  - rewrite append_cons, !includes_char_cons, IH. by rewrite orb_assoc.
Qed.

Lemma prefix_cons (c d : ascii) (s t : string) :
  String.prefix (String c s) (String d t)
  = bool_decide (c = d) && String.prefix s t.
Proof.
  cbn [String.prefix]. destruct (ascii_dec c d).
  - by rewrite bool_decide_eq_true_2.
  - by rewrite bool_decide_eq_false_2.
Qed.

Lemma prefix_json_app (c : ascii) (rest : string) :
  String.prefix ".json" (String c rest) = false →
  String.prefix ".json" (String c rest +:+ ".json") = false.
Proof.
  destruct rest as [|c2 [|c3 [|c4 [|c5 rest]]]];
    rewrite ?append_cons, ?append_nil, ?prefix_cons;
    repeat case_bool_decide; simplify_eq; try done.
  by destruct rest.
Qed.

Lemma removeFirst_json (name : string) :
  JsString.includes ".json" name = false →
  JsString.removeFirst ".json" (name +:+ ".json") = name.
Proof.
  induction name as [|c rest IH]; [done|].
  cbn [JsString.includes]. intros H. apply orb_false_iff in H as [Hc Hrest].
  apply prefix_json_app in Hc. rewrite append_cons in *.
  cbn [JsString.removeFirst]. rewrite Hc. by rewrite IH.
Qed.

(** X21: a file "<dir>nodes/<name>.json" of the archive is read as a node
    file, and its identifier is <name>, whenever <name> contains neither
    a slash nor ".json"; the directory in front of "nodes/" is ignored. *)
Theorem node_file_identifier (dir name : string) :
  JsString.includes "/" name = false →
  JsString.includes ".json" name = false →
  is_node_path (dir +:+ "nodes/" +:+ name +:+ ".json") = true ∧
  node_id_of (dir +:+ "nodes/" +:+ name +:+ ".json") = name.
Proof.
  intros Hslash Hjson.
  assert (JsString.includes "/" (name +:+ ".json") = false) as Hrest.
  { rewrite includes_char_app, Hslash. done. }
  split.
  - unfold is_node_path. apply andb_true_iff. split.
    + apply includes_app_r, includes_prefix.
      rewrite !append_cons, append_nil, !prefix_cons.
      rewrite !bool_decide_eq_true_2 by done.
      by destruct (name +:+ ".json").
    + replace (dir +:+ "nodes/" +:+ name +:+ ".json")
        with ((dir +:+ "nodes/" +:+ name) +:+ ".json").
      * apply endsWith_app.
      * by rewrite !append_assoc.
  - unfold node_id_of. rewrite lastSegment_app.
    + rewrite !append_cons, append_nil. cbn [JsString.lastSegment].
      rewrite !includes_char_cons, Hrest. simpl.
      by apply removeFirst_json.
    + rewrite !append_cons, append_nil, !includes_char_cons. done.
Qed.

Lemma node_file_identifier_witness :
  is_node_path "icm/nodes/12.json" = true ∧
  node_id_of "icm/nodes/12.json" = "12".
Proof.
  apply (node_file_identifier "icm/" "12"); vm_compute; reflexivity.
Defined.

Lemma loadData_fold (zipData : list (string * Raw.Node)) :
  ∀ (acc : JsMap.t Raw.Node) k,
    JsMap.get (fold_left (fun nodes file =>
                            if is_node_path file.1
                            then JsMap.set nodes (node_id_of file.1) file.2
                            else nodes)
                         zipData acc) k
    = match last (List.filter (file_for k) zipData) with
      | Some file => Some file.2
      | None => JsMap.get acc k
      end.
Proof.
  induction zipData as [|file rest IH]; intros acc k; [done|].
  cbn [fold_left List.filter]. rewrite IH. unfold file_for at 2.
  destruct (is_node_path file.1) eqn:Hpath; simpl.
  - case_bool_decide as Hid.
    + rewrite last_cons.
      destruct (last (List.filter (file_for k) rest)); [done|].
      rewrite <- Hid. apply get_set_eq.
    + destruct (last (List.filter (file_for k) rest)); [done|].
      by apply get_set_ne.
  - done.
Qed.

Lemma loadData_NoDup (zipData : list (string * Raw.Node)) :
  ∀ acc : JsMap.t Raw.Node,
    NoDup (JsMap.keys acc) →
    NoDup (JsMap.keys (fold_left (fun nodes file =>
                                    if is_node_path file.1
                                    then JsMap.set nodes (node_id_of file.1)
                                                   file.2
                                    else nodes)
                                 zipData acc)).
Proof.
  induction zipData as [|file rest IH]; intros acc Hnd; [done|].
  cbn [fold_left]. apply IH.
  destruct (is_node_path file.1); [by apply set_NoDup | done].
Qed.

(** X22: [loadData] keeps one record per identifier, and when several
    node files of the archive share an identifier the record of the last
    one is kept; an identifier that no node file has is not in the map. *)
Theorem loadData_last_file_wins (zipData : list (string * Raw.Node))
    (k : string) :
  NoDup (JsMap.keys (loadData zipData)) ∧
  JsMap.get (loadData zipData) k
  = snd <$> last (List.filter (file_for k) zipData) ∧
  (k ∈ JsMap.keys (loadData zipData) ↔
   ∃ file, file ∈ zipData ∧ is_node_path file.1 = true ∧
           node_id_of file.1 = k).
Proof.
  assert (JsMap.get (loadData zipData) k
          = snd <$> last (List.filter (file_for k) zipData)) as Hget.
  { unfold loadData. rewrite loadData_fold.
    by destruct (last (List.filter (file_for k) zipData)). }
  split; [apply loadData_NoDup, NoDup_nil_2|]. split; [exact Hget|].
  rewrite <- get_is_Some_keys, Hget. split.
  - intros [v Hv].
    destruct (last (List.filter (file_for k) zipData)) as [file|] eqn:Hlast;
      [|done].
    apply last_Some_elem_of, list_elem_of_In, filter_In in Hlast
      as [Hin Hfile].
    apply andb_true_iff in Hfile as [Hpath Hid].
    exists file. split; [by apply list_elem_of_In|].
    split; [done | by apply bool_decide_eq_true in Hid].
  - intros (file & Hin & Hpath & Hid).
    destruct (last (List.filter (file_for k) zipData)) as [found|] eqn:Hlast;
      [by eexists|].
    apply last_None in Hlast.
    assert (In file (List.filter (file_for k) zipData)) as Hfound.
    { apply filter_In. split; [by apply list_elem_of_In|].
      unfold file_for. rewrite Hpath. by rewrite bool_decide_eq_true_2. }
    rewrite Hlast in Hfound. destruct Hfound.
Qed.
